(** * photutils: PSF/PRF models and segment properties

    A shallow embedding of [photutils/psf/models.py] and
    [photutils/segmentation.py], followed by the properties established
    about them.

    Conventions of the embedding.
    - A numpy [float64] is an exact rational or one of the IEEE specials
      (+inf, -inf, NaN); rounding error and the sign of zero are not
      modelled, so "equal to numerical tolerance" reads as equality of
      rationals ([Qeq]).  A statement that float64 would break by
      overflow, underflow or cancellation carries the hypotheses that
      keep away from them ([NP.nonneg2], [NP.moderate]).
    - [IntegratedGaussianPRF.bounding_box], whose outcome overflow
      decides, is modelled over IEEE binary64 itself (the primitive
      floats of Rocq).
    - The eigenvalues of the covariance matrix are what
      [np.linalg.eigvals] returns, a parameter of the definitions that
      use them.
    - Calls into scipy that can fail ([RectBivariateSpline]) are modelled
      with the checks they make on their arguments.
    - A raised Python exception is the [Raise] case of [result].
    - Arrays that the code updates in place live in an explicit store and
      are passed by reference. *)

From Stdlib Require Import ZArith QArith Qabs Qround Lra Lia.
From Stdlib Require Reals Lqa Floats.
From stdpp Require Import base list gmap strings.

(** ** numpy scalars and arrays *)

Module NP.

Inductive float := Fin (q : Q) | PInf | NInf | NaN.

Definition Qis0 (q : Q) : bool := (Qnum q =? 0)%Z.
Definition Qispos (q : Q) : bool := (0 <? Qnum q)%Z.
Definition Qltb (a b : Q) : bool :=
  match (a ?= b)%Q with Lt => true | _ => false end.

Definition signed_inf (positive : bool) : float :=
  if positive then PInf else NInf.

Definition fneg (x : float) : float :=
  match x with
  | Fin a => Fin (- a)
  | PInf => NInf
  | NInf => PInf
  | NaN => NaN
  end.

Definition fadd (x y : float) : float :=
  match x, y with
  | NaN, _ | _, NaN => NaN
  | Fin a, Fin b => Fin (a + b)
  | PInf, NInf | NInf, PInf => NaN
  | PInf, _ | _, PInf => PInf
  | NInf, _ | _, NInf => NInf
  end.

Definition fsub (x y : float) : float :=
  match x, y with
  | NaN, _ | _, NaN => NaN
  | Fin a, Fin b => Fin (a - b)
  | PInf, PInf | NInf, NInf => NaN
  | PInf, _ | _, NInf => PInf
  | NInf, _ | _, PInf => NInf
  end.

Definition fmul (x y : float) : float :=
  match x, y with
  | NaN, _ | _, NaN => NaN
  | Fin a, Fin b => Fin (a * b)
  | Fin a, PInf | PInf, Fin a =>
      if Qis0 a then NaN else signed_inf (Qispos a)
  | Fin a, NInf | NInf, Fin a =>
      if Qis0 a then NaN else signed_inf (negb (Qispos a))
  | PInf, PInf | NInf, NInf => PInf
  | PInf, NInf | NInf, PInf => NInf
  end.

(** Division by zero follows numpy: [x / 0] is an infinity of the sign
    of [x], and [0 / 0] is NaN (a warning, not an exception). *)
Definition fdiv (x y : float) : float :=
  match x, y with
  | NaN, _ | _, NaN => NaN
  | Fin a, Fin b =>
      if Qis0 b then (if Qis0 a then NaN else signed_inf (Qispos a))
      else Fin (a / b)
  | Fin _, PInf | Fin _, NInf => Fin 0
  | PInf, Fin b => signed_inf (Qis0 b || Qispos b)
  | NInf, Fin b => signed_inf (negb (Qis0 b || Qispos b))
  | PInf, PInf | PInf, NInf | NInf, PInf | NInf, NInf => NaN
  end.

Definition feqb (x y : float) : bool :=
  match x, y with
  | Fin a, Fin b => Qeq_bool a b
  | PInf, PInf | NInf, NInf => true
  | _, _ => false
  end.

Definition fltb (x y : float) : bool :=
  match x, y with
  | Fin a, Fin b => Qltb a b
  | NInf, Fin _ | NInf, PInf | Fin _, PInf => true
  | _, _ => false
  end.

Definition fleb (x y : float) : bool := fltb x y || feqb x y.

Definition isnan (x : float) : bool :=
  match x with NaN => true | _ => false end.

Definition isfinite (x : float) : bool :=
  match x with Fin _ => true | _ => false end.

Definition of_Z (z : Z) : float := Fin (inject_Z z).
Definition of_nat (n : nat) : float := of_Z (Z.of_nat n).

(** The rational a finite float stands for. *)
Definition val (x : float) : Q :=
  match x with Fin q => q | _ => 0%Q end.

(** Equality up to the representation of the rational. *)
Definition feq (x y : float) : Prop :=
  match x, y with
  | Fin a, Fin b => (a == b)%Q
  | PInf, PInf | NInf, NInf | NaN, NaN => True
  | _, _ => False
  end.

(** [ndarray.astype('int')] on a float: truncation toward zero, into a
    64-bit integer.  What a NaN, an infinity or a value beyond the range
    of these integers converts to is left to the platform by numpy; on
    x86-64 it is the smallest 64-bit integer. *)
Definition Qtrunc (q : Q) : Z := Z.quot (Qnum q) (Zpos (Qden q)).

Definition astype_int (x : float) : Z :=
  match x with
  | Fin q =>
      let z := Qtrunc q in
      if ((- 2 ^ 63 <=? z) && (z <? 2 ^ 63))%Z then z else (- 2 ^ 63)%Z
  | _ => (- 2 ^ 63)%Z
  end.

(** Element-wise equality of 1-D arrays. *)
Abbreviation array1 := (list float).
Abbreviation array2 := (list (list float)).
Abbreviation array4 := (list (list (list (list float)))).

(** Element-wise equality of 1-D arrays. *)
Definition feq1 (a b : array1) : Prop := Forall2 feq a b.

(** [a.shape] of a (rectangular) 2-D array. *)
Definition shape2 {A} (a : list (list A)) : nat * nat :=
  (length a, match a with r :: _ => length r | [] => 0%nat end).

(** [np.sum(a)] of a 1-D and of a 2-D array. *)
Definition sum1 (a : array1) : float := foldr fadd (Fin 0) a.
Definition sum2 (a : array2) : float := sum1 (concat a).

(** [np.mean(a)]; the mean of no element is [0 / 0]. *)
Definition mean1 (a : array1) : float := fdiv (sum1 a) (of_nat (length a)).

(** [a / s] and [s * a] for a scalar [s]. *)
Definition div2 (a : array2) (s : float) : array2 :=
  map (map (fun v => fdiv v s)) a.
Definition scale2 (s : float) (a : array2) : array2 :=
  map (map (fmul s)) a.

(** [a.T] for an array of [ncols] columns. *)
Definition transpose (ncols : nat) (a : array2) : array2 :=
  map (fun j => map (fun row => nth j row (Fin 0)) a) (seq 0 ncols).

(** [np.arange(n, dtype=np.float)] *)
Definition arange (n : nat) : array1 := map of_nat (seq 0 n).

Definition all_finite1 (a : array1) : bool := forallb isfinite a.
Definition all_finite2 (a : array2) : bool := forallb all_finite1 a.

(** Where the exact arithmetic of the embedding stands for that of
    float64 up to rounding.  Values that are finite and not negative add
    up without cancellation; a magnitude between 2^-1000 and 2^1000 is
    far from overflow and underflow. *)
Definition nonneg1 (a : array1) : bool :=
  forallb (fun v => isfinite v && fleb (Fin 0) v) a.
Definition nonneg2 (a : array2) : bool := forallb nonneg1 a.

Definition tiny : Q := 1 # (2 ^ 1000).
Definition huge : Q := inject_Z (2 ^ 1000).

Definition moderate (x : float) : bool :=
  match x with
  | Fin q => Qle_bool tiny (Qabs q) && Qle_bool (Qabs q) huge
  | _ => false
  end.

(** Zero, or of moderate magnitude. *)
Definition zero_or_moderate (x : float) : bool :=
  feqb x (Fin 0) || moderate x.

End NP.

(** ** Python exceptions and values *)

Inductive exn :=
| ValueError (msg : string)
| TypeError (msg : string)
| IndexError (msg : string)
| OverflowError (msg : string)
| Exception (msg : string).

Inductive result (A : Type) :=
| Ok (a : A)
| Raise (e : exn).
Arguments Ok {A} a.
Arguments Raise {A} e.

Definition rbind {A B} (r : result A) (k : A -> result B) : result B :=
  match r with
  | Ok a => k a
  | Raise e => Raise e
  end.

Definition raises {A} (r : result A) : Prop :=
  match r with Raise _ => True | Ok _ => False end.

(** The values a keyword dictionary of the models carries. *)
#[warnings="-register-all"]
Inductive pyval :=
| PyInt (z : Z)
| PyFloat (f : NP.float)
| PyTuple (items : list pyval).

(** [int(v)] *)
Definition py_int (v : pyval) : result Z :=
  match v with
  | PyInt z => Ok z
  | PyFloat (NP.Fin q) => Ok (NP.Qtrunc q)
  | PyFloat NP.NaN => Raise (ValueError "cannot convert float NaN to integer")
  | PyFloat _ => Raise (OverflowError "cannot convert float infinity to integer")
  | PyTuple _ => Raise (TypeError "int() argument must be a number")
  end.

(** [a[i]] for a Python integer [i]; negative indices count from the end. *)
Definition getitem {A} (a : list A) (i : Z) : result A :=
  let n := Z.of_nat (length a) in
  let k := if (i <? 0)%Z then (i + n)%Z else i in
  if (k <? 0)%Z then Raise (IndexError "index out of bounds")
  else match a !! Z.to_nat k with
       | Some v => Ok v
       | None => Raise (IndexError "index out of bounds")
       end.

Fixpoint sequence {A} (l : list (result A)) : result (list A) :=
  match l with
  | [] => Ok []
  | r :: rest =>
      rbind r (fun v => rbind (sequence rest) (fun vs => Ok (v :: vs)))
  end.

(** ** [photutils/psf/models.py] *)

(** *** [Discrete2DModel] *)

Module Discrete2DModel.
Import NP.

(** The object [scipy.interpolate.RectBivariateSpline(x, y, z, kx=, ky=,
    s=)] returns; it records the arguments it was built from. *)
Record RectBivariateSpline := {
  sp_x : array1;
  sp_y : array1;
  sp_z : array2;
  kx : Z;
  ky : Z;
  s : pyval
}.

(** What the constructor of scipy accepts: a degree from 1 to 5 on each
    axis, more points than the degree on each axis, and a smoothing
    factor that is a number and not negative. *)
Definition spline_accepts (x y : array1) (kx ky : Z) (s : pyval) : bool :=
  ((1 <=? kx) && (kx <=? 5) && (1 <=? ky) && (ky <=? 5))%Z
  && ((kx <? Z.of_nat (length x)) && (ky <? Z.of_nat (length y)))%Z
  && match s with
     | PyInt z => (0 <=? z)%Z
     | PyFloat f => fleb (Fin 0) f
     | PyTuple _ => false
     end.

(** The call [RectBivariateSpline(x, y, z, kx=kx, ky=ky, s=s)]: scipy
    refuses what it does not accept with an exception (which class
    depends on the check that fails; nothing here catches it, so the
    model has one exception for all of them). *)
Definition RectBivariateSpline_call (x y : array1) (z : array2) (kx ky : Z)
    (s : pyval) : result RectBivariateSpline :=
  if spline_accepts x y kx ky s
  then Ok {| sp_x := x; sp_y := y; sp_z := z; kx := kx; ky := ky; s := s |}
  else Raise (Exception "RectBivariateSpline: invalid input").

Record t := {
  _fillval : option float;
  _weights : option array2;
  _ndata : array2;
  _ny : nat;
  _nx : nat;
  _ox : float;
  _oy : float;
  flux : float;
  x_0 : float;
  y_0 : float;
  interpolator : RectBivariateSpline
}.

(** The interpolation degrees chosen by [compute_interpolator]. *)
Definition degrees (kwargs : gmap string pyval) : result (Z * Z) :=
  match kwargs !! "degree" with
  | Some degree =>
      rbind
        (match degree with
         | PyTuple [d0; d1] =>
             rbind (py_int d0) (fun degx =>
             rbind (py_int d1) (fun degy => Ok (degx, degy)))
         | _ =>
             rbind (py_int degree) (fun degx =>
             rbind (py_int degree) (fun degy => Ok (degx, degy)))
         end)
        (fun '(degx, degy) =>
           if ((degx <? 0) || (degy <? 0))%Z
           then Raise (ValueError
                  "Interpolator degree must be a non-negative integer")
           else Ok (degx, degy))
  | None => Ok (3, 3)%Z
  end.

Definition compute_interpolator (nx ny : nat) (ndata : array2)
    (kwargs : gmap string pyval) : result RectBivariateSpline :=
  rbind (degrees kwargs) (fun '(degx, degy) =>
    let smoothness :=
      match kwargs !! "s" with
      | Some v => v
      | None => PyInt 0
      end in
    let x := arange nx in
    let y := arange ny in
    RectBivariateSpline_call x y (transpose nx ndata) degx degx smoothness).

Definition __init__ (data : array2) (flux : option float) (x_0 y_0 : float)
    (origin : option (float * float)) (weights : option array2)
    (fillval : option float) (kwargs : gmap string pyval) : result t :=
  let tflux := sum2 data in
  let tflux :=
    if feqb tflux (Fin 0) || negb (isfinite tflux) then Fin 1 else tflux in
  let flux := match flux with None => tflux | Some f => f end in
  let ndata := div2 data tflux in
  let '(ny, nx) := shape2 data in
  let '(ox, oy) :=
    match origin with
    | None => (fdiv (of_Z (Z.of_nat nx - 1)) (Fin 2),
               fdiv (of_Z (Z.of_nat ny - 1)) (Fin 2))
    | Some o => o
    end in
  rbind (compute_interpolator nx ny ndata kwargs) (fun sp =>
    Ok {| _fillval := fillval; _weights := weights; _ndata := ndata;
          _ny := ny; _nx := nx; _ox := ox; _oy := oy;
          flux := flux; x_0 := x_0; y_0 := y_0; interpolator := sp |}).

(** The normalization flux [tflux] of the constructor. *)
Definition tflux_of (data : array2) : float :=
  if feqb (sum2 data) (Fin 0) || negb (isfinite (sum2 data))
  then Fin 1 else sum2 data.

Definition ndata (self : t) : array2 := _ndata self.

Definition data (self : t) : array2 := scale2 (flux self) (_ndata self).

(** The assignment [self.flux = value] to the flux parameter. *)
Definition set_flux (self : t) (value : float) : t :=
  {| _fillval := _fillval self; _weights := _weights self;
     _ndata := _ndata self; _ny := _ny self; _nx := _nx self;
     _ox := _ox self; _oy := _oy self;
     flux := value; x_0 := x_0 self; y_0 := y_0 self;
     interpolator := interpolator self |}.

Definition recenter (self : t) : t :=
  {| _fillval := _fillval self; _weights := _weights self;
     _ndata := _ndata self; _ny := _ny self; _nx := _nx self;
     _ox := fsub (_ox self) (x_0 self);
     _oy := fsub (_oy self) (y_0 self);
     flux := flux self;
     x_0 := Fin 0;
     y_0 := Fin 0;
     interpolator := interpolator self |}.

Section Evaluate.
(** [RectBivariateSpline.ev], the spline evaluator of scipy. *)
Variable ev : RectBivariateSpline -> float -> float -> float.

Definition evaluate (self : t) (x y : array1) (flux x_0 y_0 : float)
    : array1 :=
  let xi := map (fun v => fadd v (fsub (_ox self) x_0)) x in
  let yi := map (fun v => fadd v (fsub (_oy self) y_0)) y in
  let ipsf := zip_with (fun a b => fmul flux (ev (interpolator self) a b))
                       xi yi in
  match _fillval self with
  | Some fillval =>
      let invalid :=
        zip_with
          (fun a b =>
             (fltb a (Fin 0) || fltb (of_Z (Z.of_nat (_nx self) - 1)) a)
             || (fltb b (Fin 0) || fltb (of_Z (Z.of_nat (_ny self) - 1)) b))
          xi yi in
      zip_with (fun (inv : bool) v => if inv then fillval else v)
               invalid ipsf
  | None => ipsf
  end.

(** Calling the model evaluates it at its current parameter values. *)
Definition call (self : t) (x y : array1) : array1 :=
  evaluate self x y (flux self) (x_0 self) (y_0 self).
End Evaluate.

End Discrete2DModel.

(** *** [DiscretePRF] *)

Module DiscretePRF.
Import NP.

(** The array handed to the constructor: a 2-D image, a 4-D cube, or an
    array of some other number of dimensions. *)
Inductive ndarray :=
| A2 (a : array2)
| A4 (c : array4)
| AN (ndim : nat).

Definition ndim (a : ndarray) : nat :=
  match a with A2 _ => 2 | A4 _ => 4 | AN n => n end.

(** Arrays are objects of a store and are passed by reference. *)
Abbreviation loc := nat (only parsing).
Abbreviation store := (list ndarray) (only parsing).

Definition alloc (h : store) (a : ndarray) : store * loc :=
  (h ++ [a], length h).

(** [a.shape[:2]] of a 4-D array. *)
Definition shape4_01 (c : array4) : nat * nat := shape2 c.

(** [a.shape[-2:]] of a 4-D array. *)
Definition shape4_23 (c : array4) : nat * nat :=
  match c with
  | (sl :: _) :: _ => shape2 sl
  | _ => (0, 0)%nat
  end.

Definition any_isnan (c : array4) : bool :=
  existsb (existsb (existsb (existsb isnan))) c.

(** [prf_array[i, j] /= prf_array[i, j].sum()], on the array in the store. *)
Definition idiv_slice (l : loc) (i j : nat) (h : store) : store :=
  match h !! l with
  | Some (A4 c) =>
      <[l := A4 (alter (alter (fun sl => div2 sl (sum2 sl)) j) i c)]> h
  | _ => h
  end.

(** Every row of the first axis has the length of the first one, as in
    any numpy array. *)
Definition rectangular (c : array4) : bool :=
  forallb (fun row => (length row =? snd (shape4_01 c))%nat) c.

(** The cube with every [(i, j)] slice divided by its own sum. *)
Definition normalized (c : array4) : array4 :=
  map (map (fun sl => div2 sl (sum2 sl))) c.

Definition normalize_loops (l : loc) (n0 n1 : nat) (h : store) : store :=
  foldl (fun h i => foldl (fun h j => idiv_slice l i j h) h (seq 0 n1))
        h (seq 0 n0).

Record t := {
  _prf_array : loc;
  subsampling : Z;
  flux : float;
  x_0 : float;
  y_0 : float
}.

Definition __init__ (prf_array : loc) (normalize : bool) (subsampling : Z)
    (h : store) : store * result t :=
  match h !! prf_array with
  | None => (h, Raise (TypeError "not an array"))
  | Some a =>
      (* Array shape and dimension check *)
      let '(h, prf_array, a) :=
        match (subsampling =? 1)%Z, a with
        | true, A2 img =>
            let a' := A4 [[img]] in
            let '(h', l') := alloc h a' in (h', l', a')
        | _, _ => (h, prf_array, a)
        end in
      match a with
      | A4 c =>
          let '(s0, s1) := shape4_01 c in
          if negb ((Z.of_nat s0 =? subsampling)%Z
                   && (Z.of_nat s1 =? subsampling)%Z)
          then (h, Raise (TypeError "Incompatible subsampling and array size"))
          else if any_isnan c
          then (h, Raise (Exception
                            "Array contains NaN values. Can't create PRF."))
          else
            (* Normalize if requested *)
            let h := if normalize then normalize_loops prf_array s0 s1 h
                     else h in
            (h, Ok {| _prf_array := prf_array; subsampling := subsampling;
                      flux := Fin 1; x_0 := Fin 0; y_0 := Fin 0 |})
      | _ => (h, Raise (TypeError "Array must have 4 dimensions."))
      end
  end.

(** The cube a model refers to. *)
Definition cube_of (h : store) (self : t) : array4 :=
  match h !! _prf_array self with
  | Some (A4 c) => c
  | _ => []
  end.

(** The slice [cube[i, j]]. *)
Definition slice_at (c : array4) (i j : nat) : option array2 :=
  c !! i ≫= (fun row => row !! j).

Definition prf_shape (h : store) (self : t) : nat * nat :=
  shape4_23 (cube_of h self).

(** [astropy.nddata.utils.subpixel_indices] for one coordinate:
    [floor(modf(position + 0.5)[0] * subsampling)]. *)
Definition subpixel_index (position : float) (subsampling : Z) : float :=
  match fadd position (Fin 0.5) with
  | Fin q =>
      let fraction := (q - inject_Z (Qtrunc q))%Q in
      of_Z (Qfloor (fraction * inject_Z subsampling))
  | NaN => NaN
  | _ => fmul (Fin 0) (of_Z subsampling)
  end.

(** [int(v)] of a float scalar. *)
Definition int_of_float (v : float) : result Z := py_int (PyFloat v).

(** The index array [(x - x_0 + 0.5 + n // 2).astype('int')]. *)
Definition to_index (n : nat) (x_0 : float) (x : array1) : list Z :=
  map (fun v =>
         astype_int
           (fadd (fadd (fsub v x_0) (Fin 0.5)) (of_Z (Z.of_nat n / 2))))
      x.

Definition evaluate (h : store) (self : t) (x y : array1)
    (flux x_0 y_0 : float) : result array1 :=
  let '(ny, nx) := prf_shape h self in
  (* Convert x and y to index arrays *)
  let x := to_index nx x_0 x in
  let y := to_index ny y_0 y in
  (* Get subpixel indices *)
  let y_sub := subpixel_index y_0 (subsampling self) in
  let x_sub := subpixel_index x_0 (subsampling self) in
  (* Out of boundary masks *)
  let x_bound := map (fun v => (v <? 0)%Z || (Z.of_nat nx <=? v)%Z) x in
  let y_bound := map (fun v => (v <? 0)%Z || (Z.of_nat ny <=? v)%Z) y in
  let out_of_bounds := zip_with orb x_bound y_bound in
  (* Set out of boundary indices to zero *)
  let x := zip_with (fun (b : bool) v => if b then 0%Z else v) x_bound x in
  let y := zip_with (fun (b : bool) v => if b then 0%Z else v) y_bound y in
  rbind (int_of_float y_sub) (fun iy =>
  rbind (int_of_float x_sub) (fun ix =>
  rbind (getitem (cube_of h self) iy) (fun row =>
  rbind (getitem row ix) (fun sl =>
  rbind (sequence
           (zip_with (fun yi xi =>
                        rbind (getitem sl yi) (fun r => getitem r xi))
                     y x))
        (fun vals =>
           let result := map (fmul flux) vals in
           (* Set out of boundary values to zero *)
           Ok (zip_with (fun (b : bool) v => if b then Fin 0 else v)
                        out_of_bounds result)))))).

End DiscretePRF.

(** *** [PRFAdapter] *)

Module PRFAdapter.
Import NP.

(** The wrapped PSF model is an object whose attributes (its parameters
    among them) are set by name. *)
Abbreviation model := (gmap string float).

Record t := {
  psfmodel : model;
  _psf_scale_factor : float;
  xname : option string;
  yname : option string;
  fluxname : option string;
  flux : float;
  x_0 : float;
  y_0 : float
}.

Definition with_psfmodel (self : t) (m : model) : t :=
  {| psfmodel := m; _psf_scale_factor := _psf_scale_factor self;
     xname := xname self; yname := yname self; fluxname := fluxname self;
     flux := flux self; x_0 := x_0 self; y_0 := y_0 self |}.

(** [setattr(self.psfmodel, name, value)]; the name must be a string. *)
Definition setattr_psfmodel (self : t) (name : option string) (value : float)
    : result t :=
  match name with
  | Some n => Ok (with_psfmodel self (<[n := value]> (psfmodel self)))
  | None => Raise (TypeError "attribute name must be string")
  end.

Section Integration.
(** [scipy.integrate.dblquad(model, a, b, lambda x: c, lambda x: d)[0]] *)
Variable dblquad : model -> float -> float -> float -> float -> float.

Definition __init__ (psfmodel : model) (renormalize_psf : bool)
    (flux x_0 y_0 : float) (xname yname fluxname : option string) : t :=
  {| psfmodel := psfmodel;
     _psf_scale_factor :=
       if renormalize_psf
       then fdiv (Fin 1) (dblquad psfmodel NInf PInf NInf PInf)
       else Fin 1;
     xname := xname; yname := yname; fluxname := fluxname;
     flux := flux; x_0 := x_0; y_0 := y_0 |}.

Definition _integrated_psfmodel (self : t) (dx dy : array1) : array1 :=
  zip_with
    (fun xi yi =>
       dblquad (psfmodel self)
               (fsub xi (Fin 0.5)) (fadd xi (Fin 0.5))
               (fsub yi (Fin 0.5)) (fadd yi (Fin 0.5)))
    dx dy.

(** [evaluate] returns the adapter as the call leaves it (an exception
    leaves the attributes set so far in place) and the value or the
    exception. *)
Definition evaluate (self : t) (x y : array1) (flux x_0 y_0 : float)
    : t * result array1 :=
  let step1 :=
    match xname self with
    | None => Ok (self, map (fun v => fsub v x_0) x)
    | Some _ =>
        rbind (setattr_psfmodel self (xname self) x_0)
              (fun self' => Ok (self', x))
    end in
  match step1 with
  | Raise e => (self, Raise e)
  | Ok (self1, dx) =>
      let step2 :=
        match xname self1 with
        | None => Ok (self1, map (fun v => fsub v y_0) y)
        | Some _ =>
            rbind (setattr_psfmodel self1 (yname self1) y_0)
                  (fun self' => Ok (self', y))
        end in
      match step2 with
      | Raise e => (self1, Raise e)
      | Ok (self2, dy) =>
          match fluxname self2 with
          | None =>
              (self2,
               Ok (map (fmul (fmul flux (_psf_scale_factor self2)))
                       (_integrated_psfmodel self2 dx dy)))
          | Some _ =>
              match setattr_psfmodel self2 (yname self2)
                      (fmul flux (_psf_scale_factor self2)) with
              | Raise e => (self2, Raise e)
              | Ok self3 => (self3, Ok (_integrated_psfmodel self3 dx dy))
              end
          end
      end
  end.
End Integration.

End PRFAdapter.

(** ** [photutils/segmentation.py] *)

Module Segmentation.
Import NP.

Abbreviation barray2 := (list (list bool)).
Abbreviation iarray2 := (list (list Z)).

(** The arrays of a run live in a store, one component per element type;
    a reference is an index into its component.  The references handed to
    the code are live; reading a dead one yields the empty array. *)
Abbreviation loc := nat (only parsing).

Record store := {
  farrays : list array2;
  barrays : list barray2;
  iarrays : list iarray2
}.

(** Computations that update the store and may raise. *)
Definition M (A : Type) := store -> store * result A.

Definition ret {A} (a : A) : M A := fun h => (h, Ok a).
Definition raise {A} (e : exn) : M A := fun h => (h, Raise e).
Definition bind {A B} (c : M A) (k : A -> M B) : M B :=
  fun h => match c h with
           | (h', Ok a) => k a h'
           | (h', Raise e) => (h', Raise e)
           end.

#[export] Instance M_ret : MRet M := @ret.
#[export] Instance M_bind : MBind M := fun A B k c => bind c k.

Definition rd (l : loc) : M array2 :=
  fun h => (h, Ok (default [] (farrays h !! l))).
Definition rdb (l : loc) : M barray2 :=
  fun h => (h, Ok (default [] (barrays h !! l))).
Definition rdi (l : loc) : M iarray2 :=
  fun h => (h, Ok (default [] (iarrays h !! l))).

(** A new array object. *)
Definition new (a : array2) : M loc :=
  fun h => ({| farrays := farrays h ++ [a]; barrays := barrays h;
               iarrays := iarrays h |},
            Ok (length (farrays h))).
Definition newb (a : barray2) : M loc :=
  fun h => ({| farrays := farrays h; barrays := barrays h ++ [a];
               iarrays := iarrays h |},
            Ok (length (barrays h))).

(** An update of an array object in place. *)
Definition modify (l : loc) (f : array2 -> array2) : M unit :=
  fun h => ({| farrays := alter f l (farrays h); barrays := barrays h;
               iarrays := iarrays h |},
            Ok tt).

Fixpoint for_each {A} (l : list A) (body : A -> M unit) : M unit :=
  match l with
  | [] => ret tt
  | a :: rest => body a;; for_each rest body
  end.

(** Element-wise operations, indexing and slicing. *)
Definition map2 {A B C} (f : A -> B -> C) (a : list (list A))
    (b : list (list B)) : list (list C) :=
  zip_with (zip_with f) a b.

Definition get2 {A} (a : list (list A)) (j i : nat) : option A :=
  a !! j ≫= (fun row => row !! i).

(** [a[j, i] = v] *)
Definition set2 (j i : nat) (v : float) (a : array2) : array2 :=
  alter (fun row => <[i := v]> row) j a.

(** [a[y0:y1, x0:x1]] *)
Definition slice2 {A} (y0 y1 x0 x1 : nat) (a : list (list A))
    : list (list A) :=
  map (fun row => take (x1 - x0) (drop x0 row)) (take (y1 - y0) (drop y0 a)).

(** [a[good]] for a boolean array [good] of the shape of [a]. *)
Definition select (a : array2) (good : barray2) : array1 :=
  concat (zip_with
            (fun row grow =>
               omap (fun o => o) (zip_with (fun v (g : bool) =>
                                    if g then Some v else None) row grow))
            a good).

(** [m.nonzero()]: the indices of the true elements, in row-major order. *)
Definition nonzero (m : barray2) : list (nat * nat) :=
  concat (imap (fun j row =>
                  omap (fun o => o) (imap (fun i (b : bool) =>
                                   if b then Some (j, i) else None) row))
               m).

Definition shape_eqb (s1 s2 : nat * nat) : bool :=
  (fst s1 =? fst s2)%nat && (snd s1 =? snd s2)%nat.

(** The [background] and [gain] arguments: a scalar or a 2-D array. *)
Inductive scalar_or_array :=
| Scalar (v : float)
| Array (l : loc).

Definition _subtract_background (data : loc) (background : scalar_or_array)
    : M (loc * loc) :=
  d ← rd data;
  bkgrd_image ←
    match background with
    | Scalar v => new (map (map (fun z => fadd z v))
                           (map (map (fun _ => Fin 0)) d))
    | Array b =>
        ba ← rd b;
        if negb (shape_eqb (shape2 ba) (shape2 d))
        then raise (ValueError
               "If input background is 2D, then it must have the same shape as the input data.")
        else ret b
    end;
  bi ← rd bkgrd_image;
  diff ← new (map2 fsub d bi);
  ret (diff, bkgrd_image).

Definition _apply_gain (data variance : loc) (gain : scalar_or_array)
    : M loc :=
  d ← rd data;
  g ← match gain with
       | Scalar v => ret (map (map (fun _ => v)) d)
       | Array l => rd l
       end;
  if negb (shape_eqb (shape2 g) (shape2 d))
  then raise (ValueError
         "If input gain is 2D, then it must have the same shape as the input data.")
  else if existsb (existsb (fun x => fleb x (Fin 0))) g
  then raise (ValueError "gain must be positive everywhere")
  else
    v ← rd variance;
    new (map2 fadd v (map2 fdiv d g)).

(** The body of the [interpolate] loop for one array: the masked pixel
    [(j, i)] becomes the mean of the unmasked pixels of its 3x3 box. *)
Definition interpolate_pixel (mask : barray2) (ny nx : nat) (j i : nat)
    (a : array2) : array2 :=
  let y0 := Nat.max (j - 1) 0 in
  let y1 := Nat.min (j + 2) ny in
  let x0 := Nat.max (i - 1) 0 in
  let x1 := Nat.min (i + 2) nx in
  let goodpix := map (map negb) (slice2 y0 y1 x0 x1 mask) in
  set2 j i (mean1 (select (slice2 y0 y1 x0 x1 a) goodpix)) a.

Definition on_some (o : option loc) (f : loc -> M unit) : M unit :=
  match o with
  | Some l => f l
  | None => ret tt
  end.

Definition _apply_mask (data mask : loc) (mask_method : string)
    (variance background : option loc)
    : M (loc * option loc * option loc) :=
  d ← rd data;
  m ← rdb mask;
  if negb (shape_eqb (shape2 d) (shape2 m))
  then raise (ValueError "data and mask must have the same shape")
  else
    (* do not modify input data *)
    data ← new d;
    let mask_idx := nonzero m in
    (if String.eqb mask_method "exclude" then
       (* excluded masked pixels will not contribute to sums *)
       for_each mask_idx (fun '(j, i) => modify data (set2 j i (Fin 0)));;
       on_some background (fun b =>
         for_each mask_idx (fun '(j, i) => modify b (set2 j i (Fin 0))));;
       on_some variance (fun v =>
         for_each mask_idx (fun '(j, i) => modify v (set2 j i (Fin 0))))
     else if String.eqb mask_method "interpolate" then
       let '(ny, nx) := shape2 d in
       for_each mask_idx (fun '(j, i) =>
         modify data (interpolate_pixel m ny nx j i);;
         on_some background (fun b =>
           modify b (interpolate_pixel m ny nx j i));;
         on_some variance (fun v =>
           modify v (interpolate_pixel m ny nx j i)))
     else
       raise (ValueError "mask_method is not valid"));;
    ret (data, variance, background).

Definition _prepare_data (data : loc) (error : option loc)
    (gain : option scalar_or_array) (mask : option loc)
    (mask_method : string) (background : option scalar_or_array)
    : M (loc * option loc * option loc) :=
  '(data, background) ←
    match background with
    | Some bg =>
        '(d, b) ← _subtract_background data bg; ret (d, Some b)
    | None => ret (data, None)
    end;
  variance ←
    match error with
    | Some e =>
        d ← rd data;
        ea ← rd e;
        if negb (shape_eqb (shape2 d) (shape2 ea))
        then raise (ValueError "data and error must have the same shape")
        else
          variance ← new (map2 fmul ea ea);
          match gain with
          | Some g => v ← _apply_gain data variance g; ret (Some v)
          | None => ret (Some variance)
          end
    | None => ret None
    end;
  match mask with
  | Some m => _apply_mask data m mask_method variance background
  | None => ret (data, variance, background)
  end.

(** A pair [(slice(y0, y1), slice(x0, x1))]. *)
Definition slices := ((nat * nat) * (nat * nat))%type.

Definition cut {A} (sl : slices) (a : list (list A)) : list (list A) :=
  let '((y0, y1), (x0, x1)) := sl in slice2 y0 y1 x0 x1 a.

(** [scipy.ndimage.find_objects]: for each label from 1 to the largest
    one, the minimal box around the pixels that carry it, or [None] when
    no pixel does. *)
Definition label_positions (seg : iarray2) (label : Z) : list (nat * nat) :=
  nonzero (map (map (Z.eqb label)) seg).

Definition bounding_box (ps : list (nat * nat)) : option slices :=
  match ps with
  | [] => None
  | (j, i) :: rest =>
      Some (foldl (fun '((y0, y1), (x0, x1)) '(j, i) =>
                     ((Nat.min y0 j, Nat.max y1 (S j)),
                      (Nat.min x0 i, Nat.max x1 (S i))))
                  ((j, S j), (i, S i)) rest)
  end.

Definition max_label (seg : iarray2) : Z := foldr Z.max 0%Z (concat seg).

Definition find_objects (seg : iarray2) : list (option slices) :=
  map (fun k => bounding_box (label_positions seg (Z.of_nat (S k))))
      (seq 0 (Z.to_nat (max_label seg))).

(** *** [SegmentProperties] *)

Record SegmentProperties := {
  _inputimage : loc;
  _segment_image : loc;
  _image : loc;
  _variance : option loc;
  _background : option loc;
  label : Z;
  _slice : slices;
  _mask : option loc
}.

Definition lift {A} (r : result A) : M A := fun h => (h, r).

(** No pixel of the segmentation image carries the label. *)
Definition label_absent (seg : iarray2) (label : Z) : bool :=
  forallb (forallb (fun v => negb (v =? label)%Z)) seg.

(** Some element of the gain, as [_apply_gain] sees it, is not positive. *)
Definition gain_not_positive (h : store) (data : loc)
    (gain : scalar_or_array) : Prop :=
  match gain with
  | Scalar v =>
      fleb v (Fin 0) = true /\
      is_Some (get2 (default [] (farrays h !! data)) 0 0)
  | Array g =>
      exists ga, farrays h !! g = Some ga /\
                 existsb (existsb (fun x => fleb x (Fin 0))) ga = true
  end.

Definition __init__ (data segment_image : loc) (label : Z)
    (label_slice : option slices) (error : option loc)
    (gain : option scalar_or_array) (mask : option loc)
    (mask_method : string) (background : option scalar_or_array)
    : M SegmentProperties :=
  seg ← rdi segment_image;
  d ← rd data;
  if negb (shape_eqb (shape2 seg) (shape2 d))
  then raise (ValueError "segment_image and data must have the same shape")
  else if (label =? 0)%Z
  then raise (ValueError "label 0 is reserved for the background")
  else if (label <? 0)%Z
  then raise (ValueError "label must be a positive integer")
  else
    '(image, variance, background) ←
      _prepare_data data error gain mask mask_method background;
    sl ← match label_slice with
         | Some sl => ret sl
         | None =>
             let label_slices := find_objects seg in
             o ← lift (getitem label_slices (label - 1));
             match o with
             | None => raise (ValueError
                          "label is not in the input segment_image")
             | Some sl => ret sl
             end
         end;
    msk ← (if String.eqb mask_method "interpolate"
           then
             (* interpolated masked pixels are used like unmasked pixels,
                so no further masking is needed *)
             img ← rd image;
             m ← newb (map (map (fun _ => false)) img);
             ret (Some m)
           else
             (* excluded masked pixels still need the mask *)
             ret mask);
    ret {| _inputimage := data; _segment_image := segment_image;
           _image := image; _variance := variance;
           _background := background; label := label; _slice := sl;
           _mask := msk |}.

Fixpoint collect {A B} (l : list A) (f : A -> M (option B)) : M (list B) :=
  match l with
  | [] => ret []
  | a :: rest =>
      o ← f a;
      bs ← collect rest f;
      ret (match o with Some b => b :: bs | None => bs end)
  end.

(** [segment_properties]; [labels = None] selects every positive label
    of the segmentation image. *)
Definition segment_properties (data segment_image : loc)
    (error : option loc) (gain : option scalar_or_array)
    (mask : option loc) (mask_method : string)
    (background : option scalar_or_array) (labels : option (list Z))
    : M (list SegmentProperties) :=
  seg ← rdi segment_image;
  d ← rd data;
  if negb (shape_eqb (shape2 seg) (shape2 d))
  then raise (ValueError "segment_image and data must have the same shape")
  else
    let label_ids :=
      match labels with
      | None => filter (fun z => (0 < z)%Z) (concat seg)
      | Some ls => ls
      end in
    let label_slices := find_objects seg in
    collect (imap (fun i label_slice => (i, label_slice)) label_slices)
      (fun '(i, label_slice) =>
         let label := Z.of_nat (i + 1) in
         match label_slice with
         | Some sl =>
             if bool_decide (label ∈ label_ids)
             then
               segm_props ← __init__ data segment_image label (Some sl)
                              error gain mask mask_method background;
               ret (Some segm_props)
             else ret None
         | None => ret None
         end).

(** *** The shape properties of a segment *)

Section Properties.
Variable h : store.
Variable self : SegmentProperties.

Definition fa (l : loc) : array2 := default [] (farrays h !! l).
Definition ba (l : loc) : barray2 := default [] (barrays h !! l).
Definition ia (l : loc) : iarray2 := default [] (iarrays h !! l).

Definition _in_segment : barray2 :=
  map (map (fun v => (v =? label self)%Z))
      (cut (_slice self) (ia (_segment_image self))).

Definition _local_mask : barray2 :=
  match _mask self with
  | None => map (map negb) _in_segment
  | Some m =>
      map2 orb (map (map negb) _in_segment) (cut (_slice self) (ba m))
  end.

Definition data_cutout : array2 :=
  cut (_slice self) (fa (_inputimage self)).

Definition of_bool (b : bool) : float := if b then Fin 1 else Fin 0.

Definition _data_cutout_maskzeroed_double : array2 :=
  map2 (fun v (b : bool) => fmul v (of_bool (negb b)))
       data_cutout _local_mask.

Definition values : array1 :=
  select data_cutout (map (map negb) _local_mask).

Definition segment_sum : float :=
  sum1 (select (cut (_slice self) (fa (_image self)))
               (map (map negb) _local_mask)).
End Properties.

Fixpoint fpow (x : float) (n : nat) : float :=
  match n with
  | O => Fin 1
  | S k => fmul x (fpow x k)
  end.

(** [skimage.measure.moments_central(image, cr, cc, order)[p, q]]: the sum
    over the pixels of [image[r, c] * (r - cr)**q * (c - cc)**p]. *)
Definition moments_central_pq (image : array2) (cr cc : float) (p q : nat)
    : float :=
  sum1 (concat
    (imap (fun r row =>
             imap (fun c v =>
                     fmul (fmul v (fpow (fsub (of_nat r) cr) q))
                          (fpow (fsub (of_nat c) cc) p))
                  row)
          image)).

(** [skimage.measure.moments(image, order)[p, q]] *)
Definition moments_pq (image : array2) (p q : nat) : float :=
  moments_central_pq image (Fin 0) (Fin 0) p q.

Section Shape.
Variable h : store.
Variable self : SegmentProperties.

Definition moments (p q : nat) : float :=
  moments_pq (_data_cutout_maskzeroed_double h self) p q.

Definition local_centroid : float * float :=
  let ycentroid := fdiv (moments 0 1) (moments 0 0) in
  let xcentroid := fdiv (moments 1 0) (moments 0 0) in
  (ycentroid, xcentroid).

Definition moments_central (p q : nat) : float :=
  let '(ycentroid, xcentroid) := local_centroid in
  moments_central_pq (_data_cutout_maskzeroed_double h self)
                     ycentroid xcentroid p q.

(** The matrix [[m20, m11], [m11, m02]] as [(m20, m11, m02)]. *)
Definition covariance : float * float * float :=
  let m p q := fdiv (moments_central p q) (moments_central 0 0) in
  (m 2%nat 0%nat, m 1%nat 1%nat, m 0%nat 2%nat).
End Shape.

(** *** What a computation may change

    [frame n P h h']: from [h] to [h'] arrays are only added, the float
    arrays below [n] that are not in [P] keep their contents, and no
    boolean or integer array changes.  [triple n P c Q]: run from a store
    of at least [n] float arrays, [c] respects the frame, and a returned
    value satisfies [Q]. *)

Definition frame (n : nat) (P : loc -> Prop) (h h' : store) : Prop :=
  (length (farrays h) <= length (farrays h'))%nat /\
  (forall l, (l < n)%nat -> ~ P l -> farrays h' !! l = farrays h !! l) /\
  (exists ext, barrays h' = barrays h ++ ext) /\
  iarrays h' = iarrays h.

(** A reference the code may write through: a fresh array or one of [P]. *)
Definition writable (n : nat) (P : loc -> Prop) (l : loc) : Prop :=
  (n <= l)%nat \/ P l.

Definition triple {A} (n : nat) (P : loc -> Prop) (c : M A)
    (Q : A -> Prop) : Prop :=
  forall h h' r, (n <= length (farrays h))%nat -> c h = (h', r) ->
    frame n P h h' /\ match r with Ok a => Q a | Raise _ => True end.

(** *** Eigenvalues and eccentricity

    Square roots leave the rationals: from the covariance matrix on, the
    quantities are real numbers, defined for a covariance of finite
    entries. *)

Import Reals Qreals.

Definition to_R (x : float) : option R :=
  match x with
  | Fin q => Some (Q2R q)
  | _ => None
  end.

Definition covariance_R (h : store) (self : SegmentProperties)
    : option (R * R * R) :=
  let '(m20, m11, m02) := covariance h self in
  match to_R m20, to_R m11, to_R m02 with
  | Some a, Some b, Some c => Some (a, b, c)
  | _, _, _ => None
  end.

Section Eigenvalues.
(** [np.linalg.eigvals] on the matrix [[a, b], [b, c]], given as
    [(a, b, c)]: the two values that LAPACK computes for it. *)
Variable eigvals : R * R * R -> R * R.

(** The rounding of float64: an operation returns the float that stands
    for its exact result. *)
Variable rnd : R -> R.

Definition covariance_eigvals (cov : R * R * R) : R * R :=
  let '(e1, e2) := eigvals cov in
  (Rmax e1 e2, Rmin e1 e2).

Definition eccentricity (cov : R * R * R) : R :=
  let '(l1, l2) := covariance_eigvals cov in
  if Req_dec_T l1 0 then 0%R
  else rnd (sqrt (rnd (1 - rnd (l2 / l1))))%R.
End Eigenvalues.

(** The eigenvalues of the real symmetric matrix [[a, b], [b, c]] in
    exact arithmetic: the two roots of its characteristic polynomial. *)
Definition symmetric_eigvals (cov : R * R * R) : R * R :=
  let '(a, b, c) := cov in
  let d := sqrt ((a - c) * (a - c) + 4 * b * b)%R in
  ((a + c + d) / 2, (a + c - d) / 2)%R.

End Segmentation.

(** ** Example inputs *)

Module Examples.
Import NP Segmentation.

(** Grids of 4 by 4 pixels, the smallest the default cubic interpolator
    takes: of ones, of zeros, and one whose values cancel. *)
Definition ones4 : array2 := repeat (repeat (Fin 1) 4) 4.
Definition zeros4 : array2 := repeat (repeat (Fin 0) 4) 4.
Definition cancelling4 : array2 :=
  [Fin 2; Fin (-2); Fin 0; Fin 0] :: repeat (repeat (Fin 0) 4) 3.

(** A region of two equal pixels side by side. *)
Definition row_store : store :=
  {| farrays := [ [[Fin 1; Fin 1]] ];
     barrays := [];
     iarrays := [ [[1; 1]]%Z ] |}.

(** A region whose two pixels are both masked out. *)
Definition hidden_store : store :=
  {| farrays := [ [[Fin 1; Fin 2]] ];
     barrays := [ [[true; true]] ];
     iarrays := [ [[1; 1]]%Z ] |}.

Definition hidden_segment : SegmentProperties :=
  {| _inputimage := 0; _segment_image := 0; _image := 0;
     _variance := None; _background := None; label := 1;
     _slice := ((0, 1), (0, 2))%nat; _mask := Some 0%nat |}.

(** A region with a NaN pixel. *)
Definition nan_store : store :=
  {| farrays := [ [[Fin 1; NaN]] ];
     barrays := [];
     iarrays := [ [[1; 1]]%Z ] |}.

(** A 2x2 image with one region, a mask over its first pixel and a
    background image. *)
Definition masked_store : store :=
  {| farrays := [ [[Fin 1; Fin 2]; [Fin 3; Fin 4]];
                  [[Fin 5; Fin 1]; [Fin 1; Fin 1]] ];
     barrays := [ [[true; false]; [false; false]] ];
     iarrays := [ [[1; 1]; [1; 1]]%Z ] |}.

(** An image and a label map of different shapes. *)
Definition mismatched_store : store :=
  {| farrays := [ [[Fin 1; Fin 2]] ];
     barrays := [];
     iarrays := [ [[1]]%Z ] |}.

Definition row_segment : SegmentProperties :=
  {| _inputimage := 0; _segment_image := 0; _image := 0;
     _variance := None; _background := None; label := 1;
     _slice := ((0, 1), (0, 2))%nat; _mask := None |}.

End Examples.

(** ** Statistics of a segment ([photutils/segmentation.py]) *)

Module SegmentStatistics.
Import NP Segmentation.

(** [np.min] and [np.max]: a NaN among the values gives NaN, and an empty
    array has no minimum or maximum. *)
Definition fmin (x y : float) : float :=
  if isnan x || isnan y then NaN else if fltb y x then y else x.

Definition fmax (x y : float) : float :=
  if isnan x || isnan y then NaN else if fltb x y then y else x.

Definition np_min (a : array1) : result float :=
  match a with
  | [] => Raise (ValueError
            "zero-size array to reduction operation minimum which has no identity")
  | x :: rest => Ok (foldl fmin x rest)
  end.

Definition np_max (a : array1) : result float :=
  match a with
  | [] => Raise (ValueError
            "zero-size array to reduction operation maximum which has no identity")
  | x :: rest => Ok (foldl fmax x rest)
  end.

Section Region.
Variable h : store.
Variable self : SegmentProperties.

Definition area : nat := length (values h self).

Definition min_value : result float := np_min (values h self).

Definition max_value : result float := np_max (values h self).

(** [np.argwhere(self.data_cutout_ma == v)]: the positions, in row-major
    order, of the pixels of the cutout that are not masked and equal
    [v]. *)
Definition argwhere_equal (v : float) : list (nat * nat) :=
  nonzero (map2 (fun x (b : bool) => negb b && feqb x v)
                (data_cutout h self) (_local_mask h self)).

Definition minval_local_pos : result (nat * nat) :=
  rbind min_value (fun v => getitem (argwhere_equal v) 0).

Definition maxval_local_pos : result (nat * nat) :=
  rbind max_value (fun v => getitem (argwhere_equal v) 0).

Definition minval_pos : result (nat * nat) :=
  rbind minval_local_pos (fun '(yp, xp) =>
    Ok (yp + fst (fst (_slice self)), xp + fst (snd (_slice self)))%nat).

Definition maxval_pos : result (nat * nat) :=
  rbind maxval_local_pos (fun '(yp, xp) =>
    Ok (yp + fst (fst (_slice self)), xp + fst (snd (_slice self)))%nat).

(** [(ymin, xmin, ymax, xmax)] *)
Definition bbox : Z * Z * Z * Z :=
  let '((y0, y1), (x0, x1)) := _slice self in
  (Z.of_nat y0, Z.of_nat x0, Z.of_nat y1 - 1, Z.of_nat x1 - 1)%Z.

(** [(ycentroid, xcentroid)] in the coordinates of the image. *)
Definition centroid : float * float :=
  let '(ycen, xcen) := local_centroid h self in
  (fadd ycen (of_nat (fst (fst (_slice self)))),
   fadd xcen (of_nat (fst (snd (_slice self))))).
End Region.

End SegmentStatistics.

(** ** [properties_table] ([photutils/segmentation.py]) *)

Module PropertiesTable.

Definition columns_all : list string :=
  ["id"; "xcentroid"; "ycentroid"; "segment_sum";
   "segment_sum_err"; "background_sum"; "background_mean";
   "background_atcentroid"; "xmin"; "xmax"; "ymin"; "ymax";
   "min_value"; "max_value"; "minval_xpos"; "minval_ypos";
   "maxval_xpos"; "maxval_ypos"; "area"; "equivalent_radius";
   "perimeter"; "semimajor_axis_sigma";
   "semiminor_axis_sigma"; "eccentricity"; "orientation";
   "se_ellipticity"; "se_elongation"; "se_x2"; "se_xy";
   "se_y2"; "se_cxx"; "se_cxy"; "se_cyy"]%string.

(** A test that the names of a list are distinct. *)
Fixpoint distinct (names : list string) : bool :=
  match names with
  | [] => true
  | n :: rest => negb (existsb (String.eqb n) rest) && distinct rest
  end.

(** The names of the columns of the table, from the two options. *)
Definition select_columns (columns exclude_columns : option (list string))
    : list string :=
  let table_columns : option (list string) := None in
  let table_columns :=
    match exclude_columns with
    | Some ex => Some (filter (fun s => s ∉ ex) columns_all)
    | None => table_columns
    end in
  let table_columns :=
    match columns with
    | Some cs => Some cs
    | None => table_columns
    end in
  match table_columns with
  | None => columns_all
  | Some cs => cs
  end.

Section Table.
(** The objects of the rows and the values of their attributes;
    [getattr] fails for a name that is not an attribute, and
    [is_quantity] tells the values that carry a unit. *)
Variable props : Type.
Variable value : Type.
Variable getattr : props -> string -> result value.
Variable is_quantity : value -> bool.

Inductive column :=
| Plain (vals : list value)
| Quantity (vals : list value).

Definition column_values (c : column) : list value :=
  match c with Plain vs => vs | Quantity vs => vs end.

(** An [astropy.table.Table]: its columns in order; the assignment
    [table[name] = values] replaces the column of that name where it
    stands, or adds a new last column. *)
Fixpoint setitem (t : list (string * column)) (name : string) (c : column)
    : list (string * column) :=
  match t with
  | [] => [(name, c)]
  | (n, c0) :: rest =>
      if String.eqb n name then (n, c) :: rest
      else (n, c0) :: setitem rest name c
  end.

Fixpoint fill (segment_props : list props) (table_columns : list string)
    (props_table : list (string * column))
    : result (list (string * column)) :=
  match table_columns with
  | [] => Ok props_table
  | column :: rest =>
      rbind (sequence (map (fun p => getattr p column) segment_props))
        (fun values =>
      rbind (getitem values 0) (fun first =>
        let values := if is_quantity first then Quantity values
                      else Plain values in
        fill segment_props rest (setitem props_table column values)))
  end.

Definition properties_table (segment_props : list props)
    (columns exclude_columns : option (list string))
    : result (list (string * column)) :=
  fill segment_props (select_columns columns exclude_columns) [].
End Table.

End PropertiesTable.

(** ** Further code of [photutils/psf/models.py] *)

Module IntegratedGaussianPRF.
Import PrimFloat SpecFloat FloatOps.

(** What [bounding_box] does is decided by overflow and by the special
    values: its parameters are IEEE binary64 numbers here, with the
    arithmetic of the machine. *)
Record t := {
  flux : float;
  x_0 : float;
  y_0 : float;
  sigma : float
}.

(** A NaN or an infinity. *)
Definition special (x : spec_float) : bool :=
  match x with
  | S754_nan | S754_infinity _ => true
  | _ => false
  end.

(** [np.isfinite] *)
Definition isfinite (x : float) : bool := negb (special (Prim2SF x)).

(** [int(v)] of a float: the value cut toward zero, an integer of any
    size. *)
Definition int_of_float (v : float) : result Z :=
  match Prim2SF v with
  | S754_zero _ => Ok 0%Z
  | S754_finite sign m e =>
      let a := if (0 <=? e)%Z then (Z.pos m * 2 ^ e)%Z
               else Z.quot (Z.pos m) (2 ^ (- e)) in
      Ok (if sign then (- a)%Z else a)
  | S754_nan => Raise (ValueError "cannot convert float NaN to integer")
  | S754_infinity _ =>
      Raise (OverflowError "cannot convert float infinity to integer")
  end.

Definition bounding_box (self : t) : result ((Z * Z) * (Z * Z)) :=
  let halfwidth := (4 * sigma self)%float in
  rbind (int_of_float (y_0 self - halfwidth)%float) (fun ylo =>
  rbind (int_of_float (y_0 self + halfwidth)%float) (fun yhi =>
  rbind (int_of_float (x_0 self - halfwidth)%float) (fun xlo =>
  rbind (int_of_float (x_0 self + halfwidth)%float) (fun xhi =>
    Ok ((ylo, yhi), (xlo, xhi)))))).

End IntegratedGaussianPRF.

Module GroupedPSF.
Import NP.

(** A model is a single model with its named parameters, or the sum of
    two models. *)
Inductive model :=
| Single (params : gmap string float)
| Sum (m1 m2 : model).

(** A row of the table of stars. *)
Record star := {
  flux_0 : float;
  x_0 : float;
  y_0 : float
}.

(** The single models a model is the sum of, from left to right. *)
Fixpoint components (m : model) : list (gmap string float) :=
  match m with
  | Single ps => [ps]
  | Sum m1 m2 => components m1 ++ components m2
  end.

(** The copy of the template for one star. *)
Definition psf_to_add (template_psf_model : gmap string float) (row : star)
    : gmap string float :=
  <["y_0" := y_0 row]>
    (<["x_0" := x_0 row]> (<["flux" := flux_0 row]> template_psf_model)).

(** The loop runs over the rows of the table, from the first to the
    last. *)
Definition get_grouped_psf_model (template_psf_model : gmap string float)
    (star_group : list star) : option model :=
  foldl (fun group_psf row =>
           match group_psf with
           | None =>
               (* this is the first one only *)
               Some (Single (psf_to_add template_psf_model row))
           | Some g =>
               Some (Sum g (Single (psf_to_add template_psf_model row)))
           end)
        None star_group.

End GroupedPSF.

(** * Properties *)

(** ** Arithmetic of the float model *)

Section FloatFacts.
Import NP.
Local Open Scope Q_scope.

Lemma Qminus_0_r_eq (a : Q) : a - 0 = a.
Proof.
  destruct a as [n d]. unfold Qminus, Qplus, Qopp. simpl.
  f_equal; [lia | apply Pos.mul_1_r].
Qed.

Lemma fsub_0_r (x : float) : fsub x (Fin 0) = x.
Proof. destruct x; simpl; try reflexivity. now rewrite Qminus_0_r_eq. Qed.

Lemma Qis0_false (q : Q) : Qis0 q = false <-> ~ q == 0.
Proof.
  unfold Qis0, Qeq. simpl. rewrite Z.eqb_neq. split; intros H E; apply H; lia.
Qed.

Lemma feqb_zero_false (q : Q) : feqb (Fin q) (Fin 0) = false -> ~ q == 0.
Proof.
  simpl. intros H E. apply Qeq_bool_iff in E. congruence.
Qed.

Lemma finite_val (x : float) : isfinite x = true -> x = Fin (val x).
Proof. destruct x; simpl; congruence. Qed.

Lemma sum1_finite (l : array1) :
  all_finite1 l = true -> isfinite (sum1 l) = true.
Proof.
  induction l as [|x l IH]; simpl; [reflexivity|].
  intros H. apply andb_prop in H as [Hx Hl]. specialize (IH Hl).
  apply finite_val in Hx, IH. fold (sum1 l). rewrite Hx, IH. reflexivity.
Qed.

Lemma sum1_div (l : array1) (t : Q) :
  all_finite1 l = true -> ~ t == 0 ->
  all_finite1 (map (fun v => fdiv v (Fin t)) l) = true /\
  val (sum1 (map (fun v => fdiv v (Fin t)) l)) == val (sum1 l) / t.
Proof.
  intros Hl Ht. assert (Hz : Qis0 t = false) by now apply Qis0_false.
  induction l as [|x l IH]; simpl.
  - split; [reflexivity|]. now field.
  - simpl in Hl. apply andb_prop in Hl as [Hx Hl].
    destruct (IH Hl) as [IH1 IH2]. clear IH.
    pose proof (sum1_finite _ Hl) as F1. pose proof (sum1_finite _ IH1) as F2.
    apply finite_val in Hx, F1, F2. fold (sum1 l).
    fold (sum1 (map (fun v => fdiv v (Fin t)) l)).
    rewrite Hx. simpl. rewrite Hz. simpl. split; [exact IH1|].
    rewrite F1, F2. simpl. rewrite IH2. now field.
Qed.

Lemma sum1_scale (l : array1) (f : Q) :
  all_finite1 l = true ->
  all_finite1 (map (fmul (Fin f)) l) = true /\
  val (sum1 (map (fmul (Fin f)) l)) == f * val (sum1 l).
Proof.
  intros Hl.
  induction l as [|x l IH]; simpl.
  - split; [reflexivity|]. ring.
  - simpl in Hl. apply andb_prop in Hl as [Hx Hl].
    destruct (IH Hl) as [IH1 IH2]. clear IH.
    pose proof (sum1_finite _ Hl) as F1. pose proof (sum1_finite _ IH1) as F2.
    apply finite_val in Hx, F1, F2. fold (sum1 l).
    fold (sum1 (map (fmul (Fin f)) l)).
    rewrite Hx. simpl. split; [exact IH1|].
    rewrite F1, F2. simpl. rewrite IH2. ring.
Qed.

Lemma all_finite_concat (a : array2) :
  all_finite2 a = true -> all_finite1 (concat a) = true.
Proof.
  induction a as [|r a IH]; simpl; [reflexivity|].
  intros H. apply andb_prop in H as [Hr Ha].
  unfold all_finite1 in *. rewrite forallb_app, Hr. simpl. now apply IH.
Qed.

Lemma concat_map_map {A B} (g : A -> B) (a : list (list A)) :
  concat (map (map g) a) = map g (concat a).
Proof.
  induction a as [|r a IH]; simpl; [reflexivity|].
  now rewrite map_app, IH.
Qed.

(** Dividing a finite grid by its nonzero sum makes it sum to 1. *)
Lemma sum2_normalized (a : array2) :
  all_finite2 a = true -> ~ val (sum2 a) == 0 ->
  all_finite1 (concat (div2 a (sum2 a))) = true /\
  val (sum2 (div2 a (sum2 a))) == 1.
Proof.
  intros Ha Hs. pose proof (all_finite_concat _ Ha) as Hc.
  pose proof (sum1_finite _ Hc) as F. fold (sum2 a) in F.
  pose proof (sum1_div (concat a)) as D. fold (sum2 a) in D.
  destruct (sum2 a) as [t| | |]; try discriminate. simpl in Hs.
  destruct (D t Hc Hs) as [H1 H2]. simpl in H2.
  unfold sum2, div2. rewrite concat_map_map.
  split; [exact H1|]. rewrite H2. now field.
Qed.
End FloatFacts.

(** ** The grid interpolated model *)

Section Discrete2DModelFacts.
Import NP Discrete2DModel.

Lemma init_fields data flux0 x0 y0 origin weights fillval kwargs m :
  __init__ data flux0 x0 y0 origin weights fillval kwargs = Ok m ->
  _ndata m = div2 data (tflux_of data) /\
  flux m = match flux0 with None => tflux_of data | Some f => f end.
Proof.
  unfold __init__. fold (tflux_of data).
  destruct (shape2 data) as [ny nx].
  destruct (match origin with Some o => o | None => _ end) as [ox oy].
  destruct (compute_interpolator nx ny _ kwargs) as [sp|e]; simpl;
    [|discriminate].
  intros E. inversion E; subst; simpl. split; reflexivity.
Qed.

(** X1: With a sum that is zero or not finite the normalization flux is 1:
    the grid is stored divided by 1, and it is the default of the flux
    parameter. *)
Lemma init_degenerate_sum data flux0 x0 y0 origin weights fillval kwargs m :
  feqb (sum2 data) (Fin 0) = true \/ isfinite (sum2 data) = false ->
  __init__ data flux0 x0 y0 origin weights fillval kwargs = Ok m ->
  _ndata m = div2 data (Fin 1) /\
  flux m = match flux0 with None => Fin 1 | Some f => f end.
Proof.
  intros Hdeg Hinit. apply init_fields in Hinit as [Hnd Hfl].
  assert (Ht : tflux_of data = Fin 1).
  { unfold tflux_of. destruct Hdeg as [-> | ->]; [reflexivity|].
    now rewrite orb_true_r. }
  now rewrite Ht in Hnd, Hfl.
Qed.

Lemma nonneg2_all_finite (a : array2) :
  nonneg2 a = true -> all_finite2 a = true.
Proof.
  unfold nonneg2, all_finite2, nonneg1, all_finite1.
  rewrite !forallb_forall. intros H row Hrow. specialize (H row Hrow).
  rewrite forallb_forall in *. intros v Hv.
  now destruct (andb_prop _ _ (H v Hv)).
Qed.

Lemma tiny_pos : (0 < tiny)%Q.
Proof. reflexivity. Qed.

Lemma moderate_finite (x : float) : moderate x = true -> isfinite x = true.
Proof. now destruct x. Qed.

Lemma moderate_nonzero (x : float) :
  moderate x = true -> feqb x (Fin 0) = false.
Proof.
  destruct x as [q| | |]; try discriminate. cbn [moderate feqb].
  intros H. apply andb_prop in H as [H _]. apply Qle_bool_iff in H.
  destruct (Qeq_bool q 0) eqn:E; [|reflexivity].
  apply Qeq_bool_iff in E. rewrite E in H. exfalso.
  pose proof tiny_pos as T. change (Qabs 0) with 0%Q in H.
  exact (Qlt_not_le _ _ T H).
Qed.

Lemma zero_or_moderate_finite (x : float) :
  zero_or_moderate x = true -> isfinite x = true.
Proof. now destruct x. Qed.

Lemma fadd_not_finite (x y : float) :
  isfinite x = false \/ isfinite y = false -> isfinite (fadd x y) = false.
Proof. destruct x, y; cbn; intros [H|H]; congruence. Qed.

Lemma sum1_not_finite (l : array1) :
  all_finite1 l = false -> isfinite (sum1 l) = false.
Proof.
  induction l as [|x l IH]; cbn; [discriminate|]. intros H.
  apply fadd_not_finite. apply andb_false_iff in H as [H|H];
    [now left | right; now apply IH].
Qed.

Lemma sum2_not_finite (a : array2) :
  all_finite2 a = false -> isfinite (sum2 a) = false.
Proof.
  intros H. apply sum1_not_finite.
  induction a as [|r a IH]; cbn in *; [discriminate|].
  unfold all_finite1 in *. rewrite forallb_app.
  apply andb_false_iff in H as [H|H]; [now rewrite H|].
  rewrite (IH H). apply andb_false_r.
Qed.

Lemma sum2_all_zero (a : array2) :
  forallb (forallb (fun v => feqb v (Fin 0))) a = true ->
  feqb (sum2 a) (Fin 0) = true.
Proof.
  intros H. unfold sum2.
  assert (Hc : forallb (fun v => feqb v (Fin 0)) (concat a) = true).
  { induction a as [|r a IH]; cbn in *; [reflexivity|].
    apply andb_prop in H as [Hr Ha]. rewrite forallb_app, Hr. now apply IH. }
  clear H. induction (concat a) as [|x l IH]; cbn in *; [reflexivity|].
  apply andb_prop in Hc as [Hx Hl]. specialize (IH Hl).
  fold (sum1 l). destruct x as [q| | |]; try discriminate.
  destruct (sum1 l) as [t| | |]; try discriminate. cbn in *.
  apply Qeq_bool_iff in Hx, IH. apply Qeq_bool_iff. rewrite Hx, IH.
  reflexivity.
Qed.

(** C1 (as amended): a constructed model falls under one of two cases.
    For a grid of finite values that are not negative and whose sum is of
    moderate magnitude, the stored grid sums to 1 and the [data] array,
    the flux times the stored grid, sums to the flux parameter: at
    construction and for every value, zero or of moderate magnitude, the
    parameter is set to afterwards.  For a grid that holds a NaN or an
    infinity, or only zeros, the sum is not finite or is zero and the
    normalization flux is 1: the grid is stored divided by 1, the flux
    parameter defaults to 1, and [data] is the flux times that grid,
    element by element. *)
Theorem C1_data_sums_to_flux data flux0 x0 y0 origin weights fillval
    kwargs m :
  __init__ data flux0 x0 y0 origin weights fillval kwargs = Ok m ->
  (nonneg2 data = true -> moderate (sum2 data) = true ->
   match flux0 with
   | Some f => zero_or_moderate f = true
   | None => True
   end ->
   feq (sum2 (ndata m)) (Fin 1) /\
   feq (sum2 (Discrete2DModel.data m)) (flux m) /\
   forall f, zero_or_moderate f = true ->
             feq (sum2 (Discrete2DModel.data (set_flux m f))) f)
  /\ (all_finite2 data = false
      \/ forallb (forallb (fun v => feqb v (Fin 0))) data = true ->
      _ndata m = div2 data (Fin 1) /\
      flux m = match flux0 with None => Fin 1 | Some f => f end /\
      Discrete2DModel.data m = scale2 (flux m) (div2 data (Fin 1))).
Proof.
  intros Hinit. apply init_fields in Hinit as [Hnd Hfl]. split.
  - intros Hnn Hmod Hflux.
    pose proof (nonneg2_all_finite _ Hnn) as Hfin.
    pose proof (moderate_nonzero _ Hmod) as Hnz.
    pose proof (moderate_finite _ Hmod) as Fs.
    assert (Ht : tflux_of data = sum2 data).
    { unfold tflux_of. now rewrite Hnz, Fs. }
    rewrite Ht in Hnd, Hfl.
    assert (Hs : ~ (val (sum2 data) == 0)%Q).
    { destruct (sum2 data) as [q| | |]; try discriminate.
      now apply feqb_zero_false. }
    destruct (sum2_normalized data Hfin Hs) as [N1 N2].
    rewrite <- Hnd in N1, N2.
    assert (Scale : forall f : Q,
               feq (sum2 (scale2 (Fin f) (_ndata m))) (Fin f)).
    { intros f. unfold sum2, scale2. rewrite concat_map_map.
      destruct (sum1_scale (concat (_ndata m)) f N1) as [S1 S2].
      pose proof (sum1_finite _ S1) as S3.
      destruct (sum1 (map (fmul (Fin f)) (concat (_ndata m))))
        as [q| | |]; try discriminate.
      simpl in *. rewrite S2. fold (sum2 (_ndata m)). rewrite N2. ring. }
    split; [|split].
    + unfold ndata. pose proof (sum1_finite _ N1) as N3.
      fold (sum2 (_ndata m)) in N3.
      destruct (sum2 (_ndata m)); try discriminate. exact N2.
    + unfold Discrete2DModel.data. rewrite Hfl.
      destruct flux0 as [f|].
      * apply zero_or_moderate_finite in Hflux.
        destruct f; try discriminate. apply Scale.
      * destruct (sum2 data) as [q| | |]; try discriminate. apply Scale.
    + intros f Hf. apply zero_or_moderate_finite in Hf.
      destruct f; try discriminate. apply Scale.
  - intros Hdeg.
    assert (Ht : tflux_of data = Fin 1).
    { unfold tflux_of. destruct Hdeg as [H | H].
      - rewrite (sum2_not_finite _ H). now rewrite orb_true_r.
      - now rewrite (sum2_all_zero _ H). }
    rewrite Ht in Hnd, Hfl. unfold Discrete2DModel.data.
    now rewrite Hnd.
Qed.

Lemma C1_data_sums_to_flux_witness :
  match __init__ Examples.ones4 None (Fin 0) (Fin 0) None None
                 (Some (Fin 0)) ∅ with
  | Ok m => feq (sum2 (ndata m)) (Fin 1) /\
            feq (sum2 (Discrete2DModel.data m)) (flux m) /\
            feq (sum2 (Discrete2DModel.data (set_flux m (Fin 7)))) (Fin 7)
  | Raise _ => False
  end
  /\ match __init__ Examples.zeros4 None (Fin 0) (Fin 0) None None
                    (Some (Fin 0)) ∅ with
     | Ok m => _ndata m = div2 Examples.zeros4 (Fin 1) /\ flux m = Fin 1
     | Raise _ => False
     end.
Proof.
  split.
  - destruct (__init__ Examples.ones4 None (Fin 0) (Fin 0) None None
                       (Some (Fin 0)) ∅) as [m|e] eqn:E.
    + destruct (proj1 (C1_data_sums_to_flux Examples.ones4 None (Fin 0)
                         (Fin 0) None None (Some (Fin 0)) ∅ m E)
                      eq_refl eq_refl I)
        as (H1 & H2 & H3).
      split; [exact H1 | split; [exact H2 | exact (H3 (Fin 7) eq_refl)]].
    + vm_compute in E. discriminate E.
  - destruct (__init__ Examples.zeros4 None (Fin 0) (Fin 0) None None
                       (Some (Fin 0)) ∅) as [m|e] eqn:E.
    + destruct (proj2 (C1_data_sums_to_flux Examples.zeros4 None (Fin 0)
                         (Fin 0) None None (Some (Fin 0)) ∅ m E)
                      (or_intror eq_refl))
        as (H1 & H2 & _).
      split; [exact H1 | exact H2].
    + vm_compute in E. discriminate E.
Defined.

(** C1, counterexample: a grid of 4 by 4 zeros is accepted and stored
    unscaled; with the flux 5 its [data] array sums to 0, not to 5, and
    the stored grid does not sum to 1. *)
Lemma C1_counterexample :
  match __init__ Examples.zeros4 (Some (Fin 5)) (Fin 0) (Fin 0) None None
                 (Some (Fin 0)) ∅ with
  | Ok m => flux m = Fin 5 /\
            ~ feq (sum2 (Discrete2DModel.data m)) (flux m) /\
            ~ feq (sum2 (ndata m)) (Fin 1)
  | Raise _ => False
  end.
Proof.
  vm_compute. split; [reflexivity|]. split; intros H; discriminate H.
Qed.

(** C5: [recenter] folds the shift parameters into the origin and resets
    them to zero; evaluating the model at the same coordinates gives the
    same output before and after. *)
Theorem C5_recenter_preserves_evaluate
    (ev : RectBivariateSpline -> float -> float -> float)
    (m : t) (x y : array1) :
  call ev (recenter m) x y = call ev m x y /\
  x_0 (recenter m) = Fin 0 /\ y_0 (recenter m) = Fin 0 /\
  _ox (recenter m) = fsub (_ox m) (x_0 m) /\
  _oy (recenter m) = fsub (_oy m) (y_0 m).
Proof.
  repeat split. unfold call, evaluate, recenter. simpl.
  now rewrite !fsub_0_r.
Qed.
End Discrete2DModelFacts.

(** ** The lookup PRF *)

Section LoopFacts.
Context {A : Type}.

Lemma foldl_pointwise {B X} (f g : B -> X -> B) (xs : list X) (b : B) :
  (forall b x, f b x = g b x) -> foldl f b xs = foldl g b xs.
Proof.
  intros E. revert b. induction xs as [|x xs IH]; intros b; simpl;
    [reflexivity|]. now rewrite E, IH.
Qed.

(** A loop that updates each index of a list in turn is a [map]. *)
Lemma foldl_alter_seq (f : A -> A) (pre r : list A) :
  foldl (fun acc j => alter f j acc) (pre ++ r)
        (seq (length pre) (length r)) = pre ++ map f r.
Proof.
  revert pre. induction r as [|x r IH]; intros pre; [reflexivity|].
  simpl.
  replace (alter f (length pre) (pre ++ x :: r))
    with ((pre ++ [f x]) ++ r).
  - replace (S (length pre)) with (length (pre ++ [f x])).
    + rewrite IH, <- app_assoc. reflexivity.
    + rewrite length_app. simpl. lia.
  - pose proof (alter_app_r f pre (x :: r) 0) as H.
    rewrite Nat.add_0_r in H. rewrite H, <- app_assoc. reflexivity.
Qed.

Lemma foldl_alter_all (f : A -> A) (r : list A) :
  foldl (fun acc j => alter f j acc) r (seq 0 (length r)) = map f r.
Proof. exact (foldl_alter_seq f [] r). Qed.

(** A loop that keeps updating one index updates it once with the
    loop. *)
Lemma foldl_alter_at {X} (g : X -> A -> A) (i : nat) (xs : list X)
    (c : list A) :
  foldl (fun acc x => alter (g x) i acc) c xs
  = alter (fun a => foldl (fun b x => g x b) a xs) i c.
Proof.
  revert c. induction xs as [|x xs IH]; intros c; simpl.
  - symmetry. now apply list_alter_id.
  - rewrite IH, list_alter_alter_eq. reflexivity.
Qed.
End LoopFacts.

Section DiscretePRFFacts.
Import NP DiscretePRF.

(** An in-place loop over an array of the store is the loop over the
    array, written back. *)
Lemma foldl_in_place {X} (l : loc) (F : X -> array4 -> array4)
    (G : X -> store -> store) :
  (forall x h c, h !! l = Some (A4 c) -> G x h = <[l := A4 (F x c)]> h) ->
  forall xs h c, h !! l = Some (A4 c) ->
    foldl (fun h x => G x h) h xs
    = <[l := A4 (foldl (fun c x => F x c) c xs)]> h.
Proof.
  intros HG xs. induction xs as [|x xs IH]; intros h c Hl; simpl.
  - symmetry. now apply list_insert_id.
  - rewrite (HG x h c Hl).
    rewrite (IH _ (F x c)).
    + now rewrite list_insert_insert_eq.
    + apply list_lookup_insert_eq. eapply lookup_lt_Some, Hl.
Qed.

Lemma normalize_loops_spec (l : loc) (h : store) (c : array4) :
  h !! l = Some (A4 c) ->
  rectangular c = true ->
  normalize_loops l (fst (shape4_01 c)) (snd (shape4_01 c)) h
  = <[l := A4 (normalized c)]> h.
Proof.
  intros Hl Hrect. unfold normalize_loops.
  set (f := fun sl : array2 => div2 sl (sum2 sl)).
  set (n1 := snd (shape4_01 c)) in *.
  rewrite (foldl_in_place l
             (fun i c => foldl (fun c j => alter (alter f j) i c) c
                               (seq 0 n1))
             _) with (c := c); [|clear h Hl; intros i h c' Hl|exact Hl].
  - f_equal. f_equal.
    rewrite (foldl_pointwise _
               (fun c0 i => alter (fun row =>
                    foldl (fun r j => alter f j r) row (seq 0 n1)) i c0)).
    2:{ intros c0 i. apply foldl_alter_at. }
    unfold shape4_01, shape2. cbn [fst].
    etransitivity; [exact (foldl_alter_all _ c)|]. unfold normalized.
    apply map_ext_in. intros row Hin.
    unfold rectangular in Hrect. rewrite forallb_forall in Hrect.
    specialize (Hrect row Hin). apply Nat.eqb_eq in Hrect.
    fold n1 in Hrect. rewrite <- Hrect. apply foldl_alter_all.
  - apply (foldl_in_place l (fun j c => alter (alter f j) i c)
                          (fun j h => idiv_slice l i j h)); [|exact Hl].
    clear. intros j h c Hl. unfold idiv_slice. now rewrite Hl.
Qed.

Lemma init_cube (l : loc) (h : store) (c : array4) (nz : bool) (sub : Z) :
  h !! l = Some (A4 c) ->
  __init__ l nz sub h =
  if negb ((Z.of_nat (fst (shape4_01 c)) =? sub)%Z
           && (Z.of_nat (snd (shape4_01 c)) =? sub)%Z)
  then (h, Raise (TypeError "Incompatible subsampling and array size"))
  else if any_isnan c
  then (h, Raise (Exception "Array contains NaN values. Can't create PRF."))
  else (if nz
        then normalize_loops l (fst (shape4_01 c)) (snd (shape4_01 c)) h
        else h,
        Ok {| _prf_array := l; subsampling := sub;
              flux := Fin 1; x_0 := Fin 0; y_0 := Fin 0 |}).
Proof.
  intros Hl. unfold __init__. rewrite Hl.
  destruct (sub =? 1)%Z; destruct (shape4_01 c) as [s0 s1]; reflexivity.
Qed.

Lemma lookup_map {A B} (f : A -> B) (l : list A) (i : nat) :
  map f l !! i = f <$> (l !! i).
Proof. exact (list_lookup_fmap f l i). Qed.

Lemma slice_at_normalized (c : array4) (i j : nat) :
  slice_at (normalized c) i j
  = (fun sl => div2 sl (sum2 sl)) <$> slice_at c i j.
Proof.
  unfold slice_at, normalized. rewrite lookup_map.
  destruct (c !! i) as [row|]; simpl; [|reflexivity].
  apply lookup_map.
Qed.

Lemma sum2_normalized_feq (a : array2) :
  all_finite2 a = true -> feqb (sum2 a) (Fin 0) = false ->
  feq (sum2 (div2 a (sum2 a))) (Fin 1).
Proof.
  intros Ha Hz.
  assert (Hs : ~ (val (sum2 a) == 0)%Q).
  { pose proof (sum1_finite _ (all_finite_concat _ Ha)) as F.
    fold (sum2 a) in F.
    destruct (sum2 a); try discriminate. now apply feqb_zero_false. }
  destruct (sum2_normalized a Ha Hs) as [N1 N2].
  pose proof (sum1_finite _ N1) as N3.
  fold (sum2 (div2 a (sum2 a))) in N3.
  destruct (sum2 (div2 a (sum2 a))); try discriminate. exact N2.
Qed.

Lemma init_normalizes_in_place
    (l : loc) (h h' : store) (c : array4) (sub : Z) (m : t) :
  h !! l = Some (A4 c) ->
  rectangular c = true ->
  __init__ l true sub h = (h', Ok m) ->
  _prf_array m = l /\ h' = <[l := A4 (normalized c)]> h /\
  h' !! l = Some (A4 (normalized c)).
Proof.
  intros Hl Hrect Hinit. rewrite (init_cube l h c true sub Hl) in Hinit.
  destruct (negb _); [discriminate|].
  destruct (any_isnan c); [discriminate|].
  rewrite (normalize_loops_spec l h c Hl Hrect) in Hinit.
  inversion Hinit; subst; clear Hinit. simpl.
  repeat split. apply list_lookup_insert_eq. eapply lookup_lt_Some, Hl.
Qed.

Lemma foldl_lookup_other {X} (G : X -> store -> store) (l' : loc) :
  (forall x h, G x h !! l' = h !! l') ->
  forall xs h, foldl (fun h x => G x h) h xs !! l' = h !! l'.
Proof.
  intros HG xs. induction xs as [|x xs IH]; intros h; cbn; [reflexivity|].
  now rewrite IH, HG.
Qed.

Lemma idiv_slice_other (l l' : loc) (i j : nat) (h : store) :
  l' <> l -> idiv_slice l i j h !! l' = h !! l'.
Proof.
  intros Hne. unfold idiv_slice.
  destruct (h !! l) as [[a|c|k]|]; try reflexivity.
  apply list_lookup_insert_ne. congruence.
Qed.

Lemma normalize_loops_other (l l' : loc) (n0 n1 : nat) (h : store) :
  l' <> l -> normalize_loops l n0 n1 h !! l' = h !! l'.
Proof.
  intros Hne. unfold normalize_loops.
  apply (foldl_lookup_other
           (fun i h => foldl (fun h j => idiv_slice l i j h) h (seq 0 n1))).
  intros i h0. apply (foldl_lookup_other (fun j h => idiv_slice l i j h)).
  intros j h1. now apply idiv_slice_other.
Qed.

(** X2: A 2-D image given with subsampling 1 is wrapped into a new array:
    the caller's image is left as it was. *)
Lemma init_2d_copies (l : loc) (h h' : store) (img : array2) (nz : bool)
    (r : result t) :
  h !! l = Some (A2 img) ->
  __init__ l nz 1 h = (h', r) ->
  h' !! l = Some (A2 img).
Proof.
  intros Hl. unfold __init__. rewrite Hl. cbn.
  assert (Hlt : l < length h) by (eapply lookup_lt_Some, Hl).
  assert (Happ : (h ++ [A4 [[img]]]) !! l = Some (A2 img))
    by now apply lookup_app_l_Some.
  destruct (existsb _ img || false || false); intros E; inversion E; subst;
    try exact Happ.
  destruct nz; [|exact Happ].
  rewrite idiv_slice_other by lia. exact Happ.
Qed.

(** C10 (as amended): with [normalize=True] the constructor rescales a
    caller's 4-D array in place: the model keeps a reference to that very
    array, no copy is made, and after construction each [(i, j)] slice of
    the caller's array is the former slice divided by its own sum.  A 2-D
    image, which is taken with subsampling 1, is wrapped into a new 4-D
    array first: that array is the one rescaled and kept, and the
    caller's image stays as it was. *)
Theorem C10_normalize_mutates_caller_array
    (l : loc) (h h' : store) (sub : Z) (m : t) :
  __init__ l true sub h = (h', Ok m) ->
  (forall c, h !! l = Some (A4 c) -> rectangular c = true ->
     _prf_array m = l /\
     length h' = length h /\
     h' !! l = Some (A4 (normalized c)) /\
     forall i j, slice_at (cube_of h' m) i j
                 = (fun sl => div2 sl (sum2 sl)) <$> slice_at c i j)
  /\ (forall img, h !! l = Some (A2 img) ->
        sub = 1%Z /\
        h' !! l = Some (A2 img) /\
        _prf_array m = length h /\
        length h' = S (length h) /\
        cube_of h' m = [[div2 img (sum2 img)]]).
Proof.
  intros Hinit. split.
  - intros c Hl Hrect.
    destruct (init_normalizes_in_place l h h' c sub m Hl Hrect Hinit)
      as (Hm & Hh & Hl').
    repeat split; try assumption.
    + rewrite Hh. apply length_insert.
    + intros i j. unfold cube_of. rewrite Hm, Hl'.
      apply slice_at_normalized.
  - intros img Hl. unfold __init__ in Hinit. rewrite Hl in Hinit.
    destruct (sub =? 1)%Z eqn:Hsub; [|discriminate].
    apply Z.eqb_eq in Hsub. split; [exact Hsub|].
    unfold alloc in Hinit. cbv beta iota zeta in Hinit.
    assert (Hlt : l < length h) by (eapply lookup_lt_Some, Hl).
    destruct (shape4_01 [[img]]) as [s0 s1] eqn:Hsh.
    destruct (negb _); [discriminate|].
    destruct (any_isnan _); [discriminate|].
    injection Hinit as <- <-. cbn [_prf_array].
    assert (Hs : s0 = 1%nat /\ s1 = 1%nat) by (now inversion Hsh).
    destruct Hs as [-> ->].
    assert (Hsn : forall x : ndarray, (h ++ [x]) !! length h = Some x)
      by (intros x; now apply list_lookup_middle).
    assert (Hn : normalize_loops (length h) 1 1 (h ++ [A4 [[img]]])
                 = h ++ [A4 [[div2 img (sum2 img)]]]).
    { unfold normalize_loops. cbn [seq foldl]. unfold idiv_slice.
      rewrite Hsn. cbn [alter list_alter].
      rewrite <- (Nat.add_0_r (length h)) at 1.
      rewrite insert_app_r. reflexivity. }
    rewrite Hn. repeat split.
    + now apply lookup_app_l_Some.
    + rewrite length_app. cbn. lia.
    + unfold cube_of. cbn [_prf_array]. now rewrite Hsn.
Qed.

Lemma C10_normalize_mutates_caller_array_witness :
  [A4 [[[[Fin (1 / (1 + (3 + 0))); Fin (3 / (1 + (3 + 0)))]]]]] !! 0%nat
  = Some (A4 (normalized [[[[Fin 1; Fin 3]]]])).
Proof.
  refine (proj1 (proj2 (proj2
    (proj1 (C10_normalize_mutates_caller_array 0
              [A4 [[[[Fin 1; Fin 3]]]]] _ 1 _ _)
           [[[[Fin 1; Fin 3]]]] _ _)))).
  - reflexivity.
  - reflexivity.
  - reflexivity.
Defined.

(** C10, counterexample: a 2-D image passed with [normalize=True] is not
    rescaled: after construction the caller's array still holds 1 and 3,
    and the rescaled values are in the array the constructor made. *)
Lemma C10_counterexample :
  match __init__ 0 true 1 [A2 [[Fin 1; Fin 3]]] with
  | (h', Ok m) =>
      h' !! 0%nat = Some (A2 [[Fin 1; Fin 3]]) /\
      _prf_array m = 1%nat /\
      match slice_at (cube_of h' m) 0 0 with
      | Some sl => feq1 (concat sl) [Fin (1 # 4); Fin (3 # 4)]
      | None => False
      end
  | (_, Raise _) => False
  end.
Proof.
  vm_compute. split; [reflexivity|]. split; [reflexivity|].
  repeat constructor.
Qed.

(** C8 (as amended): a cube that contains a NaN is refused; a cube of
    the configured subsampling without NaN is accepted; and with
    normalization every slice of the stored cube whose values are finite
    and not negative, with a sum of moderate magnitude, sums to 1. *)
Theorem C8_nan_refused_slices_sum_to_one
    (l : loc) (h : store) (c : array4) (sub : Z) :
  h !! l = Some (A4 c) ->
  (forall nz, any_isnan c = true -> raises (snd (__init__ l nz sub h))) /\
  (forall nz, Z.of_nat (fst (shape4_01 c)) = sub ->
              Z.of_nat (snd (shape4_01 c)) = sub ->
              any_isnan c = false ->
              exists m, snd (__init__ l nz sub h) = Ok m) /\
  (rectangular c = true ->
   forall h' m, __init__ l true sub h = (h', Ok m) ->
   forall i j sl0 sl,
     slice_at c i j = Some sl0 ->
     nonneg2 sl0 = true -> moderate (sum2 sl0) = true ->
     slice_at (cube_of h' m) i j = Some sl ->
     feq (sum2 sl) (Fin 1)).
Proof.
  intros Hl. split; [|split].
  - intros nz Hnan. rewrite (init_cube l h c nz sub Hl).
    destruct (negb _); [exact I|]. rewrite Hnan. exact I.
  - intros nz H0 H1 Hnan. rewrite (init_cube l h c nz sub Hl).
    rewrite H0, H1, Z.eqb_refl, Hnan. simpl. eauto.
  - intros Hrect h' m Hinit i j sl0 sl Hsl0 Hnn Hmod Hsl.
    destruct (init_normalizes_in_place l h h' c sub m Hl Hrect Hinit)
      as (Hm & Hh & Hl').
    unfold cube_of in Hsl. rewrite Hm, Hl' in Hsl.
    rewrite slice_at_normalized, Hsl0 in Hsl. simpl in Hsl.
    inversion Hsl; subst. apply sum2_normalized_feq.
    + now apply nonneg2_all_finite.
    + now apply moderate_nonzero.
Qed.

Lemma C8_nan_refused_slices_sum_to_one_witness :
  raises (snd (__init__ 0 true 1 [A4 [[[[Fin 1; NaN]]]]])) /\
  (exists m, snd (__init__ 0 true 1 [A4 [[[[Fin 1; Fin 3]]]]]) = Ok m) /\
  feq (sum2 [[Fin (1 / (1 + (3 + 0))); Fin (3 / (1 + (3 + 0)))]]) (Fin 1).
Proof.
  split; [|split].
  - refine (proj1 (C8_nan_refused_slices_sum_to_one
                     0 [A4 [[[[Fin 1; NaN]]]]] [[[[Fin 1; NaN]]]] 1 _)
                  true _); reflexivity.
  - refine (proj1 (proj2 (C8_nan_refused_slices_sum_to_one
                     0 [A4 [[[[Fin 1; Fin 3]]]]] [[[[Fin 1; Fin 3]]]] 1 _))
                  true _ _ _); reflexivity.
  - refine (proj2 (proj2 (C8_nan_refused_slices_sum_to_one
                     0 [A4 [[[[Fin 1; Fin 3]]]]] [[[[Fin 1; Fin 3]]]] 1 _))
                  _ _ _ _ 0%nat 0%nat [[Fin 1; Fin 3]] _ _ _ _ _);
      reflexivity.
Defined.

(** C8, counterexample: a slice of zeros is accepted, and dividing it by
    its sum leaves NaN in the stored cube, not a slice that sums to 1. *)
Lemma C8_counterexample :
  match __init__ 0 true 1 [A4 [[[[Fin 0; Fin 0]]]]] with
  | (h', Ok m) =>
      match slice_at (cube_of h' m) 0 0 with
      | Some sl => sl = [[NaN; NaN]] /\ ~ feq (sum2 sl) (Fin 1)
      | None => False
      end
  | (_, Raise _) => False
  end.
Proof. vm_compute. split; [reflexivity | intros H; exact H]. Qed.

(** Where truncation and floor part: strictly between -1 and 0 the
    truncation is 0, an index inside the image, and the floor is -1. *)
Lemma trunc_above_floor (q : Q) :
  (-1 < q)%Q -> (q < 0)%Q -> Qtrunc q = 0%Z /\ Qfloor q = (-1)%Z.
Proof.
  destruct q as [a d]. unfold Qlt, Qtrunc, Qfloor. cbn. intros H1 H2.
  split.
  - rewrite <- (Z.opp_involutive a), Z.quot_opp_l by lia.
    rewrite Z.quot_small by lia. reflexivity.
  - symmetry. apply (Z.div_unique a (Z.pos d) (-1) (a + Z.pos d)); lia.
Qed.

Lemma to_index_truncates (size : nat) (x_0 x : Q) :
  let z := Qtrunc (x - x_0 + 0.5 + inject_Z (Z.of_nat size / 2)) in
  (- 2 ^ 63 <= z < 2 ^ 63)%Z ->
  to_index size (Fin x_0) [Fin x] = [z].
Proof.
  intros z Hz. unfold to_index. cbn [map fsub fadd of_Z astype_int].
  fold z. destruct (Z.leb_spec (- 2 ^ 63) z), (Z.ltb_spec z (2 ^ 63));
    cbn [andb]; (reflexivity || lia).
Qed.

(** C3: the index of a sample is the truncation toward zero of
    [x - x_0 + 0.5 + size // 2], not its floor.  For a one-pixel PRF
    centred at 0.9 the sample at pixel 0 has floor index -1, outside
    the image, yet it is given the value of the pixel of index 0
    times the flux, as the sample at pixel 1 is. *)
Theorem C3_index_truncates_toward_zero :
  match __init__ 0 true 1 [A4 [[[[Fin 1]]]]] with
  | (h, Ok m) =>
      match evaluate h m [Fin 0; Fin 1] [Fin 0; Fin 0]
                     (Fin 7) (Fin 0.9) (Fin 0) with
      | Ok out => feq1 out [Fin 7; Fin 7]
      | Raise _ => False
      end
      /\ prf_shape h m = (1, 1)%nat
      /\ to_index 1 (Fin 0.9) [Fin 0] = [0%Z]
  | (_, Raise _) => False
  end
  /\ Qfloor (0 - 0.9 + 0.5 + inject_Z (1 / 2)) = (-1)%Z.
Proof.
  split; [|reflexivity]. vm_compute.
  split; [|split; reflexivity].
  repeat constructor.
Qed.
End DiscretePRFFacts.

(** ** Interpolator configuration and the PSF adapter *)

Section ConfigurationFacts.
Import NP.

(** C6: with a degree pair [(degx, degy)] a negative degree on either
    axis is refused, but the spline is built with [degx] on both axes:
    [degy] is validated and then not used, neither for the spline nor
    for what scipy checks before it builds one. *)
Theorem C6_degree_of_y_axis_not_used
    (nx ny : nat) (ndata : array2) (degx degy : Z) :
  Discrete2DModel.compute_interpolator nx ny ndata
    (<["degree" := PyTuple [PyInt degx; PyInt degy]]> ∅)
  = if ((degx <? 0) || (degy <? 0))%Z
    then Raise (ValueError
                  "Interpolator degree must be a non-negative integer")
    else if Discrete2DModel.spline_accepts (arange nx) (arange ny)
              degx degx (PyInt 0)
    then Ok {| Discrete2DModel.sp_x := arange nx;
               Discrete2DModel.sp_y := arange ny;
               Discrete2DModel.sp_z := transpose nx ndata;
               Discrete2DModel.kx := degx;
               Discrete2DModel.ky := degx;
               Discrete2DModel.s := PyInt 0 |}
    else Raise (Exception "RectBivariateSpline: invalid input").
Proof.
  unfold Discrete2DModel.compute_interpolator, Discrete2DModel.degrees.
  rewrite lookup_insert_eq. simpl.
  destruct ((degx <? 0) || (degy <? 0))%Z; simpl; [reflexivity|].
  rewrite lookup_insert_ne by discriminate. rewrite lookup_empty.
  reflexivity.
Qed.

(** C7: with [fluxname] given, [evaluate] does not set the wrapped
    model's flux parameter: the scaled flux is written to the parameter
    named [yname], over the y position written just before, and the
    integral is returned without external scaling. *)
Theorem C7_flux_written_to_yname
    (dblquad : PRFAdapter.model -> float -> float -> float -> float -> float)
    (psfmodel : PRFAdapter.model) (renormalize_psf : bool)
    (flux0 x00 y00 : float) (x y : array1) (flux x_0 y_0 : float) :
  let self := PRFAdapter.__init__ dblquad psfmodel renormalize_psf
                flux0 x00 y00 (Some "x_0") (Some "y_0") (Some "flux") in
  let '(self', out) := PRFAdapter.evaluate dblquad self x y flux x_0 y_0 in
  PRFAdapter.psfmodel self' !! "flux" = psfmodel !! "flux" /\
  PRFAdapter.psfmodel self' !! "y_0"
    = Some (fmul flux (PRFAdapter._psf_scale_factor self)) /\
  PRFAdapter.psfmodel self' !! "x_0" = Some x_0 /\
  out = Ok (PRFAdapter._integrated_psfmodel dblquad self' x y).
Proof.
  simpl. repeat split.
  - now rewrite !lookup_insert_ne by discriminate.
  - now rewrite lookup_insert_eq.
  - rewrite !lookup_insert_ne by discriminate. now rewrite lookup_insert_eq.
Qed.
End ConfigurationFacts.

(** ** Shape of a segment *)

Section ShapeFacts.
Import Reals Qreals.
Import NP Segmentation Examples.
Local Open Scope R_scope.

Lemma discriminant_nonneg (a b c : R) :
  0 <= (a - c) * (a - c) + 4 * b * b.
Proof.
  pose proof (Rle_0_sqr (a - c)) as H1. pose proof (Rle_0_sqr b) as H2.
  unfold Rsqr in *. lra.
Qed.

Lemma eigvals_ordered (cov : R * R * R) :
  snd (symmetric_eigvals cov) <= fst (symmetric_eigvals cov).
Proof.
  destruct cov as [[a b] c]. simpl.
  pose proof (sqrt_pos ((a - c) * (a - c) + 4 * b * b)). lra.
Qed.

Lemma covariance_eigvals_eq (cov : R * R * R) :
  covariance_eigvals symmetric_eigvals cov = symmetric_eigvals cov.
Proof.
  pose proof (eigvals_ordered cov) as H. unfold covariance_eigvals.
  destruct (symmetric_eigvals cov) as [e1 e2]. simpl in H.
  now rewrite Rmax_left, Rmin_right.
Qed.

Lemma eigvals_psd (a b c : R) :
  0 <= a -> 0 <= c -> b * b <= a * c ->
  0 <= snd (symmetric_eigvals (a, b, c)).
Proof.
  intros Ha Hc Hdet. simpl.
  pose proof (discriminant_nonneg a b c) as D.
  pose proof (sqrt_sqrt _ D) as S. pose proof (sqrt_pos _ : 0 <= sqrt
    ((a - c) * (a - c) + 4 * b * b)) as P.
  set (d := sqrt ((a - c) * (a - c) + 4 * b * b)) in *.
  nra.
Qed.

(** C9 (as amended): [covariance_eigvals] returns the larger of the two
    computed eigenvalues first.  When the smaller one is not negative,
    the eccentricity lies in the closed interval from 0 to 1; it is 0
    when the larger eigenvalue is 0, and it is 1 when only the smaller
    one is 0.  This holds for the eigenvalues as computed, whatever
    [np.linalg.eigvals] returns, and for every rounding that keeps the
    order of the numbers and leaves 0 and 1 as they are, as that of
    float64 does. *)
Theorem C9_eccentricity_range (eigvals : R * R * R -> R * R)
    (rnd : R -> R) (cov : R * R * R) :
  (forall x y, x <= y -> rnd x <= rnd y) -> rnd 0 = 0 -> rnd 1 = 1 ->
  let l1 := fst (covariance_eigvals eigvals cov) in
  let l2 := snd (covariance_eigvals eigvals cov) in
  l2 <= l1
  /\ (0 <= l2 ->
      0 <= eccentricity eigvals rnd cov <= 1
      /\ (l1 = 0 -> eccentricity eigvals rnd cov = 0)
      /\ (l1 <> 0 -> l2 = 0 -> eccentricity eigvals rnd cov = 1)).
Proof.
  intros Hmono H0 H1. cbv zeta. unfold eccentricity, covariance_eigvals.
  destruct (eigvals cov) as [e1 e2]. cbn [fst snd].
  pose proof (Rmin_l e1 e2) as M1. pose proof (Rmax_l e1 e2) as M2.
  set (l1 := Rmax e1 e2) in *. set (l2 := Rmin e1 e2) in *.
  assert (Ho : l2 <= l1) by lra.
  split; [exact Ho|]. intros H2.
  assert (Unit : forall x, 0 <= x <= 1 -> 0 <= rnd x <= 1).
  { intros x [Hx0 Hx1]. split.
    - rewrite <- H0. now apply Hmono.
    - rewrite <- H1. now apply Hmono. }
  destruct (Req_dec_T l1 0) as [E|N].
  - split; [lra|]. split; [reflexivity | intros N; now destruct N].
  - assert (P1 : 0 < l1) by lra.
    assert (Q0 : 0 <= l2 / l1).
    { apply Rmult_le_pos; [lra|]. left. now apply Rinv_0_lt_compat. }
    assert (Q1 : l2 / l1 <= 1).
    { apply (Rmult_le_reg_r l1); [lra|]. unfold Rdiv.
      rewrite Rmult_assoc, Rinv_l by lra. lra. }
    split; [|split].
    + apply Unit.
      pose proof (Unit (l2 / l1) (conj Q0 Q1)) as Uq.
      pose proof (Unit (1 - rnd (l2 / l1)) ltac:(lra)) as Ud.
      split; [apply sqrt_pos|].
      rewrite <- sqrt_1 at 2. apply sqrt_le_1_alt. lra.
    + intros E. now destruct N.
    + intros _ ->. unfold Rdiv. rewrite Rmult_0_l, H0, Rminus_0_r, H1.
      now rewrite sqrt_1.
Qed.

Lemma C9_eccentricity_range_witness :
  0 <= eccentricity symmetric_eigvals (fun x => x) (2, 1, 2) <= 1.
Proof.
  refine (proj1 (proj2 (C9_eccentricity_range symmetric_eigvals
                          (fun x => x) (2, 1, 2) _ _ _)
                       _)).
  - intros x y H. exact H.
  - reflexivity.
  - reflexivity.
  - rewrite covariance_eigvals_eq. apply eigvals_psd; lra.
Defined.

Lemma row_segment_init :
  __init__ 0 0 1 None None None None "exclude" None row_store
  = (row_store, Ok row_segment).
Proof. reflexivity. Qed.

Lemma row_segment_covariance :
  covariance_R row_store row_segment = Some (1 / 4, 0, 0).
Proof.
  unfold covariance_R.
  replace (covariance row_store row_segment)
    with (Fin (8 # 32), Fin (0 # 32), Fin (0 # 32)) by (vm_compute; reflexivity).
  simpl. unfold Q2R. simpl. repeat f_equal; lra.
Qed.

Lemma symmetric_eigvals_of_row : symmetric_eigvals (1 / 4, 0, 0) = (1 / 4, 0).
Proof.
  simpl.
  replace ((1 / 4 - 0) * (1 / 4 - 0) + 4 * 0 * 0) with ((1 / 4) * (1 / 4))
    by lra.
  rewrite sqrt_square by lra. f_equal; lra.
Qed.

(** Whatever the rounding, as long as it leaves 0 and 1 as they are. *)
Lemma eccentricity_of_row (rnd : R -> R) :
  rnd 0 = 0 -> rnd 1 = 1 ->
  eccentricity symmetric_eigvals rnd (1 / 4, 0, 0) = 1.
Proof.
  intros H0 H1. unfold eccentricity.
  rewrite covariance_eigvals_eq, symmetric_eigvals_of_row.
  destruct (Req_dec_T (1 / 4) 0) as [E|N]; [lra|].
  unfold Rdiv at 1. rewrite Rmult_0_l, H0, Rminus_0_r, H1.
  now rewrite sqrt_1.
Qed.

(** C9, counterexample: a region of two equal pixels side by side has
    the diagonal covariance matrix of entries 1/4 and 0, whose
    eigenvalues are 1/4 and 0, and its eccentricity is 1. *)
Lemma C9_counterexample :
  __init__ 0 0 1 None None None None "exclude" None row_store
  = (row_store, Ok row_segment) /\
  match covariance_R row_store row_segment with
  | Some cov =>
      symmetric_eigvals cov = (1 / 4, 0)
      /\ ~ (0 <= eccentricity symmetric_eigvals (fun x => x) cov < 1)
  | None => False
  end.
Proof.
  split; [exact row_segment_init|].
  rewrite row_segment_covariance, symmetric_eigvals_of_row.
  split; [reflexivity|].
  rewrite (eccentricity_of_row (fun x => x) eq_refl eq_refl). lra.
Qed.
End ShapeFacts.

(** ** Construction of segment properties *)

Section MonadFacts.
Import Segmentation.
Context {A B : Type}.

Lemma bind_unfold (c : M A) (k : A -> M B) (h : store) :
  (c ≫= k) h = match c h with
               | (h', Ok a) => k a h'
               | (h', Raise e) => (h', Raise e)
               end.
Proof. reflexivity. Qed.

Lemma bind_raises_l (c : M A) (k : A -> M B) (h : store) :
  raises (snd (c h)) -> raises (snd ((c ≫= k) h)).
Proof.
  rewrite bind_unfold. destruct (c h) as [h' [a|e]]; simpl; tauto.
Qed.

Lemma bind_raises_r (c : M A) (k : A -> M B) (h : store) :
  (forall a h', c h = (h', Ok a) -> raises (snd (k a h'))) ->
  raises (snd ((c ≫= k) h)).
Proof.
  intros H. rewrite bind_unfold.
  destruct (c h) as [h' [a|e]]; simpl; [now apply H | exact I].
Qed.
End MonadFacts.

(** Unfold the monad down to functions on the store. *)
Ltac run_monad :=
  unfold mbind, Segmentation.M_bind, Segmentation.bind, mret,
    Segmentation.M_ret, Segmentation.ret, Segmentation.raise,
    Segmentation.lift, Segmentation.rd, Segmentation.rdb, Segmentation.rdi,
    Segmentation.new, Segmentation.newb;
  cbn beta iota zeta delta [fst snd negb Segmentation.farrays
                            Segmentation.barrays Segmentation.iarrays].

Section ConstructionFacts.
Import NP Segmentation Examples.

Lemma apply_mask_invalid_method data m mask_method variance background h :
  mask_method <> "exclude" -> mask_method <> "interpolate" ->
  raises (snd (_apply_mask data m mask_method variance background h)).
Proof.
  intros H1 H2. apply String.eqb_neq in H1, H2.
  unfold _apply_mask. rewrite H1, H2. run_monad.
  destruct (shape_eqb _ _); exact I.
Qed.

Lemma prepare_data_invalid_method data error gain m mask_method background h :
  mask_method <> "exclude" -> mask_method <> "interpolate" ->
  raises (snd (_prepare_data data error gain (Some m) mask_method
                             background h)).
Proof.
  intros H1 H2. unfold _prepare_data.
  apply bind_raises_r. intros [d b] h1 _.
  apply bind_raises_r. intros v h2 _.
  now apply apply_mask_invalid_method.
Qed.

(** *** A gain that is not positive *)

Lemma shape2_map_map {X Y} (f : X -> Y) (a : list (list X)) :
  shape2 (map (map f) a) = shape2 a.
Proof.
  unfold shape2. rewrite length_map. destruct a as [|r a]; simpl;
    [reflexivity|]. now rewrite length_map.
Qed.

Lemma shape_eqb_refl (sh : nat * nat) : shape_eqb sh sh = true.
Proof. unfold shape_eqb. now rewrite !Nat.eqb_refl. Qed.

Lemma apply_gain_not_positive data variance gain h :
  gain_not_positive h data gain ->
  raises (snd (_apply_gain data variance gain h)).
Proof.
  unfold _apply_gain, gain_not_positive. run_monad.
  destruct gain as [v|g].
  - intros [Hv [x Hx]]. run_monad.
    rewrite shape2_map_map, shape_eqb_refl. cbn [negb].
    destruct (default [] (farrays h !! data)) as [|[|y r] rows];
      try discriminate.
    cbn [map existsb]. rewrite Hv. exact I.
  - intros (ga & Hg & Hex). run_monad. rewrite Hg. cbn [default from_option id].
    destruct (shape_eqb _ _); cbn [negb]; [|exact I].
    rewrite Hex. exact I.
Qed.

Lemma gain_not_positive_extend h h' data gain ext :
  farrays h' = farrays h ++ ext ->
  gain_not_positive h data gain -> gain_not_positive h' data gain.
Proof.
  intros E. unfold gain_not_positive. rewrite E.
  destruct gain as [v|g].
  - intros [Hv Hx]. split; [exact Hv|].
    destruct (farrays h !! data) as [d|] eqn:Hd.
    + now rewrite (lookup_app_l_Some _ _ _ _ Hd).
    + destruct Hx as [x Hx]. discriminate.
  - intros (ga & Hg & Hex). exists ga. split; [|exact Hex].
    now apply lookup_app_l_Some.
Qed.

Lemma lookup_snoc_length {X} (l : list X) (x : X) :
  (l ++ [x]) !! length l = Some x.
Proof. apply list_lookup_middle. reflexivity. Qed.

(** Subtracting the background only adds arrays to the store, and keeps
    the first pixel of the data in place. *)
Lemma subtract_background_extends data background h h1 d b :
  _subtract_background data background h = (h1, Ok (d, b)) ->
  (exists ext, farrays h1 = farrays h ++ ext) /\
  (is_Some (get2 (default [] (farrays h !! data)) 0 0) ->
   is_Some (get2 (default [] (farrays h1 !! d)) 0 0)).
Proof.
  unfold _subtract_background. run_monad.
  destruct background as [v|bl]; run_monad.
  - intros E. inversion E; subst; clear E. cbn [farrays]. split.
    + eexists. rewrite <- app_assoc. reflexivity.
    + rewrite !lookup_snoc_length. cbn [default from_option id].
      destruct (default [] (farrays h !! data)) as [|[|y r] rows];
        intros [x Hx]; try discriminate.
      cbn. eauto.
  - destruct (shape_eqb _ _) eqn:Hs; cbn [negb]; [|discriminate].
    intros E. inversion E; subst; clear E. cbn [farrays]. split.
    + eexists. reflexivity.
    + rewrite lookup_snoc_length. cbn [default from_option id].
      destruct (default [] (farrays h !! data)) as [|[|y r] rows];
        intros [x Hx]; try discriminate.
      destruct (default [] (farrays h !! b)) as [|[|w r'] rows'];
        unfold shape_eqb in Hs; cbn in Hs;
        rewrite ?andb_false_r in Hs; try discriminate.
      unfold get2, map2. cbn. eauto.
Qed.

Lemma prepare_data_gain_not_positive data e gain mask mask_method
    background h :
  gain_not_positive h data gain ->
  raises (snd (_prepare_data data (Some e) (Some gain) mask mask_method
                             background h)).
Proof.
  intros Hg. unfold _prepare_data.
  apply bind_raises_r. intros [d b] h1 E1.
  assert (Hg1 : gain_not_positive h1 d gain).
  { destruct background as [bg|].
    - rewrite bind_unfold in E1.
      destruct (_subtract_background data bg h) as [h' [[d' b']|ex]] eqn:Eb;
        [|discriminate].
      inversion E1; subst; clear E1.
      destruct (subtract_background_extends _ _ _ _ _ _ Eb)
        as [[ext Hext] Hpix].
      destruct gain as [v|g].
      + destruct Hg as [Hv Hx]. split; [exact Hv | now apply Hpix].
      + now apply (gain_not_positive_extend h h1 data (Array g) ext).
    - inversion E1; subst. exact Hg. }
  apply bind_raises_l. run_monad.
  destruct (shape_eqb _ _); cbn [negb]; [|exact I].
  match goal with
  | |- context [_apply_gain d ?v gain ?h2] =>
      pose proof (apply_gain_not_positive d v gain h2) as Hr
  end.
  match type of Hr with
  | ?P -> _ => assert (HP : P)
  end.
  { eapply gain_not_positive_extend; [|exact Hg1]. reflexivity. }
  specialize (Hr HP).
  destruct (_apply_gain _ _ _ _) as [h3 [v|ex]]; [destruct Hr | exact I].
Qed.

(** *** A label that no pixel carries *)

Lemma omap_imap_none {X Y} (f : nat -> X -> option Y) (l : list X) :
  (forall i x, In x l -> f i x = None) ->
  omap (fun o => o) (imap f l) = [].
Proof.
  revert f. induction l as [|x l IH]; intros f H; [reflexivity|].
  cbn. rewrite (H 0%nat x) by now left.
  apply IH. intros i y Hy. apply H. now right.
Qed.

Lemma concat_imap_nil {X Y} (g : nat -> X -> list Y) (l : list X) :
  (forall j x, In x l -> g j x = []) -> concat (imap g l) = [].
Proof.
  revert g. induction l as [|x l IH]; intros g H; [reflexivity|].
  cbn. rewrite (H 0%nat x) by now left.
  apply IH. intros i y Hy. apply H. now right.
Qed.

Lemma nonzero_all_false (m : barray2) :
  forallb (forallb negb) m = true -> nonzero m = [].
Proof.
  intros H. rewrite forallb_forall in H. unfold nonzero.
  apply concat_imap_nil. intros j row Hrow.
  apply omap_imap_none. intros i b Hb.
  specialize (H row Hrow). rewrite forallb_forall in H.
  specialize (H b Hb). now destruct b.
Qed.

Lemma label_positions_absent (seg : iarray2) (label : Z) :
  label_absent seg label = true -> label_positions seg label = [].
Proof.
  intros H. unfold label_positions. apply nonzero_all_false.
  unfold label_absent in H. rewrite forallb_forall in *.
  intros brow Hb. apply in_map_iff in Hb as (row & <- & Hrow).
  specialize (H row Hrow). rewrite forallb_forall in *.
  intros b Hb. apply in_map_iff in Hb as (v & <- & Hv).
  specialize (H v Hv). now rewrite Z.eqb_sym.
Qed.

Lemma find_objects_absent (seg : iarray2) (label : Z) :
  (0 < label)%Z -> label_absent seg label = true ->
  getitem (find_objects seg) (label - 1) = Ok None \/
  raises (getitem (find_objects seg) (label - 1)).
Proof.
  intros Hpos Habs. unfold getitem.
  destruct (label - 1 <? 0)%Z eqn:E; [apply Z.ltb_lt in E; lia|].
  rewrite E.
  destruct (find_objects seg !! Z.to_nat (label - 1)) as [o|] eqn:El;
    [left | right; exact I].
  unfold find_objects in El. rewrite lookup_map in El.
  destruct (seq 0 _ !! _) as [k|] eqn:Ek; [|discriminate].
  apply lookup_seq in Ek as [-> _]. cbn in El. inversion El; subst.
  replace (Z.of_nat (S (Z.to_nat (label - 1)))) with label by lia.
  now rewrite label_positions_absent.
Qed.

Lemma shape_eqb_neq (s1 s2 : nat * nat) :
  s1 <> s2 -> shape_eqb s1 s2 = false.
Proof.
  destruct s1 as [a b], s2 as [c d]. unfold shape_eqb. cbn.
  intros H. destruct (Nat.eqb_spec a c), (Nat.eqb_spec b d);
    try reflexivity. subst. now destruct H.
Qed.

(** The validations of the constructor, up to the preparation of the
    data. *)
Lemma init_raises_when_prepare_raises data segment_image label label_slice
    error gain mask mask_method background h :
  raises (snd (_prepare_data data error gain mask mask_method background h))
  -> raises (snd (__init__ data segment_image label label_slice error gain
                           mask mask_method background h)).
Proof.
  intros H. unfold __init__.
  rewrite bind_unfold. unfold rdi at 1. cbn iota beta.
  rewrite bind_unfold. unfold rd at 1. cbn iota beta.
  destruct (negb _); [exact I|].
  destruct (label =? 0)%Z; [exact I|].
  destruct (label <? 0)%Z; [exact I|].
  now apply bind_raises_l.
Qed.

(** C4: with a mask, the masking step writes into the background image
    the caller supplied: the excluded pixel is set to zero (or, with
    [interpolate], to the mean of its unmasked neighbours) in the
    caller's array, while the data and the mask are left as they
    were. *)
Theorem C4_background_modified_in_place :
  let exclude :=
    fst (__init__ 0 0 1 None None None (Some 0%nat) "exclude"
                  (Some (Array 1%nat)) masked_store) in
  let interpolate :=
    fst (__init__ 0 0 1 None None None (Some 0%nat) "interpolate"
                  (Some (Array 1%nat)) masked_store) in
  farrays masked_store !! 1%nat
    = Some [[Fin 5; Fin 1]; [Fin 1; Fin 1]] /\
  farrays exclude !! 1%nat = Some [[Fin 0; Fin 1]; [Fin 1; Fin 1]] /\
  farrays interpolate !! 1%nat
    = Some [[Fin (3 # 3); Fin 1]; [Fin 1; Fin 1]] /\
  farrays exclude !! 0%nat = farrays masked_store !! 0%nat /\
  farrays interpolate !! 0%nat = farrays masked_store !! 0%nat /\
  barrays exclude !! 0%nat = barrays masked_store !! 0%nat /\
  barrays interpolate !! 0%nat = barrays masked_store !! 0%nat.
Proof. vm_compute. repeat split. Qed.
End ConstructionFacts.


(** ** What construction changes in the store *)

Section FrameFacts.
Import NP Segmentation.
Variable n : nat.
Variable P : nat -> Prop.

Lemma frame_refl h : frame n P h h.
Proof.
  repeat split; try reflexivity. exists []. now rewrite app_nil_r.
Qed.

Lemma frame_trans h1 h2 h3 :
  frame n P h1 h2 -> frame n P h2 h3 -> frame n P h1 h3.
Proof.
  intros (L1 & K1 & [e1 B1] & I1) (L2 & K2 & [e2 B2] & I2).
  repeat split.
  - lia.
  - intros l Hl HP'. now rewrite K2, K1.
  - exists (e1 ++ e2). now rewrite B2, B1, app_assoc.
  - now rewrite I2.
Qed.

Lemma triple_ret {A} (a : A) (Q : A -> Prop) :
  Q a -> triple n P (ret a) Q.
Proof.
  intros HQ h h' r _ E. inversion E; subst. split; [apply frame_refl|exact HQ].
Qed.

Lemma triple_raise {A} (e : exn) (Q : A -> Prop) :
  triple n P (raise e) Q.
Proof.
  intros h h' r _ E. inversion E; subst. split; [apply frame_refl|exact I].
Qed.

Lemma triple_lift {A} (r : result A) : triple n P (lift r) (fun _ => True).
Proof.
  intros h h' r' _ E. inversion E; subst.
  split; [apply frame_refl | now destruct r'].
Qed.

Lemma triple_bind {A B} (c : M A) (k : A -> M B) (Q : A -> Prop)
    (Q' : B -> Prop) :
  triple n P c Q -> (forall a, Q a -> triple n P (k a) Q') ->
  triple n P (c ≫= k) Q'.
Proof.
  intros Hc Hk h h' r Hn E. rewrite bind_unfold in E.
  destruct (c h) as [h1 [a|e]] eqn:Ec.
  - destruct (Hc h h1 (Ok a) Hn Ec) as [F1 Qa].
    assert (Hn1 : (n <= length (farrays h1))%nat) by (destruct F1; lia).
    destruct (Hk a Qa h1 h' r Hn1 E) as [F2 Qr].
    split; [eapply frame_trans; eassumption | exact Qr].
  - inversion E; subst. destruct (Hc h h' (Raise e) Hn Ec) as [F1 _].
    split; [exact F1 | exact I].
Qed.

Lemma triple_weaken {A} (c : M A) (Q Q' : A -> Prop) :
  triple n P c Q -> (forall a, Q a -> Q' a) -> triple n P c Q'.
Proof.
  intros Hc HQ h h' r Hn E. destruct (Hc h h' r Hn E) as [F Qr].
  split; [exact F|]. destruct r; [now apply HQ | exact I].
Qed.

Lemma triple_rd l : triple n P (rd l) (fun _ => True).
Proof.
  intros h h' r _ E. inversion E; subst. split; [apply frame_refl|exact I].
Qed.

Lemma triple_rdb l : triple n P (rdb l) (fun _ => True).
Proof.
  intros h h' r _ E. inversion E; subst. split; [apply frame_refl|exact I].
Qed.

Lemma triple_rdi l : triple n P (rdi l) (fun _ => True).
Proof.
  intros h h' r _ E. inversion E; subst. split; [apply frame_refl|exact I].
Qed.

Lemma triple_new a : triple n P (new a) (fun l => (n <= l)%nat).
Proof.
  intros h h' r Hn E. inversion E; subst. cbn. split; [|exact Hn].
  repeat split; cbn.
  - rewrite length_app. lia.
  - intros l Hl _. apply lookup_app_l. lia.
  - exists []. now rewrite app_nil_r.
Qed.

Lemma triple_newb a : triple n P (newb a) (fun _ => True).
Proof.
  intros h h' r Hn E. inversion E; subst. cbn. split; [|exact I].
  repeat split; cbn.
  - reflexivity.
  - now exists [a].
Qed.

Lemma triple_modify l f :
  writable n P l -> triple n P (modify l f) (fun _ => True).
Proof.
  intros W h h' r Hn E. inversion E; subst. cbn. split; [|exact I].
  repeat split; cbn.
  - now rewrite length_alter.
  - intros l' Hl' HP'. apply list_lookup_alter_ne.
    intros ->. destruct W as [W|W]; [lia | now apply HP'].
  - exists []. now rewrite app_nil_r.
Qed.

Lemma triple_for_each {X} (xs : list X) (body : X -> M unit) :
  (forall x, triple n P (body x) (fun _ => True)) ->
  triple n P (for_each xs body) (fun _ => True).
Proof.
  intros Hb. induction xs as [|x xs IH]; cbn [for_each].
  - now apply triple_ret.
  - eapply triple_bind; [apply Hb | intros _ _; exact IH].
Qed.

Lemma triple_on_some (o : option nat) (f : nat -> M unit) :
  (forall l, o = Some l -> triple n P (f l) (fun _ => True)) ->
  triple n P (on_some o f) (fun _ => True).
Proof.
  intros Hf. destruct o as [l|]; cbn; [now apply Hf | now apply triple_ret].
Qed.

Lemma subtract_background_frame data background :
  (forall b, background = Array b -> P b) ->
  triple n P (_subtract_background data background)
         (fun '(d, b) => (n <= d)%nat /\ writable n P b).
Proof.
  intros HP. unfold _subtract_background.
  eapply triple_bind; [apply triple_rd | intros d _].
  eapply triple_bind with (Q := writable n P).
  - destruct background as [v|b].
    + eapply triple_weaken; [apply triple_new|]. intros l Hl. now left.
    + eapply triple_bind; [apply triple_rd | intros ba _].
      destruct (negb _); [apply triple_raise|].
      apply triple_ret. right. now apply HP.
  - intros bkgrd_image Hb.
    eapply triple_bind; [apply triple_rd | intros bi _].
    eapply triple_bind; [apply triple_new | intros diff Hd].
    now apply triple_ret.
Qed.

Lemma apply_gain_frame data variance gain :
  triple n P (_apply_gain data variance gain) (fun v => (n <= v)%nat).
Proof.
  unfold _apply_gain.
  eapply triple_bind; [apply triple_rd | intros d _].
  eapply triple_bind with (Q := fun _ => True).
  - destruct gain; [now apply triple_ret | apply triple_rd].
  - intros g _. destruct (negb _); [apply triple_raise|].
    destruct (existsb _ g); [apply triple_raise|].
    eapply triple_bind; [apply triple_rd | intros v _]. apply triple_new.
Qed.

Lemma apply_mask_frame data mask mask_method variance background :
  (forall v, variance = Some v -> writable n P v) ->
  (forall b, background = Some b -> writable n P b) ->
  triple n P (_apply_mask data mask mask_method variance background)
         (fun _ => True).
Proof.
  intros Hv Hb. unfold _apply_mask.
  eapply triple_bind; [apply triple_rd | intros d _].
  eapply triple_bind; [apply triple_rdb | intros m _].
  destruct (negb _); [apply triple_raise|].
  eapply triple_bind; [apply triple_new | intros data' Hd].
  eapply triple_bind with (Q := fun _ => True);
    [|intros _ _; now apply triple_ret].
  assert (Wd : writable n P data') by now left.
  destruct (String.eqb mask_method "exclude").
  - eapply triple_bind with (Q := fun _ => True).
    + apply triple_for_each. intros [j i]. now apply triple_modify.
    + intros _ _. eapply triple_bind with (Q := fun _ => True).
      * apply triple_on_some. intros b Eb. apply triple_for_each.
        intros [j i]. apply triple_modify. now apply Hb.
      * intros _ _. apply triple_on_some. intros v Ev.
        apply triple_for_each. intros [j i]. apply triple_modify.
        now apply Hv.
  - destruct (String.eqb mask_method "interpolate");
      [|apply triple_raise].
    destruct (shape2 d) as [ny nx].
    apply triple_for_each. intros [j i].
    eapply triple_bind with (Q := fun _ => True);
      [now apply triple_modify | intros _ _].
    eapply triple_bind with (Q := fun _ => True).
    + apply triple_on_some. intros b Eb. apply triple_modify. now apply Hb.
    + intros _ _. apply triple_on_some. intros v Ev. apply triple_modify.
      now apply Hv.
Qed.

Lemma prepare_data_frame data error gain mask mask_method background :
  (forall b, background = Some (Array b) -> P b) ->
  triple n P (_prepare_data data error gain mask mask_method background)
         (fun _ => True).
Proof.
  intros HP. unfold _prepare_data.
  eapply triple_bind
    with (Q := fun '(d, b) => forall l, b = Some l -> writable n P l).
  - destruct background as [bg|].
    + eapply triple_bind.
      * apply subtract_background_frame. intros b ->. now apply HP.
      * intros [d b] [_ Wb]. apply triple_ret. intros l E.
        now inversion E; subst.
    + apply triple_ret. discriminate.
  - intros [d b] Wb.
    eapply triple_bind
      with (Q := fun v => forall l, v = Some l -> writable n P l).
    + destruct error as [e|]; [|apply triple_ret; discriminate].
      eapply triple_bind; [apply triple_rd | intros da _].
      eapply triple_bind; [apply triple_rd | intros ea _].
      destruct (negb _); [apply triple_raise|].
      eapply triple_bind; [apply triple_new | intros variance Hvar].
      destruct gain as [g|].
      * eapply triple_bind; [apply apply_gain_frame | intros v Hv].
        apply triple_ret. intros l E. inversion E; subst. now left.
      * apply triple_ret. intros l E. inversion E; subst. now left.
    + intros v Wv. destruct mask as [m|].
      * now apply apply_mask_frame.
      * now apply triple_ret.
Qed.

Lemma init_triple data segment_image label label_slice error gain mask
    mask_method background :
  (forall b, background = Some (Array b) -> P b) ->
  triple n P (__init__ data segment_image label label_slice error gain mask
                       mask_method background)
         (fun _ => True).
Proof.
  intros HP. unfold __init__.
  eapply triple_bind; [apply triple_rdi | intros seg _].
  eapply triple_bind; [apply triple_rd | intros d _].
  destruct (negb _); [apply triple_raise|].
  destruct (label =? 0)%Z; [apply triple_raise|].
  destruct (label <? 0)%Z; [apply triple_raise|].
  eapply triple_bind; [now apply prepare_data_frame|].
  intros [[image variance] bkg] _.
  eapply triple_bind with (Q := fun _ => True).
  - destruct label_slice as [sl|]; [now apply triple_ret|].
    eapply triple_bind; [apply triple_lift | intros o _].
    destruct o; [now apply triple_ret | apply triple_raise].
  - intros sl _. eapply triple_bind with (Q := fun _ => True).
    + destruct (String.eqb mask_method "interpolate").
      * eapply triple_bind; [apply triple_rd | intros img _].
        eapply triple_bind; [apply triple_newb | intros m _].
        now apply triple_ret.
      * now apply triple_ret.
    + intros msk _. now apply triple_ret.
Qed.

Lemma triple_collect {X Y} (xs : list X) (f : X -> M (option Y)) :
  (forall x, triple n P (f x) (fun _ => True)) ->
  triple n P (collect xs f) (fun _ => True).
Proof.
  intros Hf. induction xs as [|x xs IH]; cbn [collect].
  - now apply triple_ret.
  - eapply triple_bind; [apply Hf | intros o _].
    eapply triple_bind; [exact IH | intros bs _]. now apply triple_ret.
Qed.

Lemma segment_properties_triple data segment_image error gain mask
    mask_method background labels :
  (forall b, background = Some (Array b) -> P b) ->
  triple n P (segment_properties data segment_image error gain mask
                                 mask_method background labels)
         (fun _ => True).
Proof.
  intros HP. unfold segment_properties.
  eapply triple_bind; [apply triple_rdi | intros seg _].
  eapply triple_bind; [apply triple_rd | intros d _].
  destruct (negb _); [apply triple_raise|].
  apply triple_collect. intros [i [sl|]]; [|now apply triple_ret].
  destruct (bool_decide _); [|now apply triple_ret].
  eapply triple_bind; [now apply init_triple | intros props _].
  now apply triple_ret.
Qed.
End FrameFacts.

(** X3: Construction leaves every array of the caller as it was, except a
    background image passed as an array: the data, the error, the mask and
    the segmentation image are not modified, whether construction
    succeeds or raises. *)
Lemma init_preserves_inputs data segment_image label label_slice error gain
    mask mask_method background (h h' : Segmentation.store) r :
  Segmentation.__init__ data segment_image label label_slice error gain mask
                        mask_method background h = (h', r) ->
  (forall l, (l < length (Segmentation.farrays h))%nat ->
             background <> Some (Segmentation.Array l) ->
             Segmentation.farrays h' !! l = Segmentation.farrays h !! l) /\
  (forall l, (l < length (Segmentation.barrays h))%nat ->
             Segmentation.barrays h' !! l = Segmentation.barrays h !! l) /\
  Segmentation.iarrays h' = Segmentation.iarrays h.
Proof.
  intros E.
  destruct (init_triple (length (Segmentation.farrays h))
              (fun l => background = Some (Segmentation.Array l))
              data segment_image label label_slice error gain mask
              mask_method background (fun b Hb => Hb) h h' r (le_n _) E)
    as [(_ & K & [ext B] & I) _].
  repeat split.
  - exact K.
  - intros l Hl. rewrite B. now apply lookup_app_l.
  - exact I.
Qed.

(** X4: [segment_properties] leaves every array of the caller as it was,
    except a background image passed as an array: whatever the number of
    segments built, and whether the call returns or raises, the data, the
    error, the mask and the segmentation image are not modified. *)
Lemma segment_properties_preserves_inputs data segment_image error gain mask
    mask_method background labels (h h' : Segmentation.store) r :
  Segmentation.segment_properties data segment_image error gain mask
    mask_method background labels h = (h', r) ->
  (forall l, (l < length (Segmentation.farrays h))%nat ->
             background <> Some (Segmentation.Array l) ->
             Segmentation.farrays h' !! l = Segmentation.farrays h !! l) /\
  (forall l, (l < length (Segmentation.barrays h))%nat ->
             Segmentation.barrays h' !! l = Segmentation.barrays h !! l) /\
  Segmentation.iarrays h' = Segmentation.iarrays h.
Proof.
  intros E.
  destruct (segment_properties_triple (length (Segmentation.farrays h))
              (fun l => background = Some (Segmentation.Array l))
              data segment_image error gain mask mask_method background
              labels (fun b Hb => Hb) h h' r (le_n _) E)
    as [(_ & K & [ext B] & I) _].
  repeat split.
  - exact K.
  - intros l Hl. rewrite B. now apply lookup_app_l.
  - exact I.
Qed.

(** * Further properties of the code *)

(** ** Indexing of 2-D arrays *)

Section IndexFacts.
Import NP Segmentation.

Lemma get2_map_map {X Y} (f : X -> Y) (a : list (list X)) (j i : nat) :
  get2 (map (map f) a) j i = f <$> get2 a j i.
Proof.
  unfold get2. rewrite lookup_map.
  destruct (a !! j) as [row|]; cbn; [apply lookup_map | reflexivity].
Qed.

Lemma get2_map2 {X Y Z} (f : X -> Y -> Z) (a : list (list X))
    (b : list (list Y)) (j i : nat) :
  get2 (map2 f a b) j i
  = match get2 a j i, get2 b j i with
    | Some x, Some y => Some (f x y)
    | _, _ => None
    end.
Proof.
  unfold get2, map2. rewrite lookup_zip_with.
  destruct (a !! j) as [ra|]; cbn; [|reflexivity].
  destruct (b !! j) as [rb|]; cbn.
  - rewrite lookup_zip_with.
    destruct (ra !! i); cbn; [|reflexivity]. now destruct (rb !! i).
  - now destruct (ra !! i).
Qed.

Lemma get2_set2 (a : array2) (j i j' i' : nat) (v : float) :
  get2 (set2 j i v a) j' i'
  = if decide (j = j' /\ i = i') then (fun _ => v) <$> get2 a j i
    else get2 a j' i'.
Proof.
  unfold get2, set2. rewrite list_lookup_alter.
  destruct (decide (j = j')) as [<-|Hj].
  - destruct (a !! j) as [row|]; cbn.
    + rewrite list_lookup_insert.
      destruct (decide (i = i')) as [<-|Hi].
      * destruct (row !! i) eqn:E.
        -- apply lookup_lt_Some in E.
           rewrite !decide_True by tauto. reflexivity.
        -- apply lookup_ge_None in E.
           rewrite decide_False by lia. rewrite decide_True by tauto.
           reflexivity.
      * rewrite !decide_False by tauto. reflexivity.
    + now destruct (decide (j = j /\ i = i')).
  - rewrite decide_False by tauto. reflexivity.
Qed.

Lemma elem_of_row_positions {X} (g : nat -> X) (row : list bool) (p : X) :
  p ∈ omap (fun o => o)
        (imap (fun i (b : bool) => if b then Some (g i) else None) row)
  <-> exists i, row !! i = Some true /\ p = g i.
Proof.
  revert g. induction row as [|b row IH]; intros g; cbn.
  - split; [intros H; inversion H | intros (i & H & _); discriminate].
  - destruct b; [rewrite elem_of_cons|]; rewrite (IH (g ∘ S)); split.
    + intros [-> | (i & H & ->)]; [now exists 0%nat | now exists (S i)].
    + intros ([|i] & H & ->); [now left | right; now exists i].
    + intros (i & H & ->). now exists (S i).
    + intros ([|i] & H & ->); [discriminate | now exists i].
Qed.

Lemma elem_of_concat_imap {X Y} (F : nat -> X -> list Y) (m : list X)
    (p : Y) :
  p ∈ concat (imap F m) <-> exists j x, m !! j = Some x /\ p ∈ F j x.
Proof.
  revert F. induction m as [|x m IH]; intros F; cbn.
  - split; [intros H; inversion H | intros (j & y & H & _); discriminate].
  - rewrite elem_of_app, (IH (F ∘ S)). split.
    + intros [H | (j & y & H & Hp)];
        [now exists 0%nat, x | now exists (S j), y].
    + intros ([|j] & y & H & Hp).
      * left. now inversion H; subst.
      * right. now exists j, y.
Qed.

(** [nonzero] lists exactly the positions of the true elements. *)
Lemma elem_of_nonzero (m : barray2) (j i : nat) :
  (j, i) ∈ nonzero m <-> get2 m j i = Some true.
Proof.
  unfold nonzero, get2. rewrite elem_of_concat_imap. split.
  - intros (j' & row & Hrow & Hp).
    apply elem_of_row_positions in Hp as (i' & Hi & E).
    inversion E; subst. now rewrite Hrow.
  - intros H. destruct (m !! j) as [row|] eqn:Hrow; [|discriminate].
    exists j, row. split; [exact Hrow|].
    apply elem_of_row_positions. now exists i.
Qed.
End IndexFacts.

(** ** The masking step *)

Section MaskFacts.
Import NP Segmentation.

Lemma store_eta (h : store) :
  {| farrays := farrays h; barrays := barrays h; iarrays := iarrays h |} = h.
Proof. now destruct h. Qed.

(** One iteration of a masking loop: the array at [l] is updated by [f],
    then the background and the variance, when present, by [g]. *)
Lemma masking_iteration (l : nat) (ob ov : option nat)
    (f g : array2 -> array2) (h : store) :
  ob <> Some l -> ov <> Some l ->
  exists fa',
    (modify l f;; on_some ob (fun b => modify b g);;
     on_some ov (fun v => modify v g)) h
    = ({| farrays := fa'; barrays := barrays h; iarrays := iarrays h |},
       Ok tt) /\
    length fa' = length (farrays h) /\
    fa' !! l = f <$> farrays h !! l.
Proof.
  intros Hb Hv.
  destruct ob as [b|], ov as [v|]; eexists; (split; [reflexivity|]); cbn;
    rewrite ?length_alter; (split; [reflexivity|]);
    rewrite ?list_lookup_alter_ne by congruence;
    apply list_lookup_alter_eq.
Qed.

Lemma masking_loop {X} (l : nat) (ob ov : option nat)
    (f g : X -> array2 -> array2) (xs : list X) (h : store) :
  ob <> Some l -> ov <> Some l ->
  exists fa',
    for_each xs (fun x =>
      modify l (f x);; on_some ob (fun b => modify b (g x));;
      on_some ov (fun v => modify v (g x))) h
    = ({| farrays := fa'; barrays := barrays h; iarrays := iarrays h |},
       Ok tt) /\
    length fa' = length (farrays h) /\
    fa' !! l = (fun a => foldl (fun a x => f x a) a xs) <$> farrays h !! l.
Proof.
  intros Hb Hv. revert h. induction xs as [|x xs IH]; intros h.
  - exists (farrays h). cbn. rewrite store_eta.
    repeat split. now destruct (farrays h !! l).
  - destruct (masking_iteration l ob ov (f x) (g x) h Hb Hv)
      as (fa1 & E1 & L1 & K1).
    destruct (IH {| farrays := fa1; barrays := barrays h;
                    iarrays := iarrays h |}) as (fa2 & E2 & L2 & K2).
    exists fa2. cbn [for_each]. rewrite bind_unfold, E1. cbn [farrays] in *.
    rewrite E2. cbn. repeat split; [congruence|].
    rewrite K2, K1. now destruct (farrays h !! l).
Qed.

(** Three loops in a row, as the [exclude] branch runs them. *)
Lemma exclude_loops (l : nat) (ob ov : option nat) (v0 : float)
    (xs : list (nat * nat)) (h : store) :
  ob <> Some l -> ov <> Some l ->
  exists fa',
    (for_each xs (fun '(j, i) => modify l (set2 j i v0));;
     on_some ob (fun b =>
       for_each xs (fun '(j, i) => modify b (set2 j i v0)));;
     on_some ov (fun v =>
       for_each xs (fun '(j, i) => modify v (set2 j i v0)))) h
    = ({| farrays := fa'; barrays := barrays h; iarrays := iarrays h |},
       Ok tt) /\
    length fa' = length (farrays h) /\
    fa' !! l = (fun a => foldl (fun a '(j, i) => set2 j i v0 a) a xs)
               <$> farrays h !! l.
Proof.
  intros Hb Hv.
  assert (Loop : forall (t : nat) (h : store),
    for_each xs (fun '(j, i) => modify t (set2 j i v0)) h
    = ({| farrays := alter (fun a => foldl (fun a '(j, i) => set2 j i v0 a)
                                           a xs) t (farrays h);
          barrays := barrays h; iarrays := iarrays h |}, Ok tt)).
  { intros t. induction xs as [|[j i] xs IH]; intros h0; cbn [for_each].
    - cbn. rewrite list_alter_id by reflexivity. now rewrite store_eta.
    - rewrite bind_unfold. cbn [modify]. rewrite IH. cbn.
      now rewrite list_alter_alter_eq. }
  destruct ob as [b|], ov as [v|];
    repeat first [ rewrite bind_unfold | rewrite Loop
                 | progress (unfold on_some, ret; cbn iota beta) ];
    eexists; (split; [reflexivity|]); cbn;
    rewrite ?length_alter; (split; [reflexivity|]);
    rewrite ?list_lookup_alter_ne by congruence;
    apply list_lookup_alter_eq.
Qed.

(** A loop of pixel assignments: the listed pixels get the value, the
    others keep theirs. *)
Lemma get2_foldl_set2 (v0 : float) (xs : list (nat * nat)) (a : array2)
    (j i : nat) :
  get2 (foldl (fun a '(j, i) => set2 j i v0 a) a xs) j i
  = if decide ((j, i) ∈ xs) then (fun _ => v0) <$> get2 a j i
    else get2 a j i.
Proof.
  revert a. induction xs as [|[j0 i0] xs IH]; intros a; cbn [foldl].
  - rewrite decide_False; [reflexivity|]. intros H. inversion H.
  - rewrite IH, get2_set2.
    destruct (decide (j0 = j /\ i0 = i)) as [[-> ->]|Hne].
    + rewrite (decide_True (P := (j, i) ∈ (j, i) :: xs)) by now left.
      destruct (decide ((j, i) ∈ xs)); now destruct (get2 a j i).
    + destruct (decide ((j, i) ∈ xs)) as [Hin|Hin].
      * rewrite decide_True by now right. reflexivity.
      * rewrite decide_False; [reflexivity|].
        rewrite elem_of_cons. intros [E|E]; [|contradiction].
        inversion E; subst. now apply Hne.
Qed.

(** X5: With [exclude] the masking step returns a new array in which the
    masked pixels are zero and the others are those of the data. *)
Theorem apply_mask_exclude_pixels
    (data mask : nat) (variance background : option nat) (h : store)
    (d : array2) (m : barray2) :
  farrays h !! data = Some d ->
  barrays h !! mask = Some m ->
  shape2 d = shape2 m ->
  (forall l, variance = Some l \/ background = Some l ->
             (l < length (farrays h))%nat) ->
  exists h' d',
    _apply_mask data mask "exclude" variance background h
    = (h', Ok (length (farrays h), variance, background)) /\
    farrays h' !! length (farrays h) = Some d' /\
    barrays h' = barrays h /\
    forall j i,
      get2 d' j i = match get2 m j i with
                    | Some true => (fun _ => Fin 0) <$> get2 d j i
                    | _ => get2 d j i
                    end.
Proof.
  intros Hd Hm Hs Hlive. unfold _apply_mask.
  rewrite bind_unfold. unfold rd at 1. cbn iota beta. rewrite Hd.
  rewrite bind_unfold. unfold rdb at 1. cbn iota beta. rewrite Hm.
  cbn [default from_option id]. rewrite Hs, shape_eqb_refl. cbn [negb].
  rewrite bind_unfold. unfold new at 1. cbn iota beta.
  cbn [String.eqb Ascii.eqb Bool.eqb].
  set (h1 := {| farrays := farrays h ++ [d]; barrays := barrays h;
                iarrays := iarrays h |}).
  set (l := length (farrays h)).
  assert (Hb : background <> Some l).
  { intros E. specialize (Hlive l (or_intror E)). unfold l in Hlive. lia. }
  assert (Hv : variance <> Some l).
  { intros E. specialize (Hlive l (or_introl E)). unfold l in Hlive. lia. }
  destruct (exclude_loops l background variance (Fin 0) (nonzero m) h1 Hb Hv)
    as (fa' & E & L & K).
  rewrite bind_unfold, E. cbn.
  eexists _, _. split; [reflexivity|]. cbn [farrays barrays].
  split; [|split; [reflexivity|]].
  - rewrite K. unfold h1, l. cbn [farrays].
    rewrite lookup_snoc_length. reflexivity.
  - intros j i. rewrite get2_foldl_set2.
    destruct (decide ((j, i) ∈ nonzero m)) as [Hin|Hin].
    + apply elem_of_nonzero in Hin. now rewrite Hin.
    + destruct (get2 m j i) as [[|]|] eqn:Em; try reflexivity.
      exfalso. apply Hin. now apply elem_of_nonzero.
Qed.

Lemma apply_mask_exclude_pixels_witness :
  exists h' d',
    _apply_mask 0 0 "exclude" None (Some 1%nat) Examples.masked_store
    = (h', Ok (length (farrays Examples.masked_store), None, Some 1%nat)) /\
    farrays h' !! length (farrays Examples.masked_store) = Some d' /\
    barrays h' = barrays Examples.masked_store /\
    forall j i,
      get2 d' j i
      = match get2 [[true; false]; [false; false]] j i with
        | Some true =>
            (fun _ => Fin 0) <$> get2 [[Fin 1; Fin 2]; [Fin 3; Fin 4]] j i
        | _ => get2 [[Fin 1; Fin 2]; [Fin 3; Fin 4]] j i
        end.
Proof.
  apply (apply_mask_exclude_pixels 0 0 None (Some 1%nat)
           Examples.masked_store [[Fin 1; Fin 2]; [Fin 3; Fin 4]]
           [[true; false]; [false; false]]).
  - reflexivity.
  - reflexivity.
  - reflexivity.
  - intros l [H|H]; inversion H. cbn. lia.
Defined.

(** X6: A mask without a true element changes nothing: the step returns a
    copy of the data and leaves every other array as it was, with either
    method. *)
Theorem apply_mask_nothing_masked
    (data mask : nat) (mask_method : string)
    (variance background : option nat) (h : store)
    (d : array2) (m : barray2) :
  farrays h !! data = Some d ->
  barrays h !! mask = Some m ->
  shape2 d = shape2 m ->
  forallb (forallb negb) m = true ->
  mask_method = "exclude" \/ mask_method = "interpolate" ->
  _apply_mask data mask mask_method variance background h
  = ({| farrays := farrays h ++ [d]; barrays := barrays h;
        iarrays := iarrays h |},
     Ok (length (farrays h), variance, background)).
Proof.
  intros Hd Hm Hs Hfalse Hmeth. unfold _apply_mask.
  rewrite bind_unfold. unfold rd at 1. cbn iota beta. rewrite Hd.
  rewrite bind_unfold. unfold rdb at 1. cbn iota beta. rewrite Hm.
  cbn [default from_option id]. rewrite Hs, shape_eqb_refl. cbn [negb].
  rewrite bind_unfold. unfold new at 1. cbn iota beta.
  rewrite (nonzero_all_false m Hfalse).
  destruct Hmeth as [-> | ->]; cbn [String.eqb Ascii.eqb Bool.eqb].
  - destruct background, variance; reflexivity.
  - destruct (shape2 m). reflexivity.
Qed.

Lemma apply_mask_nothing_masked_witness :
  _apply_mask 0 0 "interpolate" None None
    {| farrays := [ [[Fin 1; Fin 2]] ]; barrays := [ [[false; false]] ];
       iarrays := [] |}
  = ({| farrays := [ [[Fin 1; Fin 2]] ] ++ [ [[Fin 1; Fin 2]] ];
        barrays := [ [[false; false]] ]; iarrays := [] |},
     Ok (1%nat, None, None)).
Proof.
  apply (apply_mask_nothing_masked 0 0 "interpolate" None None
           {| farrays := [ [[Fin 1; Fin 2]] ];
              barrays := [ [[false; false]] ]; iarrays := [] |}
           [[Fin 1; Fin 2]] [[false; false]]).
  - reflexivity.
  - reflexivity.
  - reflexivity.
  - reflexivity.
  - right. reflexivity.
Defined.

(** *** Interpolation with no unmasked neighbour *)

Lemma forallb_take {X} (p : X -> bool) (n : nat) (l : list X) :
  forallb p l = true -> forallb p (take n l) = true.
Proof.
  revert n. induction l as [|x l IH]; intros [|n]; cbn; try reflexivity.
  intros H. apply andb_prop in H as [-> H]. cbn. now apply IH.
Qed.

Lemma forallb_drop {X} (p : X -> bool) (n : nat) (l : list X) :
  forallb p l = true -> forallb p (drop n l) = true.
Proof.
  revert n. induction l as [|x l IH]; intros [|n]; cbn; try reflexivity.
  - intros H. exact H.
  - intros H. apply andb_prop in H as [_ H]. now apply IH.
Qed.

Lemma forallb_map_comp {X Y} (p : Y -> bool) (f : X -> Y) (l : list X) :
  forallb p (map f l) = forallb (fun x => p (f x)) l.
Proof. induction l as [|x l IH]; cbn; [reflexivity | now rewrite IH]. Qed.

Lemma forallb_weaken {X} (p q : X -> bool) (l : list X) :
  (forall x, p x = true -> q x = true) ->
  forallb p l = true -> forallb q l = true.
Proof.
  intros Hpq. induction l as [|x l IH]; cbn; [reflexivity|].
  intros H. apply andb_prop in H as [Hx H]. now rewrite (Hpq x Hx), IH.
Qed.

Lemma slice2_all_true (y0 y1 x0 x1 : nat) (m : barray2) :
  forallb (forallb (fun b : bool => b)) m = true ->
  forallb (forallb negb) (map (map negb) (slice2 y0 y1 x0 x1 m)) = true.
Proof.
  intros H. unfold slice2. rewrite !forallb_map_comp.
  apply forallb_take, forallb_drop. revert H. apply forallb_weaken.
  intros row Hrow. rewrite forallb_map_comp.
  apply forallb_take, forallb_drop. revert Hrow. apply forallb_weaken.
  now intros [|].
Qed.

Lemma select_none (a : array2) (good : barray2) :
  forallb (forallb negb) good = true -> select a good = [].
Proof.
  unfold select. revert good.
  induction a as [|row a IH]; intros [|grow good]; cbn; try reflexivity.
  intros H. apply andb_prop in H as [Hrow H]. rewrite (IH good H).
  rewrite app_nil_r. clear IH H. revert grow Hrow.
  induction row as [|x row IHr]; intros [|g grow]; cbn; try reflexivity.
  intros H. apply andb_prop in H as [Hg H]. destruct g; [discriminate|].
  now apply IHr.
Qed.

(** With every pixel masked a masked pixel has no unmasked neighbour, and
    the mean of no value is NaN. *)
Lemma interpolate_pixel_all_masked (m : barray2) (ny nx j i : nat)
    (a : array2) :
  forallb (forallb (fun b : bool => b)) m = true ->
  interpolate_pixel m ny nx j i a = set2 j i NaN a.
Proof.
  intros H. unfold interpolate_pixel.
  now rewrite select_none by now apply slice2_all_true.
Qed.

Lemma for_each_ext {X} (xs : list X) (f g : X -> M unit) :
  (forall x, f x = g x) -> for_each xs f = for_each xs g.
Proof.
  intros E. induction xs as [|x xs IH]; cbn; [reflexivity|].
  now rewrite E, IH.
Qed.

(** X7: With [interpolate] and a mask that covers the whole image, every
    pixel of the returned data is NaN. *)
Theorem apply_mask_interpolate_all_masked
    (data mask : nat) (variance background : option nat) (h : store)
    (d : array2) (m : barray2) :
  farrays h !! data = Some d ->
  barrays h !! mask = Some m ->
  shape2 d = shape2 m ->
  (forall l, variance = Some l \/ background = Some l ->
             (l < length (farrays h))%nat) ->
  forallb (forallb (fun b : bool => b)) m = true ->
  exists h' d',
    _apply_mask data mask "interpolate" variance background h
    = (h', Ok (length (farrays h), variance, background)) /\
    farrays h' !! length (farrays h) = Some d' /\
    forall j i, get2 m j i = Some true ->
                get2 d' j i = (fun _ => NaN) <$> get2 d j i.
Proof.
  intros Hd Hm Hs Hlive Hall. unfold _apply_mask.
  rewrite bind_unfold. unfold rd at 1. cbn iota beta. rewrite Hd.
  rewrite bind_unfold. unfold rdb at 1. cbn iota beta. rewrite Hm.
  cbn [default from_option id]. rewrite Hs, shape_eqb_refl. cbn [negb].
  rewrite bind_unfold. unfold new at 1. cbn iota beta.
  cbn [String.eqb Ascii.eqb Bool.eqb]. destruct (shape2 m) as [ny nx].
  set (h1 := {| farrays := farrays h ++ [d]; barrays := barrays h;
                iarrays := iarrays h |}).
  set (l := length (farrays h)).
  assert (Hb : background <> Some l).
  { intros E. specialize (Hlive l (or_intror E)). unfold l in Hlive. lia. }
  assert (Hv : variance <> Some l).
  { intros E. specialize (Hlive l (or_introl E)). unfold l in Hlive. lia. }
  destruct (masking_loop l background variance
              (fun x => interpolate_pixel m ny nx (fst x) (snd x))
              (fun x => interpolate_pixel m ny nx (fst x) (snd x))
              (nonzero m) h1 Hb Hv) as (fa' & E & L & K).
  rewrite bind_unfold.
  rewrite (for_each_ext _ _
             (fun x =>
                modify l (interpolate_pixel m ny nx (fst x) (snd x));;
                on_some background (fun b =>
                  modify b (interpolate_pixel m ny nx (fst x) (snd x)));;
                on_some variance (fun v =>
                  modify v (interpolate_pixel m ny nx (fst x) (snd x)))))
    by now intros [j i].
  rewrite E. cbn.
  eexists _, _. split; [reflexivity|]. cbn [farrays]. split.
  - rewrite K. unfold h1, l. cbn [farrays].
    rewrite lookup_snoc_length. reflexivity.
  - intros j i Hji.
    rewrite (foldl_pointwise _ (fun a '(j, i) => set2 j i NaN a))
      by (intros a [j' i']; now apply interpolate_pixel_all_masked).
    rewrite get2_foldl_set2. rewrite decide_True; [reflexivity|].
    now apply elem_of_nonzero.
Qed.

Lemma apply_mask_interpolate_all_masked_witness :
  exists h' d',
    _apply_mask 0 0 "interpolate" None None
      {| farrays := [ [[Fin 1; Fin 2]] ]; barrays := [ [[true; true]] ];
         iarrays := [] |}
    = (h', Ok (1%nat, None, None)) /\
    farrays h' !! 1%nat = Some d' /\
    forall j i, get2 [[true; true]] j i = Some true ->
                get2 d' j i = (fun _ => NaN) <$> get2 [[Fin 1; Fin 2]] j i.
Proof.
  apply (apply_mask_interpolate_all_masked 0 0 None None
           {| farrays := [ [[Fin 1; Fin 2]] ];
              barrays := [ [[true; true]] ]; iarrays := [] |}
           [[Fin 1; Fin 2]] [[true; true]]).
  - reflexivity.
  - reflexivity.
  - reflexivity.
  - intros l [H|H]; inversion H.
  - reflexivity.
Defined.
End MaskFacts.

(** ** Preparation of the data *)

Section PrepareFacts.
Import NP Segmentation.

Lemma apply_mask_passes_on data mask mask_method variance background :
  triple 0 (fun _ => True)
    (_apply_mask data mask mask_method variance background)
    (fun '(_, v, b) => v = variance /\ b = background).
Proof.
  assert (W : forall l, writable 0 (fun _ => True) l) by (intros l; now right).
  unfold _apply_mask.
  eapply triple_bind; [apply triple_rd | intros d _].
  eapply triple_bind; [apply triple_rdb | intros m _].
  destruct (negb _); [apply triple_raise|].
  eapply triple_bind; [apply triple_new | intros data' _].
  eapply triple_bind with (Q := fun _ => True);
    [|intros _ _; now apply triple_ret].
  destruct (String.eqb mask_method "exclude").
  - eapply triple_bind with (Q := fun _ => True).
    + apply triple_for_each. intros [j i]. now apply triple_modify.
    + intros _ _. eapply triple_bind with (Q := fun _ => True).
      * apply triple_on_some. intros b Eb. apply triple_for_each.
        intros [j i]. now apply triple_modify.
      * intros _ _. apply triple_on_some. intros v Ev.
        apply triple_for_each. intros [j i]. now apply triple_modify.
  - destruct (String.eqb mask_method "interpolate");
      [|apply triple_raise].
    destruct (shape2 d) as [ny nx].
    apply triple_for_each. intros [j i].
    eapply triple_bind with (Q := fun _ => True);
      [now apply triple_modify | intros _ _].
    eapply triple_bind with (Q := fun _ => True).
    + apply triple_on_some. intros b Eb. now apply triple_modify.
    + intros _ _. apply triple_on_some. intros v Ev. now apply triple_modify.
Qed.

Lemma prepare_data_outputs data error gain mask mask_method background :
  triple 0 (fun _ => True)
    (_prepare_data data error gain mask mask_method background)
    (fun '(d, v, b) =>
       (error = None -> v = None) /\
       (background = None -> b = None) /\
       (mask = None -> background = None -> d = data)).
Proof.
  unfold _prepare_data.
  eapply triple_bind
    with (Q := fun '(d, b) => background = None -> b = None /\ d = data).
  - destruct background as [bg|].
    + eapply triple_bind with (Q := fun _ => True).
      * eapply triple_weaken;
          [apply subtract_background_frame; intros; exact I | now intros []].
      * intros [d b] _. now apply triple_ret.
    + now apply triple_ret.
  - intros [d b] Hb.
    eapply triple_bind with (Q := fun v => error = None -> v = None).
    + destruct error as [e|]; [|now apply triple_ret].
      eapply triple_bind; [apply triple_rd | intros da _].
      eapply triple_bind; [apply triple_rd | intros ea _].
      destruct (negb _); [apply triple_raise|].
      eapply triple_bind; [apply triple_new | intros variance _].
      destruct gain as [g|].
      * eapply triple_bind; [apply apply_gain_frame | intros v _].
        now apply triple_ret.
      * now apply triple_ret.
    + intros v Hv. destruct mask as [m|].
      * eapply triple_weaken; [apply apply_mask_passes_on|].
        intros [[d' v'] b'] [-> ->]. repeat split; try tauto. discriminate.
      * apply triple_ret. repeat split; tauto.
Qed.

(** X8: What [_prepare_data] hands back: no variance without an error array
    (whatever the gain is), no background image without a background, and
    the caller's own data array, not a copy, when there is neither a mask
    nor a background. *)
Theorem prepare_data_optional_outputs
    data error gain mask mask_method background (h h' : store)
    (d : nat) (v b : option nat) :
  _prepare_data data error gain mask mask_method background h
  = (h', Ok (d, v, b)) ->
  (error = None -> v = None) /\
  (background = None -> b = None) /\
  (mask = None -> background = None -> d = data).
Proof.
  intros E.
  exact (proj2 (prepare_data_outputs data error gain mask mask_method
                  background h h' (Ok (d, v, b)) (Nat.le_0_l _) E)).
Qed.

Lemma prepare_data_optional_outputs_witness :
  (@None nat = None -> @None nat = None) /\
  (@None scalar_or_array = None -> @None nat = None) /\
  (@None nat = None -> @None scalar_or_array = None -> 0%nat = 0%nat).
Proof.
  exact (prepare_data_optional_outputs 0 None (Some (Scalar (Fin (-1))))
           None "exclude" None Examples.masked_store Examples.masked_store
           0 None None eq_refl).
Defined.

Lemma existsb_broadcast {X} (p : float -> bool) (g : float)
    (d : list (list X)) :
  p g = false -> existsb (existsb p) (map (map (fun _ => g)) d) = false.
Proof.
  intros Hg. induction d as [|row d IH]; cbn; [reflexivity|].
  rewrite IH, orb_false_r. clear IH.
  induction row as [|x row IH]; cbn; [reflexivity | now rewrite Hg, IH].
Qed.

(** X9: The variance image: the square of the error, plus the data divided
    by the gain when a gain above zero is given.  It is a new array, and
    the data are handed back as they came. *)
Theorem prepare_data_variance
    (data e : nat) (gain : option float) (mask_method : string)
    (h : store) (d ea : array2) :
  farrays h !! data = Some d ->
  farrays h !! e = Some ea ->
  shape2 d = shape2 ea ->
  match gain with Some g => fleb g (Fin 0) = false | None => True end ->
  exists h' l var,
    _prepare_data data (Some e) (Scalar <$> gain) None mask_method None h
    = (h', Ok (data, Some l, None)) /\
    (length (farrays h) <= l)%nat /\
    farrays h' !! l = Some var /\
    (forall k, (k < length (farrays h))%nat ->
               farrays h' !! k = farrays h !! k) /\
    forall j i,
      get2 var j i
      = match gain with
        | Some g =>
            match get2 ea j i, get2 d j i with
            | Some err, Some x => Some (fadd (fmul err err) (fdiv x g))
            | _, _ => None
            end
        | None => (fun err => fmul err err) <$> get2 ea j i
        end.
Proof.
  intros Hd He Hs Hg. unfold _prepare_data, _apply_gain.
  assert (Hd1 : forall x, (farrays h ++ [x]) !! data = Some d)
    by (intros x; now apply lookup_app_l_Some).
  destruct gain as [g|]; cbn [fmap option_fmap option_map]; run_monad;
    rewrite ?Hd, ?He; cbn [default from_option id];
    rewrite Hs, shape_eqb_refl; cbn [negb].
  - rewrite Hd1. cbn [default from_option id].
    rewrite shape2_map_map, Hs, shape_eqb_refl. cbn [negb].
    rewrite existsb_broadcast by exact Hg. cbn [farrays barrays iarrays].
    rewrite lookup_snoc_length. cbn [default from_option id].
    eexists _, _, _. split; [reflexivity|].
    cbn [farrays]. rewrite length_app. cbn [length].
    split; [lia|]. split; [|split].
    + replace (length (farrays h) + 1)%nat
        with (length (farrays h ++ [map2 fmul ea ea]))
        by (rewrite length_app; cbn; lia).
      apply lookup_snoc_length.
    + intros k Hk. rewrite !lookup_app_l; [reflexivity | lia |].
      rewrite length_app. lia.
    + intros j i. rewrite !get2_map2, get2_map_map.
      destruct (get2 ea j i), (get2 d j i); reflexivity.
  - eexists _, (length (farrays h)), _. split; [reflexivity|].
    cbn [farrays]. split; [lia|]. split; [|split].
    + apply lookup_snoc_length.
    + intros k Hk. now rewrite lookup_app_l.
    + intros j i. rewrite get2_map2. now destruct (get2 ea j i).
Qed.
End PrepareFacts.

(** ** The list of segment properties *)

Section SegmentListFacts.
Import NP Segmentation.

Lemma init_result_fields data segment_image label label_slice error gain
    mask mask_method background :
  triple 0 (fun _ => True)
    (__init__ data segment_image label label_slice error gain mask
              mask_method background)
    (fun p => Segmentation.label p = label /\ _inputimage p = data /\
              _segment_image p = segment_image /\
              forall sl, label_slice = Some sl -> _slice p = sl).
Proof.
  unfold __init__.
  eapply triple_bind; [apply triple_rdi | intros seg _].
  eapply triple_bind; [apply triple_rd | intros d _].
  destruct (negb _); [apply triple_raise|].
  destruct (label =? 0)%Z; [apply triple_raise|].
  destruct (label <? 0)%Z; [apply triple_raise|].
  eapply triple_bind with (Q := fun _ => True).
  { eapply triple_weaken; [apply prepare_data_frame; intros; exact I|].
    now intros. }
  intros [[image variance] bkg] _.
  eapply triple_bind
    with (Q := fun sl => forall sl0, label_slice = Some sl0 -> sl = sl0).
  - destruct label_slice as [sl|].
    + apply triple_ret. intros sl0 E. now inversion E.
    + eapply triple_bind; [apply triple_lift | intros o _].
      destruct o; [apply triple_ret; discriminate | apply triple_raise].
  - intros sl Hsl. eapply triple_bind with (Q := fun _ => True).
    + destruct (String.eqb mask_method "interpolate").
      * eapply triple_bind; [apply triple_rd | intros img _].
        eapply triple_bind; [apply triple_newb | intros m _].
        now apply triple_ret.
      * now apply triple_ret.
    + intros msk _. apply triple_ret. cbn. repeat split. exact Hsl.
Qed.

Lemma collect_subsequence {X Y} (xs : list X) (f : X -> M (option Y))
    (R : X -> Y -> Prop) :
  (forall x, triple 0 (fun _ => True) (f x)
                    (fun o => forall b, o = Some b -> R x b)) ->
  triple 0 (fun _ => True) (collect xs f)
         (fun bs => exists xs', sublist xs' xs /\ Forall2 R xs' bs).
Proof.
  intros Hf. induction xs as [|x xs IH]; cbn [collect].
  - apply triple_ret. exists []. split; constructor.
  - eapply triple_bind; [apply Hf | intros o Ho].
    eapply triple_bind; [exact IH | intros bs (xs' & Hsub & Hall)].
    apply triple_ret. destruct o as [b|].
    + exists (x :: xs'). split; [now apply sublist_skip|].
      constructor; [now apply Ho | exact Hall].
    + exists xs'. split; [now apply sublist_cons | exact Hall].
Qed.

(** X10: The objects [segment_properties] returns follow the order of the
    labels: they match, one to one and in order, a subsequence of the
    slices found for the labels 1, 2, ...; each object carries the label
    and the slice of its entry, and its label is among those selected. *)
Theorem segment_properties_in_label_order
    data segment_image error gain mask mask_method background labels
    (h h' : store) (ps : list SegmentProperties) :
  segment_properties data segment_image error gain mask mask_method
                     background labels h = (h', Ok ps) ->
  let seg := default [] (iarrays h !! segment_image) in
  let label_ids :=
    match labels with
    | None => filter (fun z => (0 < z)%Z) (concat seg)
    | Some ls => ls
    end in
  exists entries,
    sublist entries (imap (fun i sl => (i, sl)) (find_objects seg)) /\
    Forall2 (fun '(i, sl) p =>
               Segmentation.label p = Z.of_nat (i + 1) /\
               sl = Some (_slice p) /\
               Segmentation.label p ∈ label_ids /\
               _inputimage p = data /\ _segment_image p = segment_image)
            entries ps.
Proof.
  intros E. cbv zeta.
  revert E. unfold segment_properties.
  rewrite bind_unfold. unfold rdi at 1. cbn iota beta.
  rewrite bind_unfold. unfold rd at 1. cbn iota beta.
  destruct (negb _); [discriminate|].
  intros E.
  refine (proj2 (collect_subsequence _ _ _ _ h h' (Ok ps) (Nat.le_0_l _) E)).
  intros [i [sl|]]; [|apply triple_ret; discriminate].
  destruct (bool_decide _) eqn:Hin; [|apply triple_ret; discriminate].
  apply bool_decide_eq_true in Hin.
  eapply triple_bind; [apply init_result_fields|].
  intros p (Hl & Hi & Hg & Hsl). apply triple_ret.
  intros b Eb. inversion Eb; subst b.
  rewrite (Hsl sl eq_refl), Hl. now repeat split.
Qed.

Lemma segment_properties_in_label_order_witness :
  exists entries,
    sublist entries
      (imap (fun i sl => (i, sl)) (find_objects [[1; 1]; [1; 1]]%Z)) /\
    Forall2 (fun '(i, sl) p =>
               Segmentation.label p = Z.of_nat (i + 1) /\
               sl = Some (_slice p) /\
               Segmentation.label p ∈ [1%Z] /\
               _inputimage p = 0%nat /\ _segment_image p = 0%nat)
            entries
            [ {| _inputimage := 0; _segment_image := 0; _image := 0;
                 _variance := None; _background := None; label := 1;
                 _slice := ((0, 2), (0, 2))%nat; _mask := None |} ].
Proof.
  exact (segment_properties_in_label_order 0 0 None None None "exclude"
           None (Some [1%Z]) Examples.masked_store Examples.masked_store
           _ eq_refl).
Defined.

Lemma collect_pure {X Y} (xs : list X) (f : X -> M (option Y))
    (g : X -> option Y) (h : store) :
  (forall x, x ∈ xs -> f x h = (h, Ok (g x))) ->
  collect xs f h = (h, Ok (omap g xs)).
Proof.
  induction xs as [|x xs IH]; intros Hf; cbn [collect]; [reflexivity|].
  rewrite bind_unfold, (Hf x) by now left.
  rewrite bind_unfold, IH by (intros y Hy; apply Hf; now right).
  cbn. now destruct (g x).
Qed.

(** A label for which [find_objects] gives a slice is the value of some
    pixel of the label map. *)
Lemma found_label_in_map (seg : iarray2) (i : nat) (sl : slices) :
  find_objects seg !! i = Some (Some sl) -> Z.of_nat (i + 1) ∈ concat seg.
Proof.
  unfold find_objects. rewrite lookup_map.
  destruct (seq 0 _ !! i) as [k|] eqn:Ek; [|discriminate].
  apply lookup_seq in Ek as [-> _]. cbn [fmap option_fmap option_map].
  rewrite Nat.add_0_l, Nat.add_1_r. intros E.
  assert (Eb : bounding_box (label_positions seg (Z.of_nat (S i))) = Some sl)
    by congruence. clear E.
  destruct (label_positions seg (Z.of_nat (S i))) as [|[j i'] rest] eqn:Ep;
    [discriminate|].
  assert (Hin : (j, i') ∈ label_positions seg (Z.of_nat (S i)))
    by (rewrite Ep; now left).
  unfold label_positions in Hin. apply elem_of_nonzero in Hin.
  rewrite get2_map_map in Hin.
  destruct (get2 seg j i') as [v|] eqn:Hg; [|discriminate].
  cbn [fmap option_fmap option_map] in Hin.
  assert (Heq : (Z.of_nat (S i) =? v)%Z = true) by congruence.
  apply Z.eqb_eq in Heq. subst v.
  unfold get2 in Hg.
  destruct (seg !! j) as [row|] eqn:Hrow; [|discriminate].
  cbn [mbind option_bind] in Hg. rename Hg into Hv.
  apply list_elem_of_In, in_concat. exists row. split; apply list_elem_of_In.
  - eapply list_elem_of_lookup_2, Hrow.
  - eapply list_elem_of_lookup_2, Hv.
Qed.

(** X11: With the default options [segment_properties] returns one object for
    each label that some pixel carries, in increasing label order, each
    with the slice found for its label; labels without a pixel are
    skipped, the images of the objects are the caller's data, and the
    store is left as it was.  The gain is not looked at. *)
Theorem segment_properties_defaults
    (data segment_image : nat) (gain : option scalar_or_array) (h : store)
    (seg : iarray2) (d : array2) :
  iarrays h !! segment_image = Some seg ->
  farrays h !! data = Some d ->
  shape2 seg = shape2 d ->
  segment_properties data segment_image None gain None "exclude" None None h
  = (h, Ok (omap (fun '(i, s) =>
                    (fun sl =>
                       {| _inputimage := data;
                          _segment_image := segment_image;
                          _image := data; _variance := None;
                          _background := None;
                          label := Z.of_nat (i + 1);
                          _slice := sl; _mask := None |}) <$> s)
                 (imap (fun i sl => (i, sl)) (find_objects seg)))).
Proof.
  intros Hseg Hd Hs. unfold segment_properties.
  rewrite bind_unfold. unfold rdi at 1. cbn iota beta. rewrite Hseg.
  rewrite bind_unfold. unfold rd at 1. cbn iota beta. rewrite Hd.
  cbn [default from_option id]. rewrite Hs, shape_eqb_refl. cbn [negb].
  apply collect_pure. intros [i [sl|]] Hin; [|reflexivity].
  apply list_elem_of_lookup in Hin as [k Hk].
  rewrite list_lookup_imap in Hk.
  destruct (find_objects seg !! k) as [o|] eqn:Hfo; [|discriminate].
  cbn in Hk. inversion Hk; subst; clear Hk.
  pose proof (found_label_in_map seg i sl Hfo) as Hmem.
  rewrite bool_decide_eq_true_2
    by (apply list_elem_of_filter; split; [lia | exact Hmem]).
  unfold __init__, _prepare_data. run_monad. rewrite Hseg, Hd.
  cbn [default from_option id]. rewrite Hs, shape_eqb_refl. cbn [negb].
  destruct (Z.eqb_spec (Z.of_nat (i + 1)) 0); [lia|].
  destruct (Z.ltb_spec (Z.of_nat (i + 1)) 0); [lia|].
  reflexivity.
Qed.

Lemma segment_properties_defaults_witness :
  segment_properties 0 0 None None None "exclude" None None
                     Examples.row_store
  = (Examples.row_store,
     Ok (omap (fun '(i, s) =>
                 (fun sl =>
                    {| _inputimage := 0; _segment_image := 0;
                       _image := 0; _variance := None;
                       _background := None;
                       label := Z.of_nat (i + 1);
                       _slice := sl; _mask := None |}) <$> s)
              (imap (fun i sl => (i, sl)) (find_objects [[1; 1]]%Z)))).
Proof.
  apply (segment_properties_defaults 0 0 None Examples.row_store
           [[1; 1]]%Z [[Fin 1; Fin 1]]); reflexivity.
Defined.
End SegmentListFacts.

(** ** What construction refuses, and what it does not check *)

Section ConstructionFailures.
Import NP Segmentation Examples.

Lemma collect_ext_in {X Y} (xs : list X) (f g : X -> M (option Y))
    (h : store) :
  (forall x, x ∈ xs -> forall h0, f x h0 = g x h0) ->
  collect xs f h = collect xs g h.
Proof.
  revert h. induction xs as [|x xs IH]; intros h Hfg; cbn [collect];
    [reflexivity|].
  rewrite !bind_unfold, (Hfg x) by now left.
  destruct (g x h) as [h1 [o|e]]; [|reflexivity].
  rewrite !bind_unfold, IH by (intros y Hy; apply Hfg; now right).
  reflexivity.
Qed.

Lemma label_absent_not_in (seg : iarray2) (l : Z) :
  label_absent seg l = true -> l ∉ concat seg.
Proof.
  intros H Hin. apply list_elem_of_In, in_concat in Hin as (row & Hrow & Hv).
  unfold label_absent in H. rewrite forallb_forall in H.
  specialize (H row Hrow). rewrite forallb_forall in H.
  specialize (H l Hv). now rewrite Z.eqb_refl in H.
Qed.

(** C2 (as amended): construction raises, and returns no object, when
    the image and the label map differ in shape, when the label is 0 or
    negative, when no bounding slice is supplied and no pixel carries
    the label, when a mask is supplied and [mask_method] is not one of
    the two supported values, and when an error array and a gain are
    supplied and the gain is not positive somewhere.  What is not
    checked: without a mask every [mask_method] other than
    ['interpolate'] is taken as ['exclude'] is; without an error array
    the gain has no effect; with a bounding slice supplied a positive
    label is accepted whether or not a pixel carries it; and
    [segment_properties] returns the same with or without a requested
    label that is not positive or that no pixel carries. *)
Theorem C2_construction_failures
    (data segment_image : loc) (label : Z) (label_slice : option slices)
    (error : option loc) (gain : option scalar_or_array)
    (mask : option loc) (mask_method : string)
    (background : option scalar_or_array) (h : store) :
  let r := snd (__init__ data segment_image label label_slice error gain
                         mask mask_method background h) in
  let seg := default [] (iarrays h !! segment_image) in
  let d := default [] (farrays h !! data) in
  (shape2 seg <> shape2 d -> raises r) /\
  (label = 0%Z -> raises r) /\
  ((label < 0)%Z -> raises r) /\
  (label_slice = None -> label_absent seg label = true -> raises r) /\
  (is_Some mask -> mask_method <> "exclude" ->
   mask_method <> "interpolate" -> raises r) /\
  (is_Some error -> forall g, gain = Some g ->
   gain_not_positive h data g -> raises r) /\
  (mask = None -> mask_method <> "interpolate" ->
   __init__ data segment_image label label_slice error gain mask
            mask_method background h
   = __init__ data segment_image label label_slice error gain mask
              "exclude" background h) /\
  (error = None -> forall gain',
   __init__ data segment_image label label_slice error gain' mask
            mask_method background h
   = __init__ data segment_image label label_slice error gain mask
              mask_method background h) /\
  (forall sl, label_slice = Some sl -> (0 < label)%Z ->
   shape2 seg = shape2 d ->
   ~ raises (snd (_prepare_data data error gain mask mask_method
                                background h)) ->
   exists h' p,
     __init__ data segment_image label label_slice error gain mask
              mask_method background h = (h', Ok p)
     /\ Segmentation.label p = label /\ _slice p = sl) /\
  (forall l ls, (l <= 0)%Z \/ label_absent seg l = true ->
   segment_properties data segment_image error gain mask mask_method
                      background (Some (l :: ls)) h
   = segment_properties data segment_image error gain mask mask_method
                        background (Some ls) h).
Proof.
  cbv zeta.
  refine (conj _ (conj _ (conj _ (conj _ (conj _ (conj _ (conj _ (conj _
            (conj _ _))))))))).
  - intros Hs. apply shape_eqb_neq in Hs. unfold __init__.
    rewrite bind_unfold. unfold rdi at 1. cbn iota beta.
    rewrite bind_unfold. unfold rd at 1. cbn iota beta.
    rewrite Hs. exact I.
  - intros ->. unfold __init__.
    rewrite bind_unfold. unfold rdi at 1. cbn iota beta.
    rewrite bind_unfold. unfold rd at 1. cbn iota beta.
    destruct (negb _); exact I.
  - intros Hneg. unfold __init__.
    rewrite bind_unfold. unfold rdi at 1. cbn iota beta.
    rewrite bind_unfold. unfold rd at 1. cbn iota beta.
    destruct (negb _); [exact I|].
    destruct (label =? 0)%Z; [exact I|].
    apply Z.ltb_lt in Hneg. rewrite Hneg. exact I.
  - intros -> Habs. unfold __init__.
    rewrite bind_unfold. unfold rdi at 1. cbn iota beta.
    rewrite bind_unfold. unfold rd at 1. cbn iota beta.
    destruct (negb _); [exact I|].
    destruct (label =? 0)%Z eqn:E0; [exact I|].
    destruct (label <? 0)%Z eqn:E1; [exact I|].
    apply Z.eqb_neq in E0. apply Z.ltb_ge in E1.
    apply bind_raises_r. intros [[image variance] bkg] h1 _.
    apply bind_raises_l. rewrite bind_unfold. unfold lift.
    destruct (find_objects_absent _ label ltac:(lia) Habs) as [-> | Hr].
    + exact I.
    + destruct (getitem _ _); [destruct Hr | exact I].
  - intros [m ->] H1 H2. apply init_raises_when_prepare_raises.
    now apply prepare_data_invalid_method.
  - intros [e ->] g -> Hg. apply init_raises_when_prepare_raises.
    now apply prepare_data_gain_not_positive.
  - intros -> Hm. apply String.eqb_neq in Hm.
    unfold __init__, _prepare_data. rewrite Hm.
    change (String.eqb "exclude" "interpolate") with false. reflexivity.
  - intros -> gain'. reflexivity.
  - intros sl -> Hpos Hshape Hprep. unfold __init__.
    rewrite bind_unfold. unfold rdi at 1. cbn iota beta.
    rewrite bind_unfold. unfold rd at 1. cbn iota beta.
    rewrite Hshape, shape_eqb_refl. cbn [negb].
    destruct (label =? 0)%Z eqn:E0; [apply Z.eqb_eq in E0; lia|].
    destruct (label <? 0)%Z eqn:E1; [apply Z.ltb_lt in E1; lia|].
    rewrite bind_unfold.
    destruct (_prepare_data data error gain mask mask_method background h)
      as [h1 [[[image variance] bkg]|e]]; [|destruct Hprep; exact I].
    cbn iota beta.
    destruct (String.eqb mask_method "interpolate"); run_monad;
      eexists _, _; (split; [reflexivity|]); split; reflexivity.
  - intros l ls Hl. unfold segment_properties.
    rewrite !bind_unfold. unfold rdi at 1 2. cbn iota beta.
    rewrite !bind_unfold. unfold rd at 1 2. cbn iota beta.
    destruct (negb _); [reflexivity|].
    apply collect_ext_in. intros [i [sl|]] Hin h0; [|reflexivity].
    apply elem_of_lookup_imap in Hin as (i' & o & E & Hi).
    injection E as Ei Eo. subst i o.
    pose proof (found_label_in_map _ _ _ Hi) as Hfound.
    assert (Hne : Z.of_nat (i' + 1) <> l).
    { intros <-. destruct Hl as [Hl | Hl]; [lia|].
      exact (label_absent_not_in _ _ Hl Hfound). }
    cbv zeta.
    assert (Hb : bool_decide (Z.of_nat (i' + 1) ∈ l :: ls)
                 = bool_decide (Z.of_nat (i' + 1) ∈ ls)).
    { apply bool_decide_ext. rewrite elem_of_cons. tauto. }
    now rewrite Hb.
Qed.

Lemma C2_construction_failures_witness :
  raises (snd (__init__ 0 0 1 None None None None "exclude" None
                        mismatched_store)) /\
  raises (snd (__init__ 0 0 0 None None None None "exclude" None
                        masked_store)) /\
  raises (snd (__init__ 0 0 (-1) None None None None "exclude" None
                        masked_store)) /\
  raises (snd (__init__ 0 0 2 None None None None "exclude" None
                        masked_store)) /\
  raises (snd (__init__ 0 0 1 None None None (Some 0%nat) "bogus" None
                        masked_store)) /\
  raises (snd (__init__ 0 0 1 None (Some 0%nat)
                        (Some (Scalar (Fin (-1)))) None "exclude" None
                        masked_store)).
Proof.
  refine (conj _ (conj _ (conj _ (conj _ (conj _ _))))).
  - apply (proj1 (C2_construction_failures 0 0 1 None None None None
                    "exclude" None mismatched_store)).
    vm_compute. discriminate.
  - apply (proj1 (proj2 (C2_construction_failures 0 0 0 None None None
                    None "exclude" None masked_store))).
    reflexivity.
  - apply (proj1 (proj2 (proj2 (C2_construction_failures 0 0 (-1) None
                    None None None "exclude" None masked_store)))).
    reflexivity.
  - apply (proj1 (proj2 (proj2 (proj2 (C2_construction_failures 0 0 2
                    None None None None "exclude" None masked_store)))));
      reflexivity.
  - apply (proj1 (proj2 (proj2 (proj2 (proj2 (C2_construction_failures
                    0 0 1 None None None (Some 0%nat) "bogus" None
                    masked_store)))))).
    + exists 0%nat. reflexivity.
    + discriminate.
    + discriminate.
  - apply (proj1 (proj2 (proj2 (proj2 (proj2 (proj2
                    (C2_construction_failures
                       0 0 1 None (Some 0%nat) (Some (Scalar (Fin (-1))))
                       None "exclude" None masked_store))))))
             (ex_intro _ 0%nat eq_refl) (Scalar (Fin (-1))) eq_refl).
    split; [reflexivity|]. exists (Fin 1). reflexivity.
Defined.

(** C2, counterexample: without a mask an unsupported [mask_method] is
    accepted, without an error array a negative gain is accepted, and
    with a bounding slice supplied a label that no pixel carries is
    accepted: the three constructions return an object.  Likewise
    [segment_properties] skips a requested label that is absent. *)
Lemma C2_counterexample :
  ~ raises (snd (__init__ 0 0 1 None None None None "bogus" None
                          masked_store)) /\
  ~ raises (snd (__init__ 0 0 1 None None (Some (Scalar (Fin (-1)))) None
                          "exclude" None masked_store)) /\
  ~ raises (snd (__init__ 0 0 5 (Some ((0, 2), (0, 2))%nat) None None None
                          "exclude" None masked_store)) /\
  segment_properties 0 0 None None None "exclude" None (Some [5%Z])
                     masked_store = (masked_store, Ok []).
Proof.
  split; [|split; [|split]]; vm_compute; try (intros H; exact H).
  reflexivity.
Qed.
End ConstructionFailures.

(** ** Extreme values of a segment *)

Section ExtremeFacts.
Import NP Segmentation SegmentStatistics.

Lemma Qltb_lt (a b : Q) : Qltb a b = true <-> (a < b)%Q.
Proof.
  unfold Qltb. rewrite Qlt_alt. destruct (a ?= b)%Q; split; congruence.
Qed.

Lemma fleb_Fin (a b : Q) : fleb (Fin a) (Fin b) = true <-> (a <= b)%Q.
Proof.
  unfold fleb. cbn. rewrite orb_true_iff, Qltb_lt, Qeq_bool_iff.
  symmetry. apply Qle_lteq.
Qed.

Lemma fltb_Fin_false (a b : Q) :
  fltb (Fin a) (Fin b) = false <-> (b <= a)%Q.
Proof.
  cbn. rewrite <- not_true_iff_false, Qltb_lt. split.
  - apply Qnot_lt_le.
  - intros H1 H2. exact (Qlt_not_le _ _ H2 H1).
Qed.

Lemma feqb_refl (x : float) : isfinite x = true -> feqb x x = true.
Proof. destruct x; try discriminate. intros _. apply Qeq_bool_refl. Qed.

Lemma fmin_spec (a b : Q) :
  exists c, fmin (Fin a) (Fin b) = Fin c /\ (c = a \/ c = b) /\
            (c <= a)%Q /\ (c <= b)%Q.
Proof.
  unfold fmin. cbn [isnan orb]. destruct (fltb (Fin b) (Fin a)) eqn:E.
  - exists b. repeat split; [now right | | apply Qle_refl].
    apply Qlt_le_weak. now apply Qltb_lt.
  - exists a. repeat split; [now left | apply Qle_refl |].
    now apply fltb_Fin_false.
Qed.

Lemma fmax_spec (a b : Q) :
  exists c, fmax (Fin a) (Fin b) = Fin c /\ (c = a \/ c = b) /\
            (a <= c)%Q /\ (b <= c)%Q.
Proof.
  unfold fmax. cbn [isnan orb]. destruct (fltb (Fin a) (Fin b)) eqn:E.
  - exists b. repeat split; [now right | | apply Qle_refl].
    apply Qlt_le_weak. now apply Qltb_lt.
  - exists a. repeat split; [now left | apply Qle_refl |].
    now apply fltb_Fin_false.
Qed.

Lemma foldl_fmin_finite (rest : array1) (a : Q) :
  all_finite1 rest = true ->
  exists c, foldl fmin (Fin a) rest = Fin c /\
            Fin c ∈ Fin a :: rest /\
            forall v, v ∈ Fin a :: rest -> fleb (Fin c) v = true.
Proof.
  revert a. induction rest as [|y rest IH]; intros a Hfin.
  - exists a. cbn. repeat split; [now left|].
    intros v Hv. apply list_elem_of_singleton in Hv as ->.
    apply fleb_Fin, Qle_refl.
  - cbn in Hfin. apply andb_prop in Hfin as [Hy Hfin].
    destruct y as [b| | |]; try discriminate. cbn [foldl].
    destruct (fmin_spec a b) as (c0 & -> & Hc0 & Hca & Hcb).
    destruct (IH c0 Hfin) as (c & Hc & Hin & Hle).
    exists c. split; [exact Hc|]. split.
    + apply elem_of_cons in Hin as [E | Hin].
      * rewrite E. destruct Hc0 as [-> | ->];
          [now left | right; now left].
      * right. now right.
    + assert (Hcc0 : (c <= c0)%Q)
        by (apply fleb_Fin, Hle; now left).
      intros v Hv. apply elem_of_cons in Hv as [-> | Hv].
      * apply fleb_Fin. eapply Qle_trans; eassumption.
      * apply elem_of_cons in Hv as [-> | Hv].
        -- apply fleb_Fin. eapply Qle_trans; eassumption.
        -- apply Hle. now right.
Qed.

Lemma foldl_fmax_finite (rest : array1) (a : Q) :
  all_finite1 rest = true ->
  exists c, foldl fmax (Fin a) rest = Fin c /\
            Fin c ∈ Fin a :: rest /\
            forall v, v ∈ Fin a :: rest -> fleb v (Fin c) = true.
Proof.
  revert a. induction rest as [|y rest IH]; intros a Hfin.
  - exists a. cbn. repeat split; [now left|].
    intros v Hv. apply list_elem_of_singleton in Hv as ->.
    apply fleb_Fin, Qle_refl.
  - cbn in Hfin. apply andb_prop in Hfin as [Hy Hfin].
    destruct y as [b| | |]; try discriminate. cbn [foldl].
    destruct (fmax_spec a b) as (c0 & -> & Hc0 & Hca & Hcb).
    destruct (IH c0 Hfin) as (c & Hc & Hin & Hle).
    exists c. split; [exact Hc|]. split.
    + apply elem_of_cons in Hin as [E | Hin].
      * rewrite E. destruct Hc0 as [-> | ->];
          [now left | right; now left].
      * right. now right.
    + assert (Hcc0 : (c0 <= c)%Q)
        by (apply fleb_Fin, Hle; now left).
      intros v Hv. apply elem_of_cons in Hv as [-> | Hv].
      * apply fleb_Fin. eapply Qle_trans; eassumption.
      * apply elem_of_cons in Hv as [-> | Hv].
        -- apply fleb_Fin. eapply Qle_trans; eassumption.
        -- apply Hle. now right.
Qed.

(** X12: For a segment with at least one value, all of them finite, the
    minimum and the maximum are values of the segment and bound every
    value. *)
Theorem min_max_value_bounds (h : store) (self : SegmentProperties) :
  values h self <> [] ->
  all_finite1 (values h self) = true ->
  exists lo hi,
    min_value h self = Ok lo /\ max_value h self = Ok hi /\
    lo ∈ values h self /\ hi ∈ values h self /\
    forall v, v ∈ values h self ->
              fleb lo v = true /\ fleb v hi = true.
Proof.
  unfold min_value, max_value. intros Hne Hfin.
  destruct (values h self) as [|x rest]; [contradiction|].
  cbn in Hfin. apply andb_prop in Hfin as [Hx Hfin].
  destruct x as [a| | |]; try discriminate.
  destruct (foldl_fmin_finite rest a Hfin) as (lo & Elo & Ilo & Hlo).
  destruct (foldl_fmax_finite rest a Hfin) as (hi & Ehi & Ihi & Hhi).
  exists (Fin lo), (Fin hi). cbn [np_min np_max]. rewrite Elo, Ehi.
  repeat split; auto.
Qed.

Lemma min_max_value_bounds_witness :
  exists lo hi,
    min_value Examples.masked_store Examples.row_segment = Ok lo /\
    max_value Examples.masked_store Examples.row_segment = Ok hi /\
    lo ∈ values Examples.masked_store Examples.row_segment /\
    hi ∈ values Examples.masked_store Examples.row_segment /\
    forall v, v ∈ values Examples.masked_store Examples.row_segment ->
              fleb lo v = true /\ fleb v hi = true.
Proof.
  apply (min_max_value_bounds Examples.masked_store Examples.row_segment).
  - discriminate.
  - reflexivity.
Defined.

(** X13: A segment all of whose pixels are masked out has no value: its area
    is 0, and its minimum and maximum, and their positions, fail. *)
Theorem fully_masked_segment (h : store) (self : SegmentProperties) :
  forallb (forallb (fun b : bool => b)) (_local_mask h self) = true ->
  values h self = [] /\ area h self = 0%nat /\
  raises (min_value h self) /\ raises (max_value h self) /\
  raises (minval_local_pos h self) /\ raises (maxval_local_pos h self).
Proof.
  intros Hall.
  assert (E : values h self = []).
  { unfold values. apply select_none. rewrite forallb_map_comp.
    revert Hall. apply forallb_weaken. intros row Hrow.
    rewrite forallb_map_comp. revert Hrow. apply forallb_weaken.
    now intros [|]. }
  unfold area, minval_local_pos, maxval_local_pos, min_value, max_value.
  rewrite E. cbn. repeat split.
Qed.

Lemma fully_masked_segment_witness :
  values Examples.hidden_store Examples.hidden_segment = [] /\
  area Examples.hidden_store Examples.hidden_segment = 0%nat /\
  raises (min_value Examples.hidden_store Examples.hidden_segment) /\
  raises (max_value Examples.hidden_store Examples.hidden_segment) /\
  raises (minval_local_pos Examples.hidden_store Examples.hidden_segment) /\
  raises (maxval_local_pos Examples.hidden_store Examples.hidden_segment).
Proof.
  apply (fully_masked_segment Examples.hidden_store Examples.hidden_segment).
  reflexivity.
Defined.

(** *** A NaN among the values *)

Lemma foldl_fmin_nan (rest : array1) : foldl fmin NaN rest = NaN.
Proof. induction rest as [|y rest IH]; cbn; [reflexivity | exact IH]. Qed.

Lemma foldl_fmax_nan (rest : array1) : foldl fmax NaN rest = NaN.
Proof. induction rest as [|y rest IH]; cbn; [reflexivity | exact IH]. Qed.

Lemma foldl_fmin_has_nan (rest : array1) (x : float) :
  NaN ∈ x :: rest -> foldl fmin x rest = NaN.
Proof.
  revert x. induction rest as [|y rest IH]; intros x Hin.
  - apply list_elem_of_singleton in Hin as <-. reflexivity.
  - cbn [foldl]. apply elem_of_cons in Hin as [<- | Hin].
    + apply foldl_fmin_nan.
    + apply IH. apply elem_of_cons in Hin as [<- | Hin].
      * replace (fmin x NaN) with NaN
          by (unfold fmin; now rewrite orb_true_r).
        now left.
      * now right.
Qed.

Lemma foldl_fmax_has_nan (rest : array1) (x : float) :
  NaN ∈ x :: rest -> foldl fmax x rest = NaN.
Proof.
  revert x. induction rest as [|y rest IH]; intros x Hin.
  - apply list_elem_of_singleton in Hin as <-. reflexivity.
  - cbn [foldl]. apply elem_of_cons in Hin as [<- | Hin].
    + apply foldl_fmax_nan.
    + apply IH. apply elem_of_cons in Hin as [<- | Hin].
      * replace (fmax x NaN) with NaN
          by (unfold fmax; now rewrite orb_true_r).
        now left.
      * now right.
Qed.

Lemma map2_all_false {X Y} (f : X -> Y -> bool) (a : list (list X))
    (b : list (list Y)) :
  (forall x y, f x y = false) ->
  forallb (forallb negb) (map2 f a b) = true.
Proof.
  intros Hf. unfold map2. revert b.
  induction a as [|ra a IH]; intros [|rb b]; cbn; try reflexivity.
  rewrite IH, andb_true_r. clear IH. revert rb.
  induction ra as [|x ra IHr]; intros [|y rb]; cbn; try reflexivity.
  now rewrite Hf, IHr.
Qed.

(** X14: A NaN among the values of a segment makes its minimum and maximum
    NaN; no pixel compares equal to NaN, so the positions of the minimum
    and of the maximum fail with an IndexError. *)
Theorem nan_value_in_segment (h : store) (self : SegmentProperties) :
  NaN ∈ values h self ->
  min_value h self = Ok NaN /\ max_value h self = Ok NaN /\
  minval_local_pos h self = Raise (IndexError "index out of bounds") /\
  maxval_local_pos h self = Raise (IndexError "index out of bounds").
Proof.
  intros Hin.
  assert (Emin : min_value h self = Ok NaN).
  { unfold min_value. destruct (values h self) as [|x rest];
      [inversion Hin|]. cbn. now rewrite foldl_fmin_has_nan. }
  assert (Emax : max_value h self = Ok NaN).
  { unfold max_value. destruct (values h self) as [|x rest];
      [inversion Hin|]. cbn. now rewrite foldl_fmax_has_nan. }
  assert (Epos : argwhere_equal h self NaN = []).
  { unfold argwhere_equal. apply nonzero_all_false, map2_all_false.
    intros x b. rewrite andb_false_iff. right. now destruct x. }
  unfold minval_local_pos, maxval_local_pos.
  rewrite Emin, Emax. cbn [rbind]. rewrite Epos. repeat split.
Qed.

Lemma nan_value_in_segment_witness :
  min_value Examples.nan_store Examples.row_segment = Ok NaN /\
  max_value Examples.nan_store Examples.row_segment = Ok NaN /\
  minval_local_pos Examples.nan_store Examples.row_segment
    = Raise (IndexError "index out of bounds") /\
  maxval_local_pos Examples.nan_store Examples.row_segment
    = Raise (IndexError "index out of bounds").
Proof.
  apply (nan_value_in_segment Examples.nan_store Examples.row_segment).
  right. left.
Defined.

(** *** The position of the minimum *)

Lemma elem_of_select_row (row : array1) (grow : list bool) (x : float) :
  x ∈ omap (fun o => o)
        (zip_with (fun v (g : bool) => if g then Some v else None) row grow)
  -> exists i, row !! i = Some x /\ grow !! i = Some true.
Proof.
  revert grow. induction row as [|v row IH]; intros [|g grow]; cbn;
    try (intros H; now inversion H).
  destruct g.
  - intros H. apply elem_of_cons in H as [-> | H]; [now exists 0%nat|].
    destruct (IH grow H) as (i & H1 & H2). now exists (S i).
  - intros H. destruct (IH grow H) as (i & H1 & H2). now exists (S i).
Qed.

Lemma elem_of_select (a : array2) (good : barray2) (x : float) :
  x ∈ select a good ->
  exists j i, get2 a j i = Some x /\ get2 good j i = Some true.
Proof.
  unfold select. revert good.
  induction a as [|row a IH]; intros [|grow good]; cbn;
    try (intros H; now inversion H).
  intros H. apply elem_of_app in H as [H | H].
  - apply elem_of_select_row in H as (i & H1 & H2). now exists 0%nat, i.
  - destruct (IH good H) as (j & i & H1 & H2). now exists (S j), i.
Qed.

(** X15: For a segment with at least one value, all of them finite, the
    position of the minimum is that of a pixel of the cutout that is not
    masked out and whose value equals the minimum; likewise for the
    maximum. *)
Theorem extreme_positions (h : store) (self : SegmentProperties) :
  values h self <> [] ->
  all_finite1 (values h self) = true ->
  exists lo hi jlo ilo jhi ihi xlo xhi,
    min_value h self = Ok lo /\ max_value h self = Ok hi /\
    minval_local_pos h self = Ok (jlo, ilo) /\
    maxval_local_pos h self = Ok (jhi, ihi) /\
    get2 (data_cutout h self) jlo ilo = Some xlo /\ feqb xlo lo = true /\
    get2 (_local_mask h self) jlo ilo = Some false /\
    get2 (data_cutout h self) jhi ihi = Some xhi /\ feqb xhi hi = true /\
    get2 (_local_mask h self) jhi ihi = Some false.
Proof.
  intros Hne Hfin.
  assert (Pos : forall v, v ∈ values h self ->
            exists j i x,
              getitem (argwhere_equal h self v) 0 = Ok (j, i) /\
              get2 (data_cutout h self) j i = Some x /\
              feqb x v = true /\
              get2 (_local_mask h self) j i = Some false).
  { intros v Hv.
    assert (Fv : isfinite v = true).
    { unfold all_finite1 in Hfin. rewrite forallb_forall in Hfin.
      apply Hfin. now apply list_elem_of_In. }
    unfold values in Hv. apply elem_of_select in Hv as (j & i & Hd & Hg).
    rewrite get2_map_map in Hg.
    destruct (get2 (_local_mask h self) j i) as [b|] eqn:Hb;
      [|discriminate].
    assert (b = false) by (destruct b; [discriminate | reflexivity]).
    subst b.
    assert (Hin : (j, i) ∈ argwhere_equal h self v).
    { unfold argwhere_equal. apply elem_of_nonzero.
      rewrite get2_map2, Hd, Hb. cbn. now rewrite feqb_refl. }
    destruct (argwhere_equal h self v) as [|[j0 i0] rest] eqn:Ea;
      [inversion Hin|].
    assert (Hin0 : (j0, i0) ∈ argwhere_equal h self v)
      by (rewrite Ea; now left).
    unfold argwhere_equal in Hin0. apply elem_of_nonzero in Hin0.
    rewrite get2_map2 in Hin0.
    destruct (get2 (data_cutout h self) j0 i0) as [x0|] eqn:Hd0;
      [|discriminate].
    destruct (get2 (_local_mask h self) j0 i0) as [b0|] eqn:Hm0;
      [|discriminate].
    assert (Hc : negb b0 && feqb x0 v = true) by congruence.
    apply andb_prop in Hc as [Hb0 Hx0].
    destruct b0; [discriminate|].
    exists j0, i0, x0. repeat split; assumption. }
  pose proof Hne as Hne'. pose proof Hfin as Hfin'.
  unfold minval_local_pos, maxval_local_pos, min_value, max_value in *.
  destruct (values h self) as [|x rest] eqn:Ev; [contradiction|].
  cbn in Hfin'. apply andb_prop in Hfin' as [Hx Hrest].
  destruct x as [a| | |]; try discriminate.
  destruct (foldl_fmin_finite rest a Hrest) as (lo & Elo & Ilo & _).
  destruct (foldl_fmax_finite rest a Hrest) as (hi & Ehi & Ihi & _).
  destruct (Pos _ Ilo) as (jlo & ilo & xlo & G1 & D1 & F1 & M1).
  destruct (Pos _ Ihi) as (jhi & ihi & xhi & G2 & D2 & F2 & M2).
  exists (Fin lo), (Fin hi), jlo, ilo, jhi, ihi, xlo, xhi.
  cbn [np_min np_max rbind]. rewrite Elo, Ehi, G1, G2.
  repeat split; assumption.
Qed.

Lemma extreme_positions_witness :
  exists lo hi jlo ilo jhi ihi xlo xhi,
    min_value Examples.masked_store Examples.row_segment = Ok lo /\
    max_value Examples.masked_store Examples.row_segment = Ok hi /\
    minval_local_pos Examples.masked_store Examples.row_segment
      = Ok (jlo, ilo) /\
    maxval_local_pos Examples.masked_store Examples.row_segment
      = Ok (jhi, ihi) /\
    get2 (data_cutout Examples.masked_store Examples.row_segment) jlo ilo
      = Some xlo /\ feqb xlo lo = true /\
    get2 (_local_mask Examples.masked_store Examples.row_segment) jlo ilo
      = Some false /\
    get2 (data_cutout Examples.masked_store Examples.row_segment) jhi ihi
      = Some xhi /\ feqb xhi hi = true /\
    get2 (_local_mask Examples.masked_store Examples.row_segment) jhi ihi
      = Some false.
Proof.
  apply (extreme_positions Examples.masked_store Examples.row_segment).
  - discriminate.
  - reflexivity.
Defined.
End ExtremeFacts.

(** ** The table of properties *)

Section TableFacts.
Import PropertiesTable.
Variable props : Type.
Variable value : Type.
Variable getattr : props -> string -> result value.
Variable is_quantity : value -> bool.

Lemma sequence_length {X} (l : list (result X)) (vs : list X) :
  sequence l = Ok vs -> length vs = length l.
Proof.
  revert vs. induction l as [|r l IH]; intros vs; cbn.
  - intros E. now inversion E.
  - destruct r as [v|e]; cbn; [|discriminate].
    destruct (sequence l) as [ws|e]; cbn; [|discriminate].
    intros E. inversion E; subst. cbn. now rewrite (IH ws).
Qed.

Lemma setitem_names_fresh (t : list (string * column value))
    (name : string) (c : column value) :
  name ∉ map fst t -> map fst (setitem value t name c) = map fst t ++ [name].
Proof.
  induction t as [|[n c0] t IH]; cbn; [reflexivity|].
  intros Hnot. destruct (String.eqb_spec n name) as [->|Hne].
  - exfalso. apply Hnot. now left.
  - cbn. rewrite IH; [reflexivity|]. intros H. apply Hnot. now right.
Qed.

Lemma setitem_Forall (P : string * column value -> Prop)
    (t : list (string * column value)) (name : string) (c : column value) :
  Forall P t -> P (name, c) -> Forall P (setitem value t name c).
Proof.
  intros Ht Hc. induction Ht as [|[n c0] t Hn Ht IH]; cbn.
  - now constructor.
  - destruct (String.eqb_spec n name) as [->|Hne]; now constructor.
Qed.

Lemma fill_columns (ps : list props) (cs : list string)
    (t0 t : list (string * column value)) :
  let good := fun '(name, col) =>
    sequence (map (fun p => getattr p name) ps) = Ok (column_values value col)
    /\ length (column_values value col) = length ps in
  NoDup cs ->
  (forall name, name ∈ cs -> name ∉ map fst t0) ->
  Forall good t0 ->
  fill props value getattr is_quantity ps cs t0 = Ok t ->
  map fst t = map fst t0 ++ cs /\ Forall good t.
Proof.
  intros good Hnd. revert t0.
  induction cs as [|c cs IH]; intros t0 Hfresh Hgood; cbn [fill].
  - intros E. inversion E; subst. now rewrite app_nil_r.
  - destruct (sequence (map (fun p => getattr p c) ps)) as [vs|e] eqn:Es;
      cbn [rbind]; [|discriminate].
    destruct (getitem vs 0) as [first|e]; cbn [rbind]; [|discriminate].
    intros E. apply NoDup_cons in Hnd as [Hc Hnd].
    assert (Hc0 : c ∉ map fst t0) by (apply Hfresh; now left).
    apply IH in E; [| exact Hnd | |].
    + destruct E as [E1 E2]. split; [|exact E2].
      rewrite E1, setitem_names_fresh by exact Hc0.
      now rewrite <- app_assoc.
    + intros name Hname. rewrite setitem_names_fresh by exact Hc0.
      rewrite elem_of_app. intros [H | H].
      * revert H. apply Hfresh. now right.
      * apply list_elem_of_singleton in H. subst. contradiction.
    + apply setitem_Forall; [exact Hgood|].
      assert (Hlen : length vs = length ps).
      { rewrite (sequence_length _ _ Es). apply length_map. }
      destruct (is_quantity first); cbn; split; assumption.
Qed.

Lemma distinct_NoDup (names : list string) :
  distinct names = true -> NoDup names.
Proof.
  induction names as [|n rest IH]; cbn; [constructor|].
  intros H. apply andb_prop in H as [Hn Hrest].
  constructor; [|now apply IH].
  intros Hin. apply list_elem_of_In in Hin.
  assert (E : existsb (String.eqb n) rest = true).
  { apply existsb_exists. exists n. split; [exact Hin|].
    apply String.eqb_refl. }
  now rewrite E in Hn.
Qed.

Lemma columns_all_NoDup : NoDup columns_all.
Proof. apply distinct_NoDup. vm_compute. reflexivity. Qed.

(** X16: When the table is built, its columns are the selected names in the
    selected order (the given [columns], which override
    [exclude_columns], or else the default names without the excluded
    ones), and each column holds the attribute of that name of every
    object, one row per object in the order of the objects. *)
Theorem properties_table_columns (ps : list props)
    (columns exclude_columns : option (list string))
    (t : list (string * column value)) :
  match columns with Some cs => NoDup cs | None => True end ->
  properties_table props value getattr is_quantity ps columns
                   exclude_columns = Ok t ->
  map fst t = match columns, exclude_columns with
              | Some cs, _ => cs
              | None, Some ex => filter (fun s => s ∉ ex) columns_all
              | None, None => columns_all
              end /\
  Forall (fun '(name, col) =>
            sequence (map (fun p => getattr p name) ps)
            = Ok (column_values value col) /\
            length (column_values value col) = length ps) t.
Proof.
  intros Hnd E. unfold properties_table in E.
  apply fill_columns in E.
  - destruct E as [E1 E2]. split; [|exact E2]. rewrite E1.
    unfold select_columns. now destruct columns, exclude_columns.
  - unfold select_columns. destruct columns as [cs|]; [exact Hnd|].
    destruct exclude_columns as [ex|].
    + apply NoDup_filter, columns_all_NoDup.
    + apply columns_all_NoDup.
  - intros name _ H. inversion H.
  - constructor.
Qed.

(** X17: Without any object the table cannot be built: the first column
    already fails with an IndexError, whatever names are selected. *)
Theorem properties_table_no_object
    (columns exclude_columns : option (list string)) :
  select_columns columns exclude_columns <> [] ->
  properties_table props value getattr is_quantity [] columns
                   exclude_columns
  = Raise (IndexError "index out of bounds").
Proof.
  unfold properties_table. intros Hne.
  destruct (select_columns columns exclude_columns) as [|c cs];
    [contradiction | reflexivity].
Qed.
End TableFacts.

Lemma properties_table_columns_witness :
  map fst [("id", PropertiesTable.Plain nat [1%nat; 2%nat]);
           ("area", PropertiesTable.Plain nat [1%nat; 2%nat])]
  = ["id"; "area"] /\
  Forall (fun '(name, col) =>
            sequence (map (fun p : nat => Ok p) [1%nat; 2%nat])
            = Ok (PropertiesTable.column_values nat col) /\
            length (PropertiesTable.column_values nat col)
            = length [1%nat; 2%nat])
         [("id", PropertiesTable.Plain nat [1%nat; 2%nat]);
          ("area", PropertiesTable.Plain nat [1%nat; 2%nat])].
Proof.
  apply (properties_table_columns nat nat (fun p _ => Ok p)
           (fun _ => false) [1%nat; 2%nat] (Some ["id"; "area"])
           (Some ["id"])).
  - apply distinct_NoDup. reflexivity.
  - reflexivity.
Defined.

Lemma properties_table_no_object_witness :
  PropertiesTable.properties_table nat nat (fun p _ => Ok p)
    (fun _ => false) [] None None
  = Raise (IndexError "index out of bounds").
Proof.
  apply (properties_table_no_object nat nat (fun p _ => Ok p)
           (fun _ => false) None None).
  discriminate.
Defined.

(** ** Truncation and floor *)

Section RoundingFacts.
Import NP.
Local Open Scope Q_scope.

Lemma Qtrunc_nonneg (q : Q) : 0 <= q -> Qtrunc q = Qfloor q.
Proof.
  destruct q as [n d]. unfold Qle, Qtrunc, Qfloor. cbn. intros H.
  apply Z.quot_div_nonneg; lia.
Qed.

Lemma Qtrunc_nonpos (q : Q) : q <= 0 -> Qtrunc q = Qceiling q.
Proof.
  destruct q as [n d]. unfold Qle, Qtrunc, Qceiling, Qfloor. cbn. intros H.
  rewrite <- (Z.opp_involutive n) at 1. rewrite Z.quot_opp_l by lia.
  f_equal. apply Z.quot_div_nonneg; lia.
Qed.

Lemma Qtrunc_inject_Z (z : Z) : Qtrunc (inject_Z z) = z.
Proof. unfold Qtrunc. cbn. apply Z.quot_1_r. Qed.

(** Truncation moves a value by less than 1. *)
Lemma Qtrunc_near (q : Q) :
  q - 1 < inject_Z (Qtrunc q) /\ inject_Z (Qtrunc q) < q + 1.
Proof.
  destruct (Qlt_le_dec q 0) as [Hneg | Hpos].
  - rewrite Qtrunc_nonpos by now apply Qlt_le_weak.
    pose proof (Qle_ceiling q) as H1. pose proof (Qceiling_lt q) as H2.
    unfold Z.sub in H2. rewrite inject_Z_plus in H2.
    change (inject_Z (- (1))) with (- (1)) in H2.
    generalize dependent (inject_Z (Qceiling q)). intros c H1 H2.
    split; Lqa.lra.
  - rewrite Qtrunc_nonneg by exact Hpos.
    pose proof (Qfloor_le q) as H1. pose proof (Qlt_floor q) as H2.
    rewrite inject_Z_plus in H2. change (inject_Z 1) with 1 in H2.
    generalize dependent (inject_Z (Qfloor q)). intros c H1 H2.
    split; Lqa.lra.
Qed.

End RoundingFacts.

(** ** [IntegratedGaussianPRF.bounding_box] *)

Section BoundingBoxFacts.
Import PrimFloat SpecFloat FloatOps FloatAxioms.
Import IntegratedGaussianPRF.

Lemma isfinite_special (x : float) :
  isfinite x = negb (special (Prim2SF x)).
Proof. reflexivity. Qed.

Lemma int_of_special (v : float) :
  special (Prim2SF v) = true -> raises (int_of_float v).
Proof. unfold int_of_float. now destruct (Prim2SF v). Qed.

(** A difference or a sum with a NaN or an infinity is a NaN or an
    infinity. *)
Lemma sub_special (x y : float) :
  special (Prim2SF x) || special (Prim2SF y) = true ->
  special (Prim2SF (x - y)) = true.
Proof.
  rewrite sub_spec. unfold SF64sub, SFsub.
  destruct (Prim2SF x) as [sx|sx| |sx mx ex],
    (Prim2SF y) as [sy|sy| |sy my ey]; cbn; try reflexivity;
    try discriminate; destruct sx, sy; reflexivity.
Qed.

Lemma mul4_special (x : float) :
  special (Prim2SF x) = true -> special (Prim2SF (4 * x)) = true.
Proof.
  rewrite mul_spec.
  change (Prim2SF 4) with (S754_finite false 4503599627370496 (-50)).
  unfold SF64mul, SFmul. now destruct (Prim2SF x).
Qed.

(** X18: [bounding_box] raises whenever [x_0], [y_0] or the half width
    [4 * sigma] is a NaN or an infinity; the half width is one for every
    [sigma] that is a NaN or an infinity, and also for a finite [sigma]
    so large that [4 * sigma] overflows.  The flux plays no part. *)
Theorem bounding_box_not_finite (self : t) :
  (isfinite (sigma self) = false -> isfinite (4 * sigma self) = false)
  /\ (isfinite (4 * sigma self) && isfinite (x_0 self)
      && isfinite (y_0 self) = false ->
      raises (bounding_box self)).
Proof.
  rewrite !isfinite_special. split.
  - rewrite !negb_false_iff. apply mul4_special.
  - intros H. unfold bounding_box. cbv zeta.
    set (hw := (4 * sigma self)%float) in *.
    destruct (special (Prim2SF (y_0 self))) eqn:Hy.
    { pose proof (int_of_special (y_0 self - hw)
                    (sub_special _ _ ltac:(now rewrite Hy))) as R.
      destruct (int_of_float (y_0 self - hw)); [destruct R | exact I]. }
    destruct (special (Prim2SF hw)) eqn:Hw.
    { pose proof (int_of_special (y_0 self - hw)
                    (sub_special _ _ ltac:(now rewrite Hy, Hw)))
        as R.
      destruct (int_of_float (y_0 self - hw)); [destruct R | exact I]. }
    destruct (special (Prim2SF (x_0 self))) eqn:Hx; [|discriminate].
    destruct (int_of_float (y_0 self - hw)); [|exact I]. cbn [rbind].
    destruct (int_of_float (y_0 self + hw)); [|exact I]. cbn [rbind].
    pose proof (int_of_special (x_0 self - hw)
                  (sub_special _ _ ltac:(now rewrite Hx))) as R.
    destruct (int_of_float (x_0 self - hw)); [destruct R | exact I].
Qed.

(** A finite [sigma] of 2^1022, with the centre at the origin: four
    times it overflows. *)
Lemma bounding_box_not_finite_witness :
  isfinite 0x1p1022 = true
  /\ raises (bounding_box {| flux := 1; x_0 := 0; y_0 := 0;
                             sigma := 0x1p1022 |}).
Proof.
  split; [reflexivity|].
  apply (proj2 (bounding_box_not_finite
                  {| flux := 1; x_0 := 0; y_0 := 0; sigma := 0x1p1022 |})).
  reflexivity.
Defined.
End BoundingBoxFacts.

(** ** [get_grouped_psf_model] *)

Section GroupedFacts.
Import NP GroupedPSF.

Lemma grouped_loop (tpl : gmap string float) (stars : list star) (g : model) :
  exists g',
    foldl (fun group_psf row =>
             match group_psf with
             | None => Some (Single (psf_to_add tpl row))
             | Some g => Some (Sum g (Single (psf_to_add tpl row)))
             end) (Some g) stars = Some g'
    /\ components g' = components g ++ (psf_to_add tpl <$> stars).
Proof.
  revert g. induction stars as [|row stars IH]; intros g; cbn [foldl].
  - exists g. now rewrite fmap_nil, app_nil_r.
  - destruct (IH (Sum g (Single (psf_to_add tpl row)))) as (g' & E & C).
    exists g'. split; [exact E|]. rewrite C. cbn [components].
    now rewrite fmap_cons, <- app_assoc.
Qed.

(** X20: The function returns [None] exactly for a table without rows.
    Otherwise the compound model has one component per row, in the order
    of the rows; the component of a row carries the row's [flux_0],
    [x_0] and [y_0] as its [flux], [x_0] and [y_0], and every other
    parameter as in the template. *)
Theorem grouped_model_components (tpl : gmap string float)
    (stars : list star) :
  (get_grouped_psf_model tpl stars = None <-> stars = [])
  /\ forall g, get_grouped_psf_model tpl stars = Some g ->
       length (components g) = length stars
       /\ forall i row, stars !! i = Some row ->
            exists ps, components g !! i = Some ps
              /\ ps !! "flux" = Some (flux_0 row)
              /\ ps !! "x_0" = Some (x_0 row)
              /\ ps !! "y_0" = Some (y_0 row)
              /\ forall name, name <> "flux" -> name <> "x_0" ->
                   name <> "y_0" -> ps !! name = tpl !! name.
Proof.
  unfold get_grouped_psf_model.
  destruct stars as [|row0 stars]; cbn [foldl].
  - split; [easy|]. discriminate.
  - destruct (grouped_loop tpl stars (Single (psf_to_add tpl row0)))
      as (g' & E & C).
    rewrite E. split; [split; discriminate|].
    intros g [= <-]. rewrite C. cbn [components].
    change ([psf_to_add tpl row0] ++ (psf_to_add tpl <$> stars))
      with (psf_to_add tpl <$> row0 :: stars).
    split; [now rewrite length_fmap|].
    intros i row Hi. exists (psf_to_add tpl row).
    split; [now rewrite list_lookup_fmap, Hi|].
    unfold psf_to_add. repeat split.
    + rewrite lookup_insert_ne by discriminate.
      rewrite lookup_insert_ne by discriminate.
      now rewrite lookup_insert_eq.
    + rewrite lookup_insert_ne by discriminate.
      now rewrite lookup_insert_eq.
    + now rewrite lookup_insert_eq.
    + intros name N1 N2 N3.
      now rewrite !lookup_insert_ne by congruence.
Qed.
End GroupedFacts.

(** ** [DiscretePRF.evaluate] *)

Section EvaluateFacts.
Import NP DiscretePRF.
Local Open Scope Z_scope.

Lemma getitem_inbounds {A} (l : list A) (i : Z) :
  0 <= i < Z.of_nat (length l) ->
  exists v, getitem l i = Ok v /\ l !! Z.to_nat i = Some v.
Proof.
  intros Hi. unfold getitem. cbv zeta.
  destruct (i <? 0) eqn:Hneg; [apply Z.ltb_lt in Hneg; lia|].
  rewrite Hneg.
  destruct (l !! Z.to_nat i) as [v|] eqn:L; [eauto|].
  apply lookup_ge_None in L. lia.
Qed.

(** A negative index counts from the end: within [-n, n) the element
    read is the one at [i mod n]. *)
Lemma getitem_wraps {A} (l : list A) (i : Z) :
  - Z.of_nat (length l) <= i < Z.of_nat (length l) ->
  exists v, getitem l i = Ok v
            /\ l !! Z.to_nat (i mod Z.of_nat (length l)) = Some v.
Proof.
  intros Hi. destruct (Z.ltb_spec i 0) as [Hneg | Hpos].
  - unfold getitem. cbv zeta.
    destruct (i <? 0) eqn:E; [|apply Z.ltb_ge in E; lia].
    destruct (i + Z.of_nat (length l) <? 0) eqn:E2;
      [apply Z.ltb_lt in E2; lia|].
    assert (Hm : i + Z.of_nat (length l) = i mod Z.of_nat (length l)).
    { apply (Z.mod_unique i _ (-1)); lia. }
    rewrite <- Hm.
    destruct (l !! Z.to_nat (i + Z.of_nat (length l))) as [v|] eqn:L;
      [eauto|].
    apply lookup_ge_None in L. lia.
  - rewrite Z.mod_small by lia. apply getitem_inbounds. lia.
Qed.

Lemma subpixel_index_range (c : Q) (s : nat) :
  (0 < s)%nat ->
  - Z.of_nat s
  <= Qfloor ((c + 0.5 - inject_Z (Qtrunc (c + 0.5)))
             * inject_Z (Z.of_nat s))
  < Z.of_nat s.
Proof.
  intros Hs.
  pose proof (Qtrunc_near (c + 0.5)) as [H1 H2].
  set (f := (c + 0.5 - inject_Z (Qtrunc (c + 0.5)))%Q).
  assert (Hf : (- (1) < f /\ f < 1)%Q).
  { unfold f. revert H1 H2. generalize (inject_Z (Qtrunc (c + 0.5))).
    intros t H1 H2. split; Lqa.lra. }
  destruct Hf as [Hf1 Hf2].
  assert (HS : (0 < inject_Z (Z.of_nat s))%Q).
  { change 0%Q with (inject_Z 0). rewrite <- Zlt_Qlt. lia. }
  pose proof (Qmult_lt_compat_r _ _ _ HS Hf1) as L1.
  pose proof (Qmult_lt_compat_r _ _ _ HS Hf2) as L2.
  split.
  - rewrite <- (Qfloor_Z (- Z.of_nat s)). apply Qfloor_resp_le.
    rewrite inject_Z_opp. apply Qlt_le_weak.
    eapply Qle_lt_trans; [|exact L1]. revert HS.
    generalize (inject_Z (Z.of_nat s)). intros S HS. Lqa.lra.
  - rewrite Zlt_Qlt. eapply Qle_lt_trans; [apply Qfloor_le|].
    eapply Qlt_le_trans; [exact L2|]. revert HS.
    generalize (inject_Z (Z.of_nat s)). intros S HS. Lqa.lra.
Qed.

Lemma sequence_ok {A} (l : list (result A)) :
  (forall k r, l !! k = Some r -> exists v, r = Ok v) ->
  exists vs, sequence l = Ok vs
             /\ length vs = length l
             /\ forall k v, vs !! k = Some v -> l !! k = Some (Ok v).
Proof.
  induction l as [|r l IH]; intros H; cbn [sequence].
  - exists []. repeat split. intros k v. now rewrite lookup_nil.
  - destruct (H 0%nat r eq_refl) as [v ->].
    destruct IH as (vs & E & L & P).
    { intros k r' Hk. apply (H (S k)). exact Hk. }
    exists (v :: vs). rewrite E. cbn. repeat split.
    + now rewrite L.
    + intros [|k] w; cbn; [now intros [= ->]|apply P].
Qed.

(** X21: The value of every sample.  For a cube of [s] by [s] images of [ny]
    by [nx] pixels and a finite centre, the call returns one value per
    sample.  The image used is the one at the sub-pixel indices of the
    centre, a negative index counting from the end of its axis.  A sample
    whose indices fall inside the image gets the flux times the pixel of
    these indices; any other sample gets zero. *)
Theorem evaluate_samples (h : list ndarray) (self : t) (s ny nx : nat)
    (xs ys : array1) (flux : float) (cx cy : Q) :
  subsampling self = Z.of_nat s ->
  length (cube_of h self) = s ->
  Forall (fun row =>
            length row = s
            /\ Forall (fun sl =>
                         length sl = ny
                         /\ Forall (fun r => length r = nx) sl) row)
         (cube_of h self) ->
  (0 < s)%nat -> (0 < ny)%nat -> (0 < nx)%nat ->
  length xs = length ys ->
  let iy := Qfloor ((cy + 0.5 - inject_Z (Qtrunc (cy + 0.5)))
                    * inject_Z (Z.of_nat s)) in
  let ix := Qfloor ((cx + 0.5 - inject_Z (Qtrunc (cx + 0.5)))
                    * inject_Z (Z.of_nat s)) in
  exists sl out,
    slice_at (cube_of h self) (Z.to_nat (iy mod Z.of_nat s))
             (Z.to_nat (ix mod Z.of_nat s)) = Some sl
    /\ evaluate h self xs ys flux (Fin cx) (Fin cy) = Ok out
    /\ length out = length xs
    /\ forall k xi yi,
         to_index nx (Fin cx) xs !! k = Some xi ->
         to_index ny (Fin cy) ys !! k = Some yi ->
         if (0 <=? xi) && (xi <? Z.of_nat nx)
            && (0 <=? yi) && (yi <? Z.of_nat ny)
         then exists v,
                (sl !! Z.to_nat yi ≫= fun r => r !! Z.to_nat xi) = Some v
                /\ out !! k = Some (fmul flux v)
         else out !! k = Some (Fin 0).
Proof.
  intros Hsub Hlen Hshape Hs Hny Hnx Hxy iy ix.
  pose proof (subpixel_index_range cy s Hs) as Ry. fold iy in Ry.
  pose proof (subpixel_index_range cx s Hs) as Rx. fold ix in Rx.
  (* the image selected by the sub-pixel indices *)
  destruct (getitem_wraps (cube_of h self) iy) as (row & Grow & Lrow);
    [rewrite Hlen; exact Ry|].
  rewrite Hlen in Lrow.
  pose proof (proj1 (Forall_lookup _ _) Hshape _ _ Lrow) as [Hrow Hsls].
  destruct (getitem_wraps row ix) as (sl & Gsl & Lsl);
    [rewrite Hrow; exact Rx|].
  rewrite Hrow in Lsl.
  pose proof (proj1 (Forall_lookup _ _) Hsls _ _ Lsl) as [Hsl Hrs].
  (* the shape of an image *)
  assert (Hps : prf_shape h self = (ny, nx)).
  { unfold prf_shape, shape4_23.
    destruct (cube_of h self) as [|row0 c] eqn:Ec; [cbn in Hlen; lia|].
    apply Forall_cons in Hshape as [[Hrow0 Hsl0] _].
    destruct row0 as [|sl0 row0]; [cbn in Hrow0; lia|].
    apply Forall_cons in Hsl0 as [[Hl0 Hr0] _].
    unfold shape2. rewrite Hl0.
    destruct sl0 as [|r0 sl0]; [cbn in Hl0; lia|].
    apply Forall_cons in Hr0 as [Hr0 _]. now rewrite Hr0. }
  unfold evaluate. rewrite Hps, Hsub.
  set (X := to_index nx (Fin cx) xs). set (Y := to_index ny (Fin cy) ys).
  assert (LX : length X = length xs) by apply length_map.
  assert (LY : length Y = length ys) by apply length_map.
  change (subpixel_index (Fin cy) (Z.of_nat s)) with (of_Z iy).
  change (subpixel_index (Fin cx) (Z.of_nat s)) with (of_Z ix).
  unfold int_of_float, of_Z, py_int. rewrite !Qtrunc_inject_Z.
  cbn [rbind]. rewrite Grow. cbn [rbind]. rewrite Gsl. cbn [rbind].
  set (xb := fun v : Z => (v <? 0) || (Z.of_nat nx <=? v)).
  set (yb := fun v : Z => (v <? 0) || (Z.of_nat ny <=? v)).
  set (clamp := fun (b : bool) (v : Z) => if b then 0 else v).
  set (reads := zip_with _ (zip_with clamp (map yb Y) Y)
                         (zip_with clamp (map xb X) X)).
  assert (Hread : forall k r, reads !! k = Some r ->
            exists xi yi v,
              X !! k = Some xi /\ Y !! k = Some yi /\ r = Ok v
              /\ (sl !! Z.to_nat (clamp (yb yi) yi)
                    ≫= fun r => r !! Z.to_nat (clamp (xb xi) xi)) = Some v).
  { intros k r. unfold reads.
    rewrite !lookup_zip_with, !lookup_map.
    destruct (Y !! k) as [yi|]; cbn; [|discriminate].
    destruct (X !! k) as [xi|]; cbn; [|discriminate].
    intros [= <-].
    assert (By : 0 <= clamp (yb yi) yi < Z.of_nat (length sl)).
    { rewrite Hsl. unfold clamp, yb.
      destruct (Z.ltb_spec yi 0), (Z.leb_spec (Z.of_nat ny) yi); cbn; lia. }
    destruct (getitem_inbounds sl _ By) as (r & Gr & Lr).
    pose proof (proj1 (Forall_lookup _ _) Hrs _ _ Lr) as Hr.
    assert (Bx : 0 <= clamp (xb xi) xi < Z.of_nat (length r)).
    { rewrite Hr. unfold clamp, xb.
      destruct (Z.ltb_spec xi 0), (Z.leb_spec (Z.of_nat nx) xi); cbn; lia. }
    destruct (getitem_inbounds r _ Bx) as (v & Gv & Lv).
    exists xi, yi, v. rewrite Gr. cbn [rbind]. rewrite Gv, Lr. cbn.
    now rewrite Lv. }
  destruct (sequence_ok reads) as (vals & Eseq & Lvals & Pvals).
  { intros k r Hk. destruct (Hread k r Hk) as (xi & yi & v & _ & _ & -> & _).
    eauto. }
  rewrite Eseq. cbn [rbind].
  assert (Lreads : length reads = length xs).
  { unfold reads. rewrite !length_zip_with, !length_map. lia. }
  exists sl, (zip_with (fun (b : bool) v => if b then Fin 0 else v)
                (zip_with orb (map xb X) (map yb Y))
                (map (fmul flux) vals)).
  split; [unfold slice_at; rewrite Lrow; cbn; exact Lsl|].
  split; [reflexivity|].
  split; [rewrite !length_zip_with, !length_map; lia|].
  intros k xi yi HX HY.
  assert (Hk : (k < length vals)%nat).
  { rewrite Lvals, Lreads, <- LX. apply lookup_lt_is_Some. eauto. }
  apply lookup_lt_is_Some in Hk as [v Hv].
  destruct (Hread k _ (Pvals k v Hv)) as (xi' & yi' & v' & HX' & HY' & E & Lv).
  assert (xi' = xi) by congruence. assert (yi' = yi) by congruence.
  assert (v' = v) by congruence. subst xi' yi' v'.
  rewrite !lookup_zip_with, !lookup_map, HX, HY, Hv. cbn.
  unfold xb, yb, clamp in *.
  destruct (Z.ltb_spec xi 0), (Z.leb_spec (Z.of_nat nx) xi),
    (Z.ltb_spec yi 0), (Z.leb_spec (Z.of_nat ny) yi),
    (Z.leb_spec 0 xi), (Z.ltb_spec xi (Z.of_nat nx)),
    (Z.leb_spec 0 yi), (Z.ltb_spec yi (Z.of_nat ny));
    cbn in *; try lia; try reflexivity.
  exists v. split; [exact Lv | reflexivity].
Qed.
End EvaluateFacts.

(** ** [Discrete2DModel]: the data array and the fill value *)

Section GridFacts.
Import NP Discrete2DModel.
Local Open Scope Q_scope.

Lemma Qltb_false (a b : Q) : Qltb a b = false <-> b <= a.
Proof.
  rewrite <- not_true_iff_false, Qltb_lt.
  split; [apply Qnot_lt_le | apply Qle_not_lt].
Qed.

Variable ev : RectBivariateSpline -> float -> float -> float.

(** X23: With a fill value set, a sample whose shifted coordinates are finite
    gets the interpolated value inside the pixel grid and the fill value
    outside of it; an infinite coordinate counts as outside.  A NaN
    coordinate is on no side of any limit: a sample whose coordinates
    are both NaN keeps the interpolated value. *)
Theorem evaluate_fill_value (self : t) (x y : array1)
    (flux x0 y0 fillval : float) (k : nat) (xv yv : float) :
  _fillval self = Some fillval ->
  x !! k = Some xv -> y !! k = Some yv ->
  let xi := fadd xv (fsub (_ox self) x0) in
  let yi := fadd yv (fsub (_oy self) y0) in
  let r := evaluate ev self x y flux x0 y0 !! k in
  let interpolated := Some (fmul flux (ev (interpolator self) xi yi)) in
  (forall a b, xi = Fin a -> yi = Fin b ->
     (0 <= a /\ a <= inject_Z (Z.of_nat (_nx self) - 1)
      /\ 0 <= b /\ b <= inject_Z (Z.of_nat (_ny self) - 1)
      -> r = interpolated)
     /\ (a < 0 \/ inject_Z (Z.of_nat (_nx self) - 1) < a
         \/ b < 0 \/ inject_Z (Z.of_nat (_ny self) - 1) < b
         -> r = Some fillval))
  /\ (xi = PInf \/ xi = NInf \/ yi = PInf \/ yi = NInf -> r = Some fillval)
  /\ (xi = NaN -> yi = NaN -> r = interpolated).
Proof.
  intros Hfill Hx Hy xi yi r interpolated.
  assert (Hr : r = Some
            (if (fltb xi (Fin 0) || fltb (of_Z (Z.of_nat (_nx self) - 1)) xi)
                || (fltb yi (Fin 0)
                    || fltb (of_Z (Z.of_nat (_ny self) - 1)) yi)
             then fillval
             else fmul flux (ev (interpolator self) xi yi))).
  { unfold r, evaluate. rewrite Hfill.
    rewrite !lookup_zip_with, !lookup_map, Hx, Hy. reflexivity. }
  subst interpolated. rewrite Hr. clear Hr r. clearbody xi yi.
  split; [|split].
  - intros a b -> ->. unfold of_Z. cbn [fltb].
    generalize (inject_Z (Z.of_nat (_nx self) - 1)),
      (inject_Z (Z.of_nat (_ny self) - 1)). intros ux uy.
    destruct (Qltb a 0) eqn:E1, (Qltb ux a) eqn:E2, (Qltb b 0) eqn:E3,
      (Qltb uy b) eqn:E4;
      repeat match goal with
             | H : Qltb _ _ = true |- _ => apply Qltb_lt in H
             | H : Qltb _ _ = false |- _ => apply Qltb_false in H
             end; cbn [orb];
      (split; [intros (? & ? & ? & ?) | intros [?|[?|[?|?]]]]);
      first [reflexivity | exfalso; Lqa.lra].
  - intros H. unfold of_Z.
    destruct xi, yi; cbn [fltb orb]; rewrite ?orb_true_r;
      try reflexivity; exfalso; destruct H as [H|[H|[H|H]]]; discriminate.
  - intros -> ->. reflexivity.
Qed.
End GridFacts.

(** ** [PRFAdapter.evaluate] *)

Section AdapterFacts.
Import NP PRFAdapter.
Variable dblquad : model -> float -> float -> float -> float -> float.

Lemma map_zip_with_map {A B C D E} (g : D -> E) (f : B -> C -> D)
    (a : A -> B) (b : A -> C) (x y : list A) :
  map g (zip_with f (map a x) (map b y))
  = zip_with (fun u v => g (f (a u) (b v))) x y.
Proof.
  revert y. induction x as [|u x IH]; intros [|v y]; cbn; try reflexivity.
  now rewrite IH.
Qed.

(** X24: Without parameter names the wrapped model is never written to, and
    [yname] is not looked at: the positions are shifted by [(x_0, y_0)]
    outside the model, and every sample is the integral of the wrapped
    model over the pixel of side 1 around the shifted position, times
    the flux and the scale factor. *)
Theorem adapter_without_names (self : t) (x y : array1)
    (flux x0 y0 : float) :
  xname self = None -> fluxname self = None ->
  evaluate dblquad self x y flux x0 y0
  = (self,
     Ok (zip_with
           (fun xv yv =>
              fmul (fmul flux (_psf_scale_factor self))
                   (dblquad (psfmodel self)
                            (fsub (fsub xv x0) (Fin 0.5))
                            (fadd (fsub xv x0) (Fin 0.5))
                            (fsub (fsub yv y0) (Fin 0.5))
                            (fadd (fsub yv y0) (Fin 0.5))))
           x y)).
Proof.
  intros Hx Hf. unfold evaluate. rewrite Hx. cbv beta iota zeta.
  rewrite Hx, Hf. unfold _integrated_psfmodel.
  now rewrite map_zip_with_map.
Qed.

(** X25: With [xname] set but [yname] left out the call raises a [TypeError],
    whatever the flux name, and only after it wrote the position [x_0]
    into the wrapped model under [xname]; no integral is computed. *)
Theorem adapter_missing_yname (self : t) (x y : array1)
    (flux x0 y0 : float) (n : string) :
  xname self = Some n -> yname self = None ->
  ∃ e self',
    evaluate dblquad self x y flux x0 y0 = (self', Raise (TypeError e))
    ∧ psfmodel self' = <[n := x0]> (psfmodel self)
    ∧ xname self' = xname self ∧ yname self' = yname self
    ∧ fluxname self' = fluxname self
    ∧ _psf_scale_factor self' = _psf_scale_factor self.
Proof.
  intros Hx Hy. unfold evaluate. rewrite Hx. cbn. rewrite Hx, Hy. cbn.
  eexists _, _. split; [reflexivity|]. cbn. rewrite Hx, Hy. auto.
Qed.
End AdapterFacts.

Lemma adapter_without_names_witness :
  PRFAdapter.evaluate (fun _ a b c d => NP.fmul (NP.fsub b a) (NP.fsub d c))
    (PRFAdapter.__init__
       (fun _ a b c d => NP.fmul (NP.fsub b a) (NP.fsub d c))
       ∅ false (NP.Fin 1) (NP.Fin 0) (NP.Fin 0) None (Some "y") None)
    [NP.Fin 2] [NP.Fin 3] (NP.Fin 5) (NP.Fin 1) (NP.Fin 1)
  = (PRFAdapter.__init__
       (fun _ a b c d => NP.fmul (NP.fsub b a) (NP.fsub d c))
       ∅ false (NP.Fin 1) (NP.Fin 0) (NP.Fin 0) None (Some "y") None,
     Ok (zip_with
           (fun xv yv =>
              NP.fmul (NP.fmul (NP.Fin 5) (NP.Fin 1))
                (NP.fmul
                   (NP.fsub (NP.fadd (NP.fsub xv (NP.Fin 1)) (NP.Fin 0.5))
                            (NP.fsub (NP.fsub xv (NP.Fin 1)) (NP.Fin 0.5)))
                   (NP.fsub (NP.fadd (NP.fsub yv (NP.Fin 1)) (NP.Fin 0.5))
                            (NP.fsub (NP.fsub yv (NP.Fin 1)) (NP.Fin 0.5)))))
           [NP.Fin 2] [NP.Fin 3])).
Proof.
  exact (adapter_without_names
           (fun _ a b c d => NP.fmul (NP.fsub b a) (NP.fsub d c))
           (PRFAdapter.__init__
              (fun _ a b c d => NP.fmul (NP.fsub b a) (NP.fsub d c))
              ∅ false (NP.Fin 1) (NP.Fin 0) (NP.Fin 0) None (Some "y") None)
           [NP.Fin 2] [NP.Fin 3] (NP.Fin 5) (NP.Fin 1) (NP.Fin 1)
           eq_refl eq_refl).
Defined.

Lemma adapter_missing_yname_witness :
  ∃ e self',
    PRFAdapter.evaluate
      (fun _ a b c d => NP.fmul (NP.fsub b a) (NP.fsub d c))
      (PRFAdapter.__init__
         (fun _ a b c d => NP.fmul (NP.fsub b a) (NP.fsub d c))
         ∅ false (NP.Fin 1) (NP.Fin 0) (NP.Fin 0) (Some "x") None None)
      [NP.Fin 2] [NP.Fin 3] (NP.Fin 5) (NP.Fin 1) (NP.Fin 1)
    = (self', Raise (TypeError e))
    ∧ PRFAdapter.psfmodel self' = <["x" := NP.Fin 1]> ∅.
Proof.
  destruct (adapter_missing_yname
              (fun _ a b c d => NP.fmul (NP.fsub b a) (NP.fsub d c))
              (PRFAdapter.__init__
                 (fun _ a b c d => NP.fmul (NP.fsub b a) (NP.fsub d c))
                 ∅ false (NP.Fin 1) (NP.Fin 0) (NP.Fin 0) (Some "x") None
                 None)
              [NP.Fin 2] [NP.Fin 3] (NP.Fin 5) (NP.Fin 1) (NP.Fin 1) "x"
              eq_refl eq_refl) as (e & self' & E & P & _).
  exists e, self'. split; [exact E | exact P].
Defined.

(** ** [DiscretePRF.__init__]: what is left untouched *)

Section UntouchedFacts.
Import NP DiscretePRF.

(** X26: Unless the constructor both succeeds and is asked to normalize, it
    changes no array: a refused array is left as it was passed, and so is
    an accepted one with [normalize=False].  The only addition is the 4-D
    copy made of a 2-D image when [subsampling] is 1. *)
Theorem init_leaves_arrays (l : nat) (nz : bool) (sub : Z)
    (h h' : list ndarray) (r : result t) :
  __init__ l nz sub h = (h', r) ->
  nz = false \/ raises r ->
  (forall k a, h !! k = Some a -> h' !! k = Some a)
  /\ (h' = h
      \/ exists img, h !! l = Some (A2 img) /\ sub = 1%Z
                     /\ h' = h ++ [A4 [[img]]]).
Proof.
  unfold __init__. intros E Hcase.
  destruct (h !! l) as [a|] eqn:Hl.
  2:{ injection E as <- <-. split; [auto | now left]. }
  assert (Hkeep : forall ext k (a : ndarray),
            h !! k = Some a -> (h ++ ext) !! k = Some a).
  { intros ext k b Hk. rewrite lookup_app_l; [exact Hk|].
    apply lookup_lt_is_Some. eauto. }
  assert (Hend : forall hh (rr : result t),
            (hh, rr) = (h', r) ->
            hh = h \/ (exists img, h !! l = Some (A2 img) /\ sub = 1%Z
                                   /\ hh = h ++ [A4 [[img]]]) ->
            (forall k a, h !! k = Some a -> h' !! k = Some a)
            /\ (h' = h
                \/ exists img, h !! l = Some (A2 img) /\ sub = 1%Z
                               /\ h' = h ++ [A4 [[img]]])).
  { intros hh rr [= <- <-] [-> | (img & Hi & Hs & ->)].
    - split; [auto | now left].
    - split; [apply Hkeep | right; eauto]. }
  assert (Hok : forall hh (m : t), (hh, Ok m) = (h', r) -> nz = false).
  { intros hh m [= <- <-]. destruct Hcase as [Hc | []]. exact Hc. }
  destruct (sub =? 1)%Z eqn:Hsub, a as [img|c|n];
    unfold alloc in E; cbv beta iota zeta in E;
    try (rewrite <- Hl; apply (Hend _ _ E); now left).
  - (* a 2-D image with subsampling 1, copied into a new array *)
    apply Z.eqb_eq in Hsub. rewrite <- Hl.
    assert (Hnew : h ++ [A4 [[img]]] = h
                   \/ exists img0, h !! l = Some (A2 img0) /\ sub = 1%Z
                         /\ h ++ [A4 [[img]]] = h ++ [A4 [[img0]]])
      by (right; eauto).
    destruct (shape4_01 [[img]]) as [s0 s1].
    destruct (negb _); [exact (Hend _ _ E Hnew)|].
    destruct (any_isnan _); [exact (Hend _ _ E Hnew)|].
    rewrite (Hok _ _ E) in E. exact (Hend _ _ E Hnew).
  - rewrite <- Hl. destruct (shape4_01 c) as [s0 s1].
    destruct (negb _); [apply (Hend _ _ E); now left|].
    destruct (any_isnan _); [apply (Hend _ _ E); now left|].
    rewrite (Hok _ _ E) in E. apply (Hend _ _ E). now left.
  - rewrite <- Hl. destruct (shape4_01 c) as [s0 s1].
    destruct (negb _); [apply (Hend _ _ E); now left|].
    destruct (any_isnan _); [apply (Hend _ _ E); now left|].
    rewrite (Hok _ _ E) in E. apply (Hend _ _ E). now left.
Qed.
End UntouchedFacts.

(** ** Instances *)

Lemma prepare_data_variance_witness :
  exists h' l,
    Segmentation._prepare_data 0 (Some 1%nat)
      (Some (Segmentation.Scalar (NP.Fin 2))) None "exclude" None
      Examples.masked_store
    = (h', Ok (0%nat, Some l, None))
    /\ (2 <= l)%nat.
Proof.
  destruct (prepare_data_variance 0 1 (Some (NP.Fin 2)) "exclude"
              Examples.masked_store
              [[NP.Fin 1; NP.Fin 2]; [NP.Fin 3; NP.Fin 4]]
              [[NP.Fin 5; NP.Fin 1]; [NP.Fin 1; NP.Fin 1]]
              eq_refl eq_refl eq_refl eq_refl)
    as (h' & l & var & E & Hl & _).
  exists h', l. split; [exact E | exact Hl].
Defined.

Lemma init_preserves_inputs_witness :
  Segmentation.farrays
    (fst (Segmentation.__init__ 0 0 1 None None None (Some 0%nat) "exclude"
            (Some (Segmentation.Array 1%nat)) Examples.masked_store))
    !! 0%nat
  = Segmentation.farrays Examples.masked_store !! 0%nat.
Proof.
  refine (proj1 (init_preserves_inputs 0 0 1 None None None (Some 0%nat)
                   "exclude" (Some (Segmentation.Array 1%nat))
                   Examples.masked_store _ _ (surjective_pairing _))
                0%nat _ _).
  - vm_compute. lia.
  - discriminate.
Defined.

Lemma segment_properties_preserves_inputs_witness :
  Segmentation.farrays
    (fst (Segmentation.segment_properties 0 0 None None (Some 0%nat)
            "exclude" (Some (Segmentation.Array 1%nat)) None
            Examples.masked_store))
    !! 0%nat
  = Segmentation.farrays Examples.masked_store !! 0%nat.
Proof.
  refine (proj1 (segment_properties_preserves_inputs 0 0 None None
                   (Some 0%nat) "exclude" (Some (Segmentation.Array 1%nat))
                   None Examples.masked_store _ _ (surjective_pairing _))
                0%nat _ _).
  - vm_compute. lia.
  - discriminate.
Defined.

Lemma init_2d_copies_witness :
  fst (DiscretePRF.__init__ 0 true 1 [DiscretePRF.A2 [[NP.Fin 1; NP.Fin 3]]])
    !! 0%nat
  = Some (DiscretePRF.A2 [[NP.Fin 1; NP.Fin 3]]).
Proof.
  exact (init_2d_copies 0 [DiscretePRF.A2 [[NP.Fin 1; NP.Fin 3]]] _
           [[NP.Fin 1; NP.Fin 3]] true _ eq_refl (surjective_pairing _)).
Defined.

Lemma init_leaves_arrays_witness :
  fst (DiscretePRF.__init__ 0 true 1 [DiscretePRF.A2 [[NP.Fin 1; NP.NaN]]])
    !! 0%nat
  = Some (DiscretePRF.A2 [[NP.Fin 1; NP.NaN]]).
Proof.
  exact (proj1 (init_leaves_arrays 0 true 1
                  [DiscretePRF.A2 [[NP.Fin 1; NP.NaN]]] _ _
                  (surjective_pairing _) (or_intror I))
               0%nat _ eq_refl).
Defined.

Lemma init_degenerate_sum_witness :
  match Discrete2DModel.__init__ Examples.cancelling4 None (NP.Fin 0)
          (NP.Fin 0) None None (Some (NP.Fin 0)) ∅ with
  | Ok m =>
      Discrete2DModel._ndata m = NP.div2 Examples.cancelling4 (NP.Fin 1)
      /\ Discrete2DModel.flux m = NP.Fin 1
  | Raise _ => False
  end.
Proof.
  destruct (Discrete2DModel.__init__ Examples.cancelling4 None
              (NP.Fin 0) (NP.Fin 0) None None (Some (NP.Fin 0)) ∅)
    as [m|e] eqn:E.
  - exact (init_degenerate_sum Examples.cancelling4 None (NP.Fin 0)
             (NP.Fin 0) None None (Some (NP.Fin 0)) ∅ m
             (or_introl eq_refl) E).
  - vm_compute in E. discriminate E.
Defined.

Lemma evaluate_samples_witness :
  exists out,
    DiscretePRF.evaluate
      [DiscretePRF.A4 [[ [[NP.Fin 1; NP.Fin 2]] ]]]
      {| DiscretePRF._prf_array := 0; DiscretePRF.subsampling := 1;
         DiscretePRF.flux := NP.Fin 1; DiscretePRF.x_0 := NP.Fin 0;
         DiscretePRF.y_0 := NP.Fin 0 |}
      [NP.Fin 0; NP.Fin 5] [NP.Fin 0; NP.Fin 0] (NP.Fin 3)
      (NP.Fin 0) (NP.Fin 0)
    = Ok out
    /\ length out = 2%nat.
Proof.
  pose proof (evaluate_samples
                [DiscretePRF.A4 [[ [[NP.Fin 1; NP.Fin 2]] ]]]
                {| DiscretePRF._prf_array := 0; DiscretePRF.subsampling := 1;
                   DiscretePRF.flux := NP.Fin 1; DiscretePRF.x_0 := NP.Fin 0;
                   DiscretePRF.y_0 := NP.Fin 0 |}
                1 1 2 [NP.Fin 0; NP.Fin 5] [NP.Fin 0; NP.Fin 0] (NP.Fin 3)
                0%Q 0%Q eq_refl eq_refl) as H.
  cbv zeta in H.
  destruct H as (sl & out & _ & E & L & _);
    [repeat constructor | lia | lia | lia | reflexivity |].
  exists out. split; [exact E | exact L].
Defined.

Lemma evaluate_fill_value_witness :
  match Discrete2DModel.__init__ Examples.ones4 None (NP.Fin 0) (NP.Fin 0)
          None None (Some (NP.Fin 0)) ∅ with
  | Ok m =>
      Discrete2DModel.evaluate (fun _ a b => NP.fadd a b) m
        [NP.Fin 9] [NP.Fin 0] (NP.Fin 1) (NP.Fin 0) (NP.Fin 0) !! 0%nat
      = Some (NP.Fin 0)
  | Raise _ => False
  end.
Proof.
  destruct (Discrete2DModel.__init__ Examples.ones4 None (NP.Fin 0)
              (NP.Fin 0) None None (Some (NP.Fin 0)) ∅) as [m|e] eqn:E;
    [|vm_compute in E; discriminate E].
  vm_compute in E. injection E as <-.
  match goal with
  | |- Discrete2DModel.evaluate _ ?m _ _ _ _ _ !! _ = _ =>
      pose proof (evaluate_fill_value (fun _ a b => NP.fadd a b) m
                    [NP.Fin 9] [NP.Fin 0] (NP.Fin 1) (NP.Fin 0) (NP.Fin 0)
                    (NP.Fin 0) 0%nat (NP.Fin 9) (NP.Fin 0)
                    eq_refl eq_refl eq_refl) as H
  end.
  cbv zeta in H. destruct H as (H1 & _ & _).
  destruct (H1 _ _ eq_refl eq_refl) as [_ H2].
  apply H2. right. left. vm_compute. reflexivity.
Defined.

(** ** Positions in the coordinates of the image *)

Section PositionFacts.
Import NP Segmentation SegmentStatistics.

Lemma get2_slice2 {X} (y0 y1 x0 x1 : nat) (a : list (list X))
    (j i : nat) (v : X) :
  get2 (slice2 y0 y1 x0 x1 a) j i = Some v ->
  get2 a (y0 + j) (x0 + i) = Some v
  /\ (j < y1 - y0)%nat /\ (i < x1 - x0)%nat.
Proof.
  unfold get2, slice2. rewrite lookup_map.
  destruct (take (y1 - y0) (drop y0 a) !! j) as [row|] eqn:Hr; cbn;
    [|discriminate].
  intros Hv.
  apply lookup_take_Some in Hr as [Hr Hj]. rewrite lookup_drop in Hr.
  apply lookup_take_Some in Hv as [Hv Hi]. rewrite lookup_drop in Hv.
  rewrite Hr. cbn. auto.
Qed.

Lemma getitem_head {X} (l : list X) (p : X) : getitem l 0 = Ok p -> p ∈ l.
Proof.
  destruct l as [|q l]; cbn; [discriminate|]. intros [= ->]. left.
Qed.

(** Where a pixel found by [argwhere_equal] lies in the image. *)
Lemma position_of_value (h : store) (self : SegmentProperties) (v : float)
    (j i : nat) :
  getitem (argwhere_equal h self v) 0 = Ok (j, i) ->
  let '((y0, y1), (x0, x1)) := _slice self in
  (j < y1 - y0)%nat /\ (i < x1 - x0)%nat
  /\ (exists xv, get2 (fa h (_inputimage self)) (y0 + j) (x0 + i) = Some xv
                 /\ feqb xv v = true)
  /\ get2 (ia h (_segment_image self)) (y0 + j) (x0 + i) = Some (label self)
  /\ match _mask self with
     | Some m => get2 (ba h m) (y0 + j) (x0 + i) = Some false
     | None => True
     end.
Proof.
  intros Hg. apply getitem_head in Hg.
  unfold argwhere_equal in Hg. apply elem_of_nonzero in Hg.
  rewrite get2_map2 in Hg.
  destruct (get2 (data_cutout h self) j i) as [xv|] eqn:Hd; [|discriminate].
  destruct (get2 (_local_mask h self) j i) as [b|] eqn:Hb; [|discriminate].
  assert (Hc : negb b && feqb xv v = true) by congruence.
  apply andb_prop in Hc as [Hnb Hv].
  assert (b = false) by (destruct b; [discriminate | reflexivity]). subst b.
  clear Hg Hnb.
  unfold data_cutout, _local_mask, _in_segment, cut in *.
  destruct (_slice self) as [[y0 y1] [x0 x1]].
  apply get2_slice2 in Hd as (Hd & Hj & Hi).
  assert (Hseg : forall z,
            get2 (slice2 y0 y1 x0 x1 (ia h (_segment_image self))) j i
            = Some z -> (z =? label self)%Z = true ->
            get2 (ia h (_segment_image self)) (y0 + j) (x0 + i)
            = Some (label self)).
  { intros z Hz E. apply Z.eqb_eq in E. subst z.
    now apply get2_slice2 in Hz as (Hz & _ & _). }
  repeat split; try assumption; [now exists xv| |].
  - destruct (_mask self) as [m|].
    + rewrite get2_map2, get2_map_map, get2_map_map in Hb.
      destruct (get2 (slice2 y0 y1 x0 x1 (ia h (_segment_image self))) j i)
        as [z|] eqn:Hz; [|discriminate].
      cbn in Hb.
      destruct (get2 (slice2 y0 y1 x0 x1 (ba h m)) j i) as [mb|];
        [|discriminate].
      apply (Hseg z eq_refl).
      destruct (z =? label self)%Z; [reflexivity | discriminate].
    + rewrite !get2_map_map in Hb.
      destruct (get2 (slice2 y0 y1 x0 x1 (ia h (_segment_image self))) j i)
        as [z|] eqn:Hz; [|discriminate].
      apply (Hseg z eq_refl). cbn in Hb.
      destruct (z =? label self)%Z; [reflexivity | discriminate].
  - destruct (_mask self) as [m|]; [|exact I].
    rewrite get2_map2, get2_map_map, get2_map_map in Hb.
    destruct (get2 (slice2 y0 y1 x0 x1 (ia h (_segment_image self))) j i)
      as [z|]; [|discriminate].
    cbn in Hb.
    destruct (get2 (slice2 y0 y1 x0 x1 (ba h m)) j i) as [mb|] eqn:Hm;
      [|discriminate].
    apply get2_slice2 in Hm as (Hm & _ & _). rewrite Hm.
    destruct (negb (z =? label self)%Z), mb; cbn in Hb; congruence.
Qed.

(** X27: The position reported for the minimum, in the coordinates of the
    image, lies inside the bounding box of the segment; the segmentation
    image carries the label of the segment there, the mask (if there is
    one) does not cover it, and the input image holds a value equal to
    the minimum.  Likewise for the maximum. *)
Theorem extreme_position_in_image (h : store) (self : SegmentProperties)
    (y x : nat) :
  let inside :=
    let '(ymin, xmin, ymax, xmax) := bbox self in
    (ymin <= Z.of_nat y <= ymax)%Z /\ (xmin <= Z.of_nat x <= xmax)%Z in
  let in_segment :=
    get2 (ia h (_segment_image self)) y x = Some (label self)
    /\ match _mask self with
       | Some m => get2 (ba h m) y x = Some false
       | None => True
       end in
  (minval_pos h self = Ok (y, x) ->
   inside /\ in_segment
   /\ exists v lo, get2 (fa h (_inputimage self)) y x = Some v
                   /\ min_value h self = Ok lo /\ feqb v lo = true)
  /\ (maxval_pos h self = Ok (y, x) ->
      inside /\ in_segment
      /\ exists v hi, get2 (fa h (_inputimage self)) y x = Some v
                      /\ max_value h self = Ok hi /\ feqb v hi = true).
Proof.
  cbv zeta. unfold minval_pos, maxval_pos, minval_local_pos,
    maxval_local_pos, bbox.
  split.
  - destruct (min_value h self) as [lo|e] eqn:Hlo; cbn [rbind];
      [|discriminate].
    destruct (getitem (argwhere_equal h self lo) 0) as [[j i]|e] eqn:Hg;
      cbn [rbind]; [|discriminate].
    pose proof (position_of_value h self lo j i Hg) as Hp.
    destruct (_slice self) as [[y0 y1] [x0 x1]]. cbn [fst snd].
    intros [= <- <-].
    destruct Hp as (Hj & Hi & (xv & Hd & Hv) & Hs & Hm).
    rewrite !(Nat.add_comm _ y0), !(Nat.add_comm _ x0).
    repeat split; try assumption; try lia. now exists xv, lo.
  - destruct (max_value h self) as [hi|e] eqn:Hhi; cbn [rbind];
      [|discriminate].
    destruct (getitem (argwhere_equal h self hi) 0) as [[j i]|e] eqn:Hg;
      cbn [rbind]; [|discriminate].
    pose proof (position_of_value h self hi j i Hg) as Hp.
    destruct (_slice self) as [[y0 y1] [x0 x1]]. cbn [fst snd].
    intros [= <- <-].
    destruct Hp as (Hj & Hi & (xv & Hd & Hv) & Hs & Hm).
    rewrite !(Nat.add_comm _ y0), !(Nat.add_comm _ x0).
    repeat split; try assumption; try lia. now exists xv, hi.
Qed.

Lemma Qeq_bool_0_Qis0 (q : Q) : Qeq_bool q 0 = true -> Qis0 q = true.
Proof.
  intros H. apply Qeq_bool_iff in H. unfold Qis0, Qeq in *. cbn in H.
  apply Z.eqb_eq. lia.
Qed.

(** X28: A segment whose zeroth moment is zero has no centroid: dividing by
    it gives NaN or an infinity on both axes, and no exception. *)
Theorem centroid_of_zero_moment (h : store) (self : SegmentProperties) :
  feqb (moments h self 0 0) (Fin 0) = true ->
  isfinite (fst (centroid h self)) = false
  /\ isfinite (snd (centroid h self)) = false.
Proof.
  unfold centroid, local_centroid.
  destruct (moments h self 0 0) as [q| | |]; cbn [feqb]; try discriminate.
  intros Hq. apply Qeq_bool_0_Qis0 in Hq.
  destruct (_slice self) as [[y0 y1] [x0 x1]]. cbn [fst snd].
  split.
  - destruct (moments h self 0 1) as [a| | |]; cbn; rewrite ?Hq; cbn;
      try reflexivity;
      destruct (Qis0 a); try reflexivity; now destruct (Qispos a).
  - destruct (moments h self 1 0) as [a| | |]; cbn; rewrite ?Hq; cbn;
      try reflexivity;
      destruct (Qis0 a); try reflexivity; now destruct (Qispos a).
Qed.
End PositionFacts.

Lemma centroid_of_zero_moment_witness :
  NP.isfinite
    (fst (SegmentStatistics.centroid Examples.hidden_store
            Examples.hidden_segment)) = false
  /\ NP.isfinite
       (snd (SegmentStatistics.centroid Examples.hidden_store
               Examples.hidden_segment)) = false.
Proof.
  exact (centroid_of_zero_moment Examples.hidden_store
           Examples.hidden_segment eq_refl).
Defined.

Lemma extreme_position_in_image_witness :
  Segmentation.get2
    (Segmentation.ia Examples.row_store
       (Segmentation._segment_image Examples.row_segment)) 0 0
  = Some (Segmentation.label Examples.row_segment).
Proof.
  exact (proj1 (proj1 (proj2 (proj1 (extreme_position_in_image
                                        Examples.row_store
                                        Examples.row_segment 0 0)
                                     eq_refl)))).
Defined.
